(** * The TMEPT assembler (tools/tmept_asm.py): a shallow embedding

    The Python program is a two-pass assembler.  This development embeds
    its functions as executable Rocq definitions, one per source function
    and under the source's names, and then proves properties of them.

    Conventions.
    - Python [int] is [Z]; [<<], [>>], [|], [&] are [Z.shiftl], [Z.shiftr],
      [Z.lor], [Z.land]; [//] and [%] are [Z.div] and [Z.modulo].
    - Python [str] is [string], restricted to 7-bit ASCII text.
    - [dict] objects whose iteration order is never observed ([symbols],
      [defines], [macros], [memory]) are stdpp [gmap]s.
    - Symbol values are integers, as in the data model of the
      specification; the warnings the assembler prints are not modelled.
    - An exception is an [Err] result.  [AsmError] is the assembler's own
      exception class; [PyError] is any other Python exception that the
      source lets escape; [Unmodelled] marks an input on which the
      embedding does not commit to what Python does (it is never caught by
      the model of [except AsmError]); [OutOfFuel] is the only result of
      a recursion that has not finished within the given depth. *)

From Stdlib Require Import ZArith List String Ascii Bool Lia.
From Stdlib Require Import Floats.SpecFloat.
From stdpp Require Import base option list gmap strings.

Import ListNotations.
Local Open Scope string_scope.
Local Open Scope list_scope.
Local Open Scope Z_scope.

(** ** Results and exceptions *)

Inductive asm_msg :=
| CannotEvaluate          (* "Cannot evaluate expression ..." *)
| ExpectedRegister        (* "Expected register (R0-R15), got ..." *)
| RegisterOutOfRange      (* "Register Rn out of range (max R15)" *)
| CircularInclude         (* "Circular include: ..." *)
| CannotOpen              (* "Cannot open ..." *)
| MacroRequiresName       (* ".macro requires a name" *)
| MalformedInclude        (* "Malformed .include" *)
| UnterminatedMacro       (* "Unterminated .macro ..." *)
| MacroArgCount           (* "Macro ... expects n args, got m" *)
| BuiltinOperands         (* "LOADADDR/JMP_L/CALL_L requires 2 operands" *)
| DuplicateLabel          (* "Duplicate label ..." *)
| OrgRequiresAddress      (* ".org requires an address" *)
| EquRequiresNameValue    (* ".equ requires NAME, value" *)
| TakesOneOperand         (* "<mn> takes 1 operand" *)
| UnexpectedOperandCount  (* "<mn>: unexpected operand count" *)
| TakesOneRegister        (* "<mn> takes exactly 1 register operand" *)
| TakesNoOperands         (* "<mn> takes no operands" *)
| LmarOneOperand          (* "LMAR takes one address operand" *)
| LmarOutOfRange          (* "LMAR address ... out of 16-bit range" *)
| Cmp4Operands            (* "<mn> requires 4 operands" *)
| DjnOperands             (* "DJN requires 2 operands" *)
| ByteOutOfRange          (* ".byte value ... out of range" *)
| ResetvecOneAddress      (* ".resetvec requires one address" *)
| UnknownMnemonic         (* "Unknown mnemonic ..." *)
| WrappedException.       (* AsmError(str(e)) built in pass2 *)

Inductive error :=
| AsmError (m : asm_msg)
| PyError (what : string)
| Unmodelled
| OutOfFuel.

Inductive result (A : Type) :=
| OK (a : A)
| Err (e : error).
Arguments OK {A} a.
Arguments Err {A} e.

Definition bind {A B} (r : result A) (k : A -> result B) : result B :=
  match r with
  | OK a => k a
  | Err e => Err e
  end.

Notation "'let*' p := r 'in' k" := (bind r (fun p => k))
  (at level 10, p pattern, r at level 100, k at level 200).

(** [try: r except AsmError: h]: only the assembler's own exception is
    caught. *)
Definition catch_asm {A} (r : result A) (h : result A) : result A :=
  match r with
  | Err (AsmError _) => h
  | _ => r
  end.

(** ** Characters and strings (Python [str] methods, ASCII) *)

Definition code (c : ascii) : N := N_of_ascii c.

Definition in_range (lo hi : N) (c : ascii) : bool :=
  ((lo <=? code c) && (code c <=? hi))%N.

Definition is_digit (c : ascii) : bool := in_range 48 57 c.
Definition is_upper (c : ascii) : bool := in_range 65 90 c.
Definition is_lower (c : ascii) : bool := in_range 97 122 c.
Definition is_alpha (c : ascii) : bool := is_upper c || is_lower c.
Definition is_underscore (c : ascii) : bool := (code c =? 95)%N.
(** [\w] *)
Definition is_word (c : ascii) : bool := is_alpha c || is_digit c || is_underscore c.
(** [[A-Za-z_]] *)
Definition is_ident_start (c : ascii) : bool := is_alpha c || is_underscore c.
(** [str.isspace] and [\s] on ASCII: TAB LF VT FF CR, FS GS RS US, SPACE. *)
Definition is_space (c : ascii) : bool := in_range 9 13 c || in_range 28 32 c.
(** [[0-9A-Fa-f]] *)
Definition is_hex (c : ascii) : bool :=
  is_digit c || in_range 65 70 c || in_range 97 102 c.

Definition upper_char (c : ascii) : ascii :=
  if is_lower c then ascii_of_N (code c - 32) else c.

Fixpoint upper (s : string) : string :=
  match s with
  | EmptyString => EmptyString
  | String c s' => String (upper_char c) (upper s')
  end.

Definition char_eqb (a b : ascii) : bool := (code a =? code b)%N.

Definition tab : ascii := ascii_of_N 9.
Definition newline : ascii := ascii_of_N 10.
Definition carriage_return : ascii := ascii_of_N 13.
Definition dquote : ascii := ascii_of_N 34.
Definition backslash : ascii := ascii_of_N 92.

Definition next_is (c : ascii) (s : string) : bool :=
  match s with
  | String c' _ => char_eqb c c'
  | EmptyString => false
  end.

Fixpoint lstrip (s : string) : string :=
  match s with
  | EmptyString => EmptyString
  | String c s' => if is_space c then lstrip s' else s
  end.

Fixpoint rstrip (s : string) : string :=
  match s with
  | EmptyString => EmptyString
  | String c s' =>
      match rstrip s' with
      | EmptyString => if is_space c then EmptyString else String c EmptyString
      | r => String c r
      end
  end.

Definition strip (s : string) : string := rstrip (lstrip s).

Fixpoint startswith (p s : string) : bool :=
  match p, s with
  | EmptyString, _ => true
  | String a p', String b s' => char_eqb a b && startswith p' s'
  | String _ _, EmptyString => false
  end.

Fixpoint drop_chars (n : nat) (s : string) : string :=
  match n, s with
  | O, _ => s
  | S n', String _ s' => drop_chars n' s'
  | S _, EmptyString => EmptyString
  end.

Fixpoint all_chars (p : ascii -> bool) (s : string) : bool :=
  match s with
  | EmptyString => true
  | String c s' => p c && all_chars p s'
  end.

(** The longest prefix of [s] whose characters satisfy [p], and the rest. *)
Fixpoint span (p : ascii -> bool) (s : string) : string * string :=
  match s with
  | EmptyString => (EmptyString, EmptyString)
  | String c s' =>
      if p c then let '(a, b) := span p s' in (String c a, b)
      else (EmptyString, s)
  end.

Definition str_eqb (a b : string) : bool := String.eqb a b.

(** Python truthiness of a [str] or [None] attribute. *)
Definition truthy (o : option string) : bool :=
  match o with
  | Some (String _ _) => true
  | _ => false
  end.

(** Digits. *)
Definition digit_val (c : ascii) : Z :=
  if is_digit c then Z.of_N (code c) - 48
  else if in_range 65 70 c then Z.of_N (code c) - 55
  else if in_range 97 102 c then Z.of_N (code c) - 87
  else 0.

(** [int(s, base)] for a string of digits of that base. *)
Fixpoint int_of_digits_from (base : Z) (acc : Z) (s : string) : Z :=
  match s with
  | EmptyString => acc
  | String c s' => int_of_digits_from base (acc * base + digit_val c) s'
  end.

Definition int_of_digits (base : Z) (s : string) : Z :=
  int_of_digits_from base 0 s.

Definition hex_digit (d : Z) : ascii :=
  if d <? 10 then ascii_of_N (Z.to_N (48 + d)) else ascii_of_N (Z.to_N (87 + d)).

(** [hex(n)] for [n >= 0]: "0x" and lower-case digits, no leading zero. *)
Fixpoint hex_digits_pos (p : positive) (acc : string) (fuel : nat) : string :=
  match fuel with
  | O => acc
  | S fuel' =>
      let q := Z.pos p / 16 in
      let acc' := String (hex_digit (Z.pos p mod 16)) acc in
      match q with
      | Z.pos p' => hex_digits_pos p' acc' fuel'
      | _ => acc'
      end
  end.

Definition py_hex (n : Z) : string :=
  match n with
  | Z.pos p => "0x" +:+ hex_digits_pos p EmptyString (Pos.to_nat (Pos.size p))
  | _ => "0x0"
  end.

(** ** Python numbers inside [eval]

    [eval] computes with Python [int]s and, once [/] has been applied,
    with [float]s (IEEE binary64: [spec_float] at precision 53 and
    maximal exponent 1024). *)

Inductive pyval :=
| PInt (z : Z)
| PFloat (f : spec_float).

Definition prec64 : Z := 53.
Definition emax64 : Z := 1024.

(** Every exception raised while [eval] runs is turned by [eval_expr]
    into the same [AsmError]. *)
Definition py_raise {A} : result A := Err (AsmError CannotEvaluate).

(** An [int] as an unrounded floating-point number. *)
Definition raw_float (z : Z) : spec_float :=
  match z with
  | Z0 => S754_zero false
  | Zpos p => S754_finite false p 0
  | Zneg p => S754_finite true p 0
  end.

(** [float(z)]: round to nearest even, [OverflowError] beyond the range. *)
Definition float_of_int (z : Z) : result spec_float :=
  match binary_normalize prec64 emax64 z 0 false with
  | S754_infinity _ => py_raise
  | f => OK f
  end.

Definition to_float (v : pyval) : result spec_float :=
  match v with
  | PInt z => float_of_int z
  | PFloat f => OK f
  end.

(** The integer part of [m * 2^e], for [m >= 0]. *)
Definition trunc_mag (m : Z) (e : Z) : Z :=
  if 0 <=? e then Z.shiftl m e else Z.shiftr m (- e).

(** [int(v)]: truncation toward zero; [inf] and [nan] raise. *)
Definition int_of_float (f : spec_float) : result Z :=
  match f with
  | S754_zero _ => OK 0
  | S754_infinity _ | S754_nan => py_raise
  | S754_finite s m e =>
      let v := trunc_mag (Zpos m) e in
      OK (if s then - v else v)
  end.

Definition py_int (v : pyval) : result Z :=
  match v with
  | PInt z => OK z
  | PFloat f => int_of_float f
  end.

Definition is_float_zero (f : spec_float) : bool :=
  match f with
  | S754_zero _ => true
  | _ => false
  end.

Inductive binop :=
| Add | Sub | Mul | TrueDiv | FloorDiv | Mod
| Shl | Shr | BitAnd | BitXor | BitOr.

Inductive unop := Neg | Pos | Invert.

(** [a / b] on two [int]s: the correctly rounded quotient. *)
Definition int_true_divide (a b : Z) : result pyval :=
  if b =? 0 then py_raise
  else match SFdiv prec64 emax64 (raw_float a) (raw_float b) with
       | S754_infinity _ => py_raise
       | f => OK (PFloat f)
       end.

Definition float_binop (op : binop) (x y : spec_float) : result pyval :=
  match op with
  | Add => OK (PFloat (SFadd prec64 emax64 x y))
  | Sub => OK (PFloat (SFsub prec64 emax64 x y))
  | Mul => OK (PFloat (SFmul prec64 emax64 x y))
  | TrueDiv =>
      if is_float_zero y then py_raise
      else OK (PFloat (SFdiv prec64 emax64 x y))
  | FloorDiv | Mod => Err Unmodelled
  | Shl | Shr | BitAnd | BitXor | BitOr => py_raise   (* TypeError *)
  end.

Definition int_binop (op : binop) (a b : Z) : result pyval :=
  match op with
  | Add => OK (PInt (a + b))
  | Sub => OK (PInt (a - b))
  | Mul => OK (PInt (a * b))
  | TrueDiv => int_true_divide a b
  | FloorDiv => if b =? 0 then py_raise else OK (PInt (a / b))
  | Mod => if b =? 0 then py_raise else OK (PInt (a mod b))
  | Shl => if b <? 0 then py_raise else OK (PInt (Z.shiftl a b))
  | Shr => if b <? 0 then py_raise else OK (PInt (Z.shiftr a b))
  | BitAnd => OK (PInt (Z.land a b))
  | BitXor => OK (PInt (Z.lxor a b))
  | BitOr => OK (PInt (Z.lor a b))
  end.

Definition py_binop (op : binop) (v w : pyval) : result pyval :=
  match v, w with
  | PInt a, PInt b => int_binop op a b
  | _, _ =>
      match op with
      | Shl | Shr | BitAnd | BitXor | BitOr => py_raise
      | _ =>
          let* x := to_float v in
          let* y := to_float w in
          float_binop op x y
      end
  end.

Definition py_unop (op : unop) (v : pyval) : result pyval :=
  match op, v with
  | Neg, PInt a => OK (PInt (- a))
  | Pos, PInt a => OK (PInt a)
  | Invert, PInt a => OK (PInt (Z.lnot a))
  | Neg, PFloat f => OK (PFloat (SFopp f))
  | Pos, PFloat f => OK (PFloat f)
  | Invert, PFloat _ => py_raise
  end.

(** ** Python's [eval] on the assembler's expression grammar

    [eval] is the interpreter's builtin, not code of the assembler.  It is
    modelled on the grammar the assembler documents: integer literals
    (decimal, [0x], [0b], [0o]), names, parentheses, the unary operators
    [- + ~], the binary operators [* / // % + - << >> & ^ |] with Python's
    precedences, and calls of the two functions [eval_expr] installs.
    A text outside this grammar yields [Unmodelled]. *)

Inductive token :=
| TNum (z : Z)
| TName (s : string)
| TOp (o : binop)
| TTilde
| TLParen
| TRParen.

Definition python_keywords : list string :=
  ["False"; "None"; "True"; "and"; "as"; "assert"; "async"; "await"; "break";
   "class"; "continue"; "def"; "del"; "elif"; "else"; "except"; "finally";
   "for"; "from"; "global"; "if"; "import"; "in"; "is"; "lambda"; "nonlocal";
   "not"; "or"; "pass"; "raise"; "return"; "try"; "while"; "with"; "yield"].

Definition is_keyword (s : string) : bool :=
  existsb (str_eqb s) python_keywords.

Definition is_bin_digit (c : ascii) : bool := in_range 48 49 c.
Definition is_oct_digit (c : ascii) : bool := in_range 48 55 c.

(** An integer literal, given as the maximal run of word characters and
    dots that starts with a digit. *)
Definition number_literal (w : string) : option Z :=
  match w with
  | String "0" (String x ds) =>
      if (char_eqb x "x" || char_eqb x "X") && all_chars is_hex ds
         && negb (str_eqb ds "") then Some (int_of_digits 16 ds)
      else if (char_eqb x "b" || char_eqb x "B") && all_chars is_bin_digit ds
         && negb (str_eqb ds "") then Some (int_of_digits 2 ds)
      else if (char_eqb x "o" || char_eqb x "O") && all_chars is_oct_digit ds
         && negb (str_eqb ds "") then Some (int_of_digits 8 ds)
      else if all_chars (char_eqb "0") w then Some 0
      else None
  | String c _ =>
      if all_chars is_digit w && negb (char_eqb c "0") then Some (int_of_digits 10 w)
      else if all_chars (char_eqb "0") w then Some 0
      else None
  | EmptyString => None
  end.

Definition is_number_char (c : ascii) : bool := is_word c || char_eqb c ".".

Fixpoint tokenize (fuel : nat) (s : string) : result (list token) :=
  match fuel with
  | O => Err Unmodelled
  | S fuel' =>
      match s with
      | EmptyString => OK []
      | String c s' =>
          let op1 t := let* ts := tokenize fuel' s' in OK (t :: ts) in
          if char_eqb c " " || char_eqb c tab then tokenize fuel' s'
          else if is_digit c then
            let '(w, rest) := span is_number_char s in
            match number_literal w with
            | Some z => let* ts := tokenize fuel' rest in OK (TNum z :: ts)
            | None => Err Unmodelled
            end
          else if is_ident_start c then
            let '(w, rest) := span is_word s in
            if is_keyword w then Err Unmodelled
            else let* ts := tokenize fuel' rest in OK (TName w :: ts)
          else if char_eqb c "+" then op1 (TOp Add)
          else if char_eqb c "-" then op1 (TOp Sub)
          else if char_eqb c "%" then op1 (TOp Mod)
          else if char_eqb c "|" then op1 (TOp BitOr)
          else if char_eqb c "&" then op1 (TOp BitAnd)
          else if char_eqb c "^" then op1 (TOp BitXor)
          else if char_eqb c "~" then op1 TTilde
          else if char_eqb c "(" then op1 TLParen
          else if char_eqb c ")" then op1 TRParen
          else if char_eqb c "*" then
            (if startswith "*" s' then Err Unmodelled else op1 (TOp Mul))
          else if char_eqb c "/" then
            (if startswith "/" s'
             then let* ts := tokenize fuel' (drop_chars 1 s') in OK (TOp FloorDiv :: ts)
             else op1 (TOp TrueDiv))
          else if char_eqb c "<" then
            (if startswith "<" s'
             then let* ts := tokenize fuel' (drop_chars 1 s') in OK (TOp Shl :: ts)
             else Err Unmodelled)
          else if char_eqb c ">" then
            (if startswith ">" s'
             then let* ts := tokenize fuel' (drop_chars 1 s') in OK (TOp Shr :: ts)
             else Err Unmodelled)
          else Err Unmodelled
      end
  end.

Inductive pyfun := FLo | FHi.

Inductive expr :=
| ENum (z : Z)
| EName (s : string)
| ECall (f : pyfun) (e : expr)
| EUn (o : unop) (e : expr)
| EBin (o : binop) (a b : expr).

(** Binding strength of the binary operators, loosest first. *)
Definition level_of (o : binop) : nat :=
  match o with
  | BitOr => 0
  | BitXor => 1
  | BitAnd => 2
  | Shl | Shr => 3
  | Add | Sub => 4
  | Mul | TrueDiv | FloorDiv | Mod => 5
  end%nat.

Definition call_target (s : string) : option pyfun :=
  if str_eqb s "__lo__" then Some FLo
  else if str_eqb s "__hi__" then Some FHi
  else None.

(** [parse_level f l ts] parses an expression whose operators bind at
    least as tightly as level [l]; level 6 is a unary expression.
    [parse_rest] continues a left-associative chain at level [l]. *)
Fixpoint parse_level (fuel : nat) (lvl : nat) (ts : list token)
  : option (expr * list token) :=
  match fuel with
  | O => None
  | S fuel' =>
      if (6 <=? lvl)%nat then
        match ts with
        | TOp Sub :: ts' =>
            '(e, r) ← parse_level fuel' 6%nat ts'; Some (EUn Neg e, r)
        | TOp Add :: ts' =>
            '(e, r) ← parse_level fuel' 6%nat ts'; Some (EUn Pos e, r)
        | TTilde :: ts' =>
            '(e, r) ← parse_level fuel' 6%nat ts'; Some (EUn Invert e, r)
        | TNum z :: ts' => Some (ENum z, ts')
        | TName s :: TLParen :: ts' =>
            f ← call_target s;
            '(e, r) ← parse_level fuel' 0%nat ts';
            match r with
            | TRParen :: r' => Some (ECall f e, r')
            | _ => None
            end
        | TName s :: ts' => Some (EName s, ts')
        | TLParen :: ts' =>
            '(e, r) ← parse_level fuel' 0%nat ts';
            match r with
            | TRParen :: r' => Some (e, r')
            | _ => None
            end
        | _ => None
        end
      else
        '(e, r) ← parse_level fuel' (S lvl) ts;
        parse_rest fuel' lvl e r
  end
with parse_rest (fuel : nat) (lvl : nat) (e : expr) (ts : list token)
  : option (expr * list token) :=
  match fuel with
  | O => None
  | S fuel' =>
      match ts with
      | TOp o :: ts' =>
          if (level_of o =? lvl)%nat then
            '(e2, r) ← parse_level fuel' (S lvl) ts';
            parse_rest fuel' lvl (EBin o e e2) r
          else Some (e, ts)
      | _ => Some (e, ts)
      end
  end.

Definition parse (ts : list token) : result expr :=
  match parse_level (8 * List.length ts + 8) 0%nat ts with
  | Some (e, []) => OK e
  | _ => Err Unmodelled
  end.

(** Evaluation in the namespace [ns] (the symbol table); [__lo__] and
    [__hi__] are the two lambdas of [eval_expr].  The name [__debug__] is
    never looked up: the compiler replaces it by a constant that depends
    on how the interpreter was started, so it is left outside the model. *)
Fixpoint eval_ast (ns : gmap string Z) (e : expr) : result pyval :=
  match e with
  | ENum z => OK (PInt z)
  | EName s =>
      if str_eqb s "__lo__" || str_eqb s "__hi__" || str_eqb s "__debug__"
      then Err Unmodelled
      else match ns !! s with
           | Some z => OK (PInt z)
           | None => py_raise   (* NameError *)
           end
  | ECall f a =>
      let* v := eval_ast ns a in
      let* z := py_int v in
      match f with
      | FLo => OK (PInt (Z.land z 255))
      | FHi => OK (PInt (Z.land (Z.shiftr z 8) 255))
      end
  | EUn o a =>
      let* v := eval_ast ns a in
      py_unop o v
  | EBin o a b =>
      let* v := eval_ast ns a in
      let* w := eval_ast ns b in
      py_binop o v w
  end.

(** The syntax tree of an expression text. *)
Definition py_parse (s : string) : result expr :=
  let* ts := tokenize (S (String.length s)) s in
  parse ts.

Definition py_eval (s : string) (ns : gmap string Z) : result pyval :=
  let* e := py_parse s in
  eval_ast ns e.

(** ** Expression evaluator: [eval_expr] *)

(** [re.sub(r'\$([0-9A-Fa-f]+)', lambda m: hex(int(m.group(1), 16)), s)].
    [pend] is the state of a match in progress: [None] outside a match,
    [Some ds] after a dollar sign followed by the hex digits [ds]. *)
Definition flush_dollar (pend : option string) : string :=
  match pend with
  | None => ""
  | Some "" => "$"
  | Some ds => py_hex (int_of_digits 16 ds)
  end.

Fixpoint sub_dollar_go (pend : option string) (s : string) : string :=
  match s with
  | EmptyString => flush_dollar pend
  | String c s' =>
      match pend with
      | Some ds =>
          if is_hex c then sub_dollar_go (Some (ds +:+ String c "")) s'
          else if char_eqb c "$" then flush_dollar pend +:+ sub_dollar_go (Some "") s'
          else flush_dollar pend +:+ String c (sub_dollar_go None s')
      | None =>
          if char_eqb c "$" then sub_dollar_go (Some "") s'
          else String c (sub_dollar_go None s')
      end
  end.

Definition sub_dollar (s : string) : string := sub_dollar_go None s.

(** [re.sub(r'\b<name>\s*\(', '__<name>__(', s)] for an identifier
    [name]; [prev_word] tells whether the character before the current
    position is a word character. *)
Fixpoint sub_call_go (fuel : nat) (name : string) (prev_word : bool) (s : string)
  : string :=
  match fuel with
  | O => s
  | S fuel' =>
      match s with
      | EmptyString => EmptyString
      | String c s' =>
          let skip := String c (sub_call_go fuel' name (is_word c) s') in
          if negb prev_word && startswith name s then
            match snd (span is_space (drop_chars (String.length name) s)) with
            | String p rest =>
                if char_eqb p "("
                then "__" +:+ name +:+ "__(" +:+ sub_call_go fuel' name false rest
                else skip
            | EmptyString => skip
            end
          else skip
      end
  end.

Definition sub_call (name : string) (s : string) : string :=
  sub_call_go (String.length s) name false s.

(** The text [eval_expr] hands to [eval]: stripped, dollar literals and
    the two function names rewritten. *)
Definition expression_text (expr_str : string) : string :=
  let s := strip expr_str in
  let s := sub_dollar s in
  let s := sub_call "lo" s in
  sub_call "hi" s.

Definition eval_expr (expr_str : string) (symbols : gmap string Z) : result Z :=
  let s := expression_text expr_str in
  (* try: result = eval(s, {"__builtins__": {}}, ns); return int(result)
     except Exception: raise AsmError *)
  match (let* v := py_eval s symbols in py_int v) with
  | OK z => OK z
  | Err Unmodelled => Err Unmodelled
  | Err _ => Err (AsmError CannotEvaluate)
  end.

(** ** Tokeniser / line parser *)

(** [re.fullmatch(r'[Rr]\d+', s)]; the result is group 1, the digits. *)
Definition register_syntax (s : string) : option string :=
  match s with
  | String c ds =>
      if (char_eqb c "R" || char_eqb c "r")
         && negb (str_eqb ds "") && all_chars is_digit ds
      then Some ds else None
  | EmptyString => None
  end.

Definition parse_register (tok : string) : result Z :=
  match register_syntax (strip tok) with
  | None => Err (AsmError ExpectedRegister)
  | Some ds =>
      let n := int_of_digits 10 ds in
      if 15 <? n then Err (AsmError RegisterOutOfRange) else OK n
  end.

Fixpoint split_operands_go (parts : list string) (depth : Z) (cur : string)
  (s : string) : list string :=
  match s with
  | EmptyString =>
      if negb (str_eqb (strip cur) "") then parts ++ [strip cur] else parts
  | String ch s' =>
      if char_eqb ch "(" then
        split_operands_go parts (depth + 1) (cur +:+ String ch "") s'
      else if char_eqb ch ")" then
        split_operands_go parts (depth - 1) (cur +:+ String ch "") s'
      else if char_eqb ch "," && (depth =? 0) then
        split_operands_go (parts ++ [strip cur]) depth "" s'
      else
        split_operands_go parts depth (cur +:+ String ch "") s'
  end.

Definition split_operands (operand_str : string) : list string :=
  split_operands_go [] 0 "" operand_str.

(** ** Source line representation *)

Record SourceLine := mkSourceLine {
  filename : string;
  lineno : Z;
  label : option string;
  mnemonic : option string;
  operands : list string;
  raw : string
}.

(** ** Opcode table *)

Inductive encoding := E3std | E2reg | E2noreg | Elmar | Ecmp4 | Edjn4.

Definition OPCODES : list (string * (Z * encoding)) :=
  [ ("ADD", (0x00, E3std)); ("ADC", (0x01, E3std)); ("SUB", (0x02, E3std));
    ("SBC", (0x03, E3std)); ("AND", (0x04, E3std)); ("OR", (0x05, E3std));
    ("NOR", (0x06, E3std)); ("NAD", (0x07, E3std)); ("XOR", (0x08, E3std));
    ("CMP", (0x09, E3std));
    ("ROL", (0x0A, E3std)); ("SOL", (0x0B, E3std)); ("SZL", (0x0C, E3std));
    ("RIL", (0x0D, E3std)); ("ROR", (0x0E, E3std)); ("SOR", (0x0F, E3std));
    ("SZR", (0x10, E3std)); ("RIR", (0x11, E3std));
    ("INV", (0x12, E3std)); ("INH", (0x13, E3std)); ("INL", (0x14, E3std));
    ("INE", (0x15, E3std)); ("INO", (0x16, E3std)); ("IEH", (0x17, E3std));
    ("IOH", (0x18, E3std)); ("IEL", (0x19, E3std)); ("IOL", (0x1A, E3std));
    ("IFB", (0x1B, E3std)); ("ILB", (0x1C, E3std)); ("REV", (0x1D, E3std));
    ("RVL", (0x1E, E3std)); ("RVH", (0x1F, E3std)); ("RVE", (0x20, E3std));
    ("RVO", (0x21, E3std)); ("RLE", (0x22, E3std)); ("RHE", (0x23, E3std));
    ("RLO", (0x24, E3std)); ("RHO", (0x25, E3std));
    ("JMP", (0x26, E2reg)); ("JMZ", (0x27, E2reg)); ("JMN", (0x28, E2reg));
    ("JMG", (0x29, E2reg)); ("JMO", (0x2A, E2reg)); ("JIE", (0x2B, E2reg));
    ("JIO", (0x2C, E2reg)); ("JNE", (0x38, E2reg)); ("JGE", (0x39, E2reg));
    ("JLE", (0x3A, E2reg));
    ("MOV", (0x2D, E3std)); ("LMAR", (0x2E, Elmar)); ("SMAR", (0x2F, E2reg));
    ("LOAD", (0x30, E2reg)); ("STOR", (0x31, E2reg)); ("IMAR", (0x32, E2noreg));
    ("DMAR", (0x33, E2noreg));
    ("ALE", (0x34, Ecmp4)); ("DJN", (0x35, Edjn4)); ("SLE", (0x36, Ecmp4));
    ("SJN", (0x37, Ecmp4));
    ("PUSH", (0x3B, E2reg)); ("POP", (0x3C, E2reg)); ("CALL", (0x3D, E2reg));
    ("RET", (0x3E, E2noreg)) ].

(** [OPCODES[mn]], [None] when [mn not in OPCODES]. *)
Definition opcode_lookup (mn : string) : option (Z * encoding) :=
  snd <$> List.find (fun p => str_eqb (fst p) mn) OPCODES.

Definition SINGLE_OPERAND : list string :=
  [ "INV"; "INH"; "INL"; "INE"; "INO"; "IEH"; "IOH"; "IEL"; "IOL"; "IFB"; "ILB";
    "REV"; "RVL"; "RVH"; "RVE"; "RVO"; "RLE"; "RHE"; "RLO"; "RHO" ].

Definition in_strings (s : string) (l : list string) : bool :=
  existsb (str_eqb s) l.

(** [sl.mnemonic.upper()] where the mnemonic is known to be a string. *)
Definition mn_upper (sl : SourceLine) : string :=
  match mnemonic sl with
  | Some m => upper m
  | None => ""
  end.

(** ** Pass 1: assign addresses, collect labels *)

Definition instruction_size (sl : SourceLine) (symbols_so_far : gmap string Z) : Z :=
  match mnemonic sl with
  | None => 0
  | Some m =>
      let mn := upper m in
      if str_eqb mn ".ORG" then 0
      else if str_eqb mn ".EQU" then 0
      else if str_eqb mn ".BYTE" then Z.of_nat (List.length (operands sl))
      else if str_eqb mn ".WORD" then Z.of_nat (List.length (operands sl)) * 2
      else if str_eqb mn ".RESETVEC" then 0
      else if str_eqb mn "__LOADADDR_HI__" then 0
      else match opcode_lookup mn with
           | None => 0
           | Some (_, enc) =>
               match enc with
               | E3std => 3
               | E2reg | E2noreg => 2
               | Elmar => 3
               | Ecmp4 | Edjn4 => 4
               end
           end
  end.

Record pass1_state := mkP1 {
  p1_symbols : gmap string Z;
  p1_located : list (SourceLine * Z);
  p1_lc : Z
}.

(** One iteration of the loop of [pass1]; [frozen] is [_frozen]. *)
Definition pass1_step (frozen : gset string) (st : pass1_state) (sl : SourceLine)
  : result pass1_state :=
  let '(mkP1 symbols located lc) := st in
  let* symbols :=
    match label sl with
    | Some l =>
        if truthy (Some l) then
          if bool_decide (l ∈ dom symbols) then Err (AsmError DuplicateLabel)
          else OK (<[l := lc]> symbols)
        else OK symbols
    | None => OK symbols
    end in
  if truthy (mnemonic sl) then
    let mn := mn_upper sl in
    if str_eqb mn ".ORG" then
      match operands sl with
      | [] => Err (AsmError OrgRequiresAddress)
      | op0 :: _ =>
          let* lc' := catch_asm (eval_expr op0 symbols) (OK lc) in
          OK (mkP1 symbols located lc')
      end
    else if str_eqb mn ".EQU" then
      match operands sl with
      | name :: op1 :: _ =>
          if bool_decide (name ∈ frozen) then OK (mkP1 symbols located lc)
          else
            let* symbols' :=
              catch_asm (let* val := eval_expr op1 symbols in
                         OK (<[name := val]> symbols))
                        (OK symbols) in
            OK (mkP1 symbols' located lc)
      | _ => Err (AsmError EquRequiresNameValue)
      end
    else
      let size := instruction_size sl symbols in
      OK (mkP1 symbols (located ++ [(sl, lc)]) (lc + size))
  else
    OK (mkP1 symbols (located ++ [(sl, lc)]) lc).

Fixpoint pass1_loop (frozen : gset string) (st : pass1_state)
  (source_lines : list SourceLine) : result pass1_state :=
  match source_lines with
  | [] => OK st
  | sl :: rest =>
      let* st' := pass1_step frozen st sl in
      pass1_loop frozen st' rest
  end.

Definition pass1 (source_lines : list SourceLine) (predefined : gmap string Z)
  : result (gmap string Z * list (SourceLine * Z)) :=
  let symbols := predefined in
  let _frozen := dom symbols in
  let* st := pass1_loop _frozen (mkP1 symbols [] 0) source_lines in
  OK (p1_symbols st, p1_located st).

(** ** Pass 2: encode *)

(** [bytes([...])]: every element must be in [range(256)]. *)
Definition py_bytes (l : list Z) : result (list Z) :=
  if forallb (fun b => (0 <=? b) && (b <? 256)) l then OK l
  else Err (PyError "ValueError").

(** [mn == 'MOV' and len(ops) == 2 and ops[1].strip().upper() == '[MAR]'] *)
Definition is_mov_mar (mn : string) (ops : list string) : bool :=
  match ops with
  | [_; op1] => str_eqb mn "MOV" && str_eqb (upper (strip op1)) "[MAR]"
  | _ => false
  end.

(** [op2 = ops[1].strip()] and
    [imm_str = op2[1:] if op2.startswith('#') else op2]: the second
    operand without the optional immediate marker. *)
Definition immediate_text (op1 : string) : string :=
  let op2 := strip op1 in
  if startswith "#" op2 then drop_chars 1 op2 else op2.

Definition encode_3std (opc : Z) (sl : SourceLine) (symbols : gmap string Z)
  : result (list Z) :=
  let mn := mn_upper sl in
  let ops := operands sl in
  if is_mov_mar mn ops then
    (* MOV Rd, [MAR] -> mode=11 *)
    let* rd := parse_register (List.nth 0 ops "") in
    py_bytes [opc; Z.lor (Z.shiftl 3 6) (Z.shiftl rd 2); 0]
  else if in_strings mn SINGLE_OPERAND then
    (* single-operand bit-manip: mode=01, dst=rd *)
    match ops with
    | [op0] =>
        let* rd := parse_register op0 in
        py_bytes [opc; Z.lor (Z.shiftl 1 6) (Z.shiftl rd 2);
                  Z.lor (Z.shiftl rd 4) 0; 0]
    | _ => Err (AsmError TakesOneOperand)
    end
  else
    match ops with
    | [op0; op1; op2] =>
        (* 3-address: Rd, Rs1, Rs2 *)
        let* rd := parse_register op0 in
        let* rs1 := parse_register op1 in
        let* rs2 := parse_register op2 in
        py_bytes [opc; Z.lor (Z.shiftl 0 6) (Z.shiftl rd 2);
                  Z.lor (Z.shiftl rs1 4) rs2; 0]
    | [op0; op1] =>
        let* rd := parse_register op0 in
        let imm_str := immediate_text op1 in
        match register_syntax (strip imm_str) with
        | Some _ =>
            (* 2-address: Rd, Rs -> mode=01 *)
            let* rs := parse_register imm_str in
            py_bytes [opc; Z.lor (Z.shiftl 1 6) (Z.shiftl rd 2);
                      Z.lor (Z.shiftl rd 4) rs; 0]
        | None =>
            (* immediate: evaluate as expression *)
            let* v := eval_expr imm_str symbols in
            let imm := Z.land v 255 in
            py_bytes [opc; Z.lor (Z.shiftl 2 6) (Z.shiftl rd 2); imm; 0]
        end
    | [op0] =>
        let* rd := parse_register op0 in
        py_bytes [opc; Z.lor (Z.shiftl 1 6) (Z.shiftl rd 2);
                  Z.lor (Z.shiftl rd 4) rd; 0]
    | _ => Err (AsmError UnexpectedOperandCount)
    end.

Definition encode_2reg (opc : Z) (sl : SourceLine) (symbols : gmap string Z)
  : result (list Z) :=
  match operands sl with
  | [op0] =>
      let* rn := parse_register op0 in
      py_bytes [opc; Z.shiftl rn 2]
  | _ => Err (AsmError TakesOneRegister)
  end.

Definition encode_2noreg (opc : Z) (sl : SourceLine) (symbols : gmap string Z)
  : result (list Z) :=
  match operands sl with
  | [] => py_bytes [opc; 0]
  | _ => Err (AsmError TakesNoOperands)
  end.

Definition encode_lmar (opc : Z) (sl : SourceLine) (symbols : gmap string Z)
  : result (list Z) :=
  match operands sl with
  | [op0] =>
      let* addr := eval_expr op0 symbols in
      if (addr <? 0) || (0xFFFF <? addr) then Err (AsmError LmarOutOfRange)
      else py_bytes [opc; Z.land (Z.shiftr addr 8) 255; Z.land addr 255]
  | _ => Err (AsmError LmarOneOperand)
  end.

Definition encode_cmp4 (opc : Z) (sl : SourceLine) (symbols : gmap string Z)
  : result (list Z) :=
  match operands sl with
  | [op0; op1; op2; op3] =>
      let* rs1 := parse_register op0 in
      let* rs2 := parse_register op1 in
      let* rd := parse_register op2 in
      let* rjmp := parse_register op3 in
      py_bytes [opc; Z.lor (Z.shiftl rs1 4) rs2; Z.shiftl rd 4; Z.shiftl rjmp 4]
  | _ => Err (AsmError Cmp4Operands)
  end.

Definition encode_djn4 (opc : Z) (sl : SourceLine) (symbols : gmap string Z)
  : result (list Z) :=
  match operands sl with
  | [op0; op1] =>
      let* rs := parse_register op0 in
      let* rjmp := parse_register op1 in
      py_bytes [opc; Z.lor (Z.shiftl rs 4) 0; Z.shiftl rs 4; Z.shiftl rjmp 4]
  | _ => Err (AsmError DjnOperands)
  end.

(** [for i, b in enumerate(data): memory[lc + i] = b] *)
Fixpoint store_bytes (memory : gmap Z Z) (lc : Z) (data : list Z) : gmap Z Z :=
  match data with
  | [] => memory
  | b :: rest => store_bytes (<[lc := b]> memory) (lc + 1) rest
  end.

(** [ops[i]], an [IndexError] when there is no such operand. *)
Definition operand (ops : list string) (i : nat) : result string :=
  match List.nth_error ops i with
  | Some s => OK s
  | None => Err (PyError "IndexError")
  end.

(** The [.byte] loop. *)
Fixpoint encode_bytes (ops : list string) (symbols : gmap string Z)
  : result (list Z) :=
  match ops with
  | [] => OK []
  | op :: rest =>
      let* v := eval_expr op symbols in
      if (v <? -128) || (255 <? v) then Err (AsmError ByteOutOfRange)
      else
        let* data := encode_bytes rest symbols in
        OK (Z.land v 255 :: data)
  end.

(** The [.word] loop. *)
Fixpoint encode_words (ops : list string) (symbols : gmap string Z)
  : result (list Z) :=
  match ops with
  | [] => OK []
  | op :: rest =>
      let* v0 := eval_expr op symbols in
      let v := Z.land v0 0xFFFF in
      let* data := encode_words rest symbols in
      OK (Z.land v 255 :: Z.land (Z.shiftr v 8) 255 :: data)
  end.

(** The state [pass2] threads through its loop: the two dictionaries it
    mutates in place and the listing. *)
Record pass2_state := mkP2 {
  p2_symbols : gmap string Z;
  p2_memory : gmap Z Z;
  p2_listing : list (Z * list Z * SourceLine)
}.

(** What [encode_directive] hands back: the tuple it returns and the two
    dictionaries as it leaves them. *)
Record directive_result := mkDir {
  dir_data : option (list Z);
  dir_new_lc : option Z;
  dir_symbols : gmap string Z;
  dir_memory : gmap Z Z
}.

(** [encode_directive(sl, symbols, memory)].  The warning printed for the
    [__LOADADDR_HI__] sentinel is an output that is not modelled. *)
Definition encode_directive (sl : SourceLine) (symbols : gmap string Z)
  (memory : gmap Z Z) : result directive_result :=
  let mn := mn_upper sl in
  let ops := operands sl in
  if str_eqb mn ".ORG" then
    let* op0 := operand ops 0 in
    let* addr := eval_expr op0 symbols in
    OK (mkDir (Some []) (Some addr) symbols memory)
  else if str_eqb mn ".EQU" then
    let* name := operand ops 0 in
    let* op1 := operand ops 1 in
    let* val := eval_expr op1 symbols in
    OK (mkDir (Some []) None (<[name := val]> symbols) memory)
  else if str_eqb mn ".BYTE" then
    let* data := encode_bytes ops symbols in
    OK (mkDir (Some data) None symbols memory)
  else if str_eqb mn ".WORD" then
    let* data := encode_words ops symbols in
    OK (mkDir (Some data) None symbols memory)
  else if str_eqb mn ".RESETVEC" then
    match ops with
    | [op0] =>
        let* v := eval_expr op0 symbols in
        let addr := Z.land v 0xFFFF in
        let memory := <[0xFFFC := Z.land addr 255]> memory in
        let memory := <[0xFFFD := Z.land (Z.shiftr addr 8) 255]> memory in
        OK (mkDir (Some []) None symbols memory)
    | _ => Err (AsmError ResetvecOneAddress)
    end
  else if str_eqb mn "__LOADADDR_HI__" then
    let* rn := operand ops 0 in
    let* e := operand ops 1 in
    let* val := catch_asm (eval_expr e symbols) (OK 0) in
    OK (mkDir (Some []) None symbols memory)
  else OK (mkDir None None symbols memory).

(** The [try] block of [pass2]: dispatch on the encoding class, then
    [except AsmError: raise] and
    [except Exception as e: raise AsmError(str(e))]. *)
Definition encode_instruction (enc : encoding) (opc : Z) (sl : SourceLine)
  (symbols : gmap string Z) : result (list Z) :=
  let r :=
    match enc with
    | E3std => encode_3std opc sl symbols
    | E2reg => encode_2reg opc sl symbols
    | E2noreg => encode_2noreg opc sl symbols
    | Elmar => encode_lmar opc sl symbols
    | Ecmp4 => encode_cmp4 opc sl symbols
    | Edjn4 => encode_djn4 opc sl symbols
    end in
  match r with
  | Err (PyError _) => Err (AsmError WrappedException)
  | _ => r
  end.

(** [sl.mnemonic and sl.mnemonic.upper() == '.EQU' and len(sl.operands) >= 2] *)
Definition is_equ_line (sl : SourceLine) : bool :=
  truthy (mnemonic sl) && str_eqb (mn_upper sl) ".EQU"
  && (2 <=? List.length (operands sl))%nat.

Definition equ_names_of (located : list (SourceLine * Z)) : gset string :=
  list_to_set
    (omap (fun p : SourceLine * Z =>
             if is_equ_line (fst p) then List.nth_error (operands (fst p)) 0
             else None) located).

(** The loop of [pass2] that resolves the [.equ] lines found in
    [located]; [predefined] is computed once, before the loop. *)
Fixpoint resolve_equs (predefined : gset string) (symbols : gmap string Z)
  (located : list (SourceLine * Z)) : result (gmap string Z) :=
  match located with
  | [] => OK symbols
  | (sl, addr) :: rest =>
      if is_equ_line sl then
        match operands sl with
        | name :: op1 :: _ =>
            if bool_decide (name ∈ predefined) then resolve_equs predefined symbols rest
            else
              let* symbols' :=
                catch_asm (let* val := eval_expr op1 symbols in
                           OK (<[name := val]> symbols))
                          (OK symbols) in
              resolve_equs predefined symbols' rest
        | _ => resolve_equs predefined symbols rest
        end
      else resolve_equs predefined symbols rest
  end.

(** One iteration of the encoding loop of [pass2]. *)
Definition pass2_step (st : pass2_state) (entry : SourceLine * Z)
  : result pass2_state :=
  let '(sl, addr) := entry in
  let '(mkP2 symbols memory listing) := st in
  let lc := addr in
  match mnemonic sl with
  | None => OK (mkP2 symbols memory (listing ++ [(lc, [], sl)]))
  | Some _ =>
      let mn := mn_upper sl in
      let* d := encode_directive sl symbols memory in
      match dir_data d with
      | Some data =>
          OK (mkP2 (dir_symbols d) (store_bytes (dir_memory d) lc data)
                   (listing ++ [(lc, data, sl)]))
      | None =>
          match opcode_lookup mn with
          | None => Err (AsmError UnknownMnemonic)
          | Some (opc, enc) =>
              let* data := encode_instruction enc opc sl (dir_symbols d) in
              OK (mkP2 (dir_symbols d) (store_bytes (dir_memory d) lc data)
                       (listing ++ [(lc, data, sl)]))
          end
      end
  end.

Fixpoint pass2_loop (st : pass2_state) (located : list (SourceLine * Z))
  : result pass2_state :=
  match located with
  | [] => OK st
  | entry :: rest =>
      let* st' := pass2_step st entry in
      pass2_loop st' rest
  end.

(** [pass2(located, symbols)]; the result carries the [symbols]
    dictionary as the call leaves it, the memory and the listing. *)
Definition pass2 (located : list (SourceLine * Z)) (symbols : gmap string Z)
  : result pass2_state :=
  let equ_names := equ_names_of located in
  let predefined := dom symbols ∖ equ_names in
  let* symbols := resolve_equs predefined symbols located in
  pass2_loop (mkP2 symbols ∅ []) located.

(** ** Binary writer *)

(** [max(memory.keys())] for a non-empty dictionary; the start value is
    only returned for the empty one. *)
Definition max_key (memory : gmap Z Z) : Z :=
  match map_to_list memory with
  | [] => 0
  | (k, _) :: rest => foldr (fun p acc => Z.max (fst p) acc) k rest
  end.

(** [image[addr] = byte] on a [bytearray] of length [size]: a negative
    index counts from the end, an index outside [-size, size) is an
    [IndexError], a value outside [range(256)] a [ValueError]. *)
Definition bytearray_set (image : list Z) (addr byte : Z) : result (list Z) :=
  let size := Z.of_nat (List.length image) in
  if (addr <? - size) || (size <=? addr) then Err (PyError "IndexError")
  else if (byte <? 0) || (256 <=? byte) then Err (PyError "ValueError")
  else
    let i := if addr <? 0 then addr + size else addr in
    OK (<[Z.to_nat i := byte]> image).

Fixpoint write_items (image : list Z) (items : list (Z * Z)) : result (list Z) :=
  match items with
  | [] => OK image
  | (addr, byte) :: rest =>
      let* image' := bytearray_set image addr byte in
      write_items image' rest
  end.

(** [write_binary(memory, out_path)]: the result is the content of the
    file that is written.  A dictionary with a negative key is written in
    insertion order, which a [gmap] does not record: such an input is
    [Unmodelled]. *)
Definition write_binary (memory : gmap Z Z) : result (list Z) :=
  if decide (memory = ∅) then OK []
  else if forallb (fun p => 0 <=? fst p) (map_to_list memory) then
    let size := max_key memory + 1 in
    let image := replicate (Z.to_nat size) 0 in
    write_items image (map_to_list memory)
  else Err Unmodelled.

(** ** File names ([os.path] on a POSIX system)

    [os.path] is the interpreter's library.  The four functions the
    preprocessor calls are written out after [posixpath]; the working
    directory is a parameter. *)

Definition isabs (p : string) : bool := startswith "/" p.

Fixpoint endswith_slash (p : string) : bool :=
  match p with
  | EmptyString => false
  | String c EmptyString => char_eqb c "/"
  | String _ p' => endswith_slash p'
  end.

Definition path_join (a b : string) : string :=
  if startswith "/" b then b
  else if str_eqb a "" || endswith_slash a then a +:+ b
  else a +:+ "/" +:+ b.

(** [p.split('/')] *)
Fixpoint split_slash (cur : string) (p : string) : list string :=
  match p with
  | EmptyString => [cur]
  | String c p' =>
      if char_eqb c "/" then cur :: split_slash "" p'
      else split_slash (cur +:+ String c "") p'
  end.

Definition join_slash (comps : list string) : string :=
  match comps with
  | [] => ""
  | c :: rest => fold_left (fun acc x => acc +:+ "/" +:+ x) rest c
  end.

(** [p[:p.rfind('/') + 1]]: everything up to and including the last slash. *)
Fixpoint head_upto_slash (p : string) : string :=
  match p with
  | EmptyString => EmptyString
  | String c p' =>
      match head_upto_slash p' with
      | EmptyString => if char_eqb c "/" then String c EmptyString else EmptyString
      | h => String c h
      end
  end.

Fixpoint rstrip_slash (s : string) : string :=
  match s with
  | EmptyString => EmptyString
  | String c s' =>
      match rstrip_slash s' with
      | EmptyString => if char_eqb c "/" then EmptyString else String c EmptyString
      | r => String c r
      end
  end.

Definition dirname (p : string) : string :=
  let head := head_upto_slash p in
  if negb (str_eqb head "") && negb (all_chars (fun c => char_eqb c "/") head)
  then rstrip_slash head else head.

Definition normpath_step (initial_slashes : nat) (new_comps : list string)
  (comp : string) : list string :=
  if str_eqb comp "" || str_eqb comp "." then new_comps
  else if negb (str_eqb comp "..")
          || ((initial_slashes =? 0)%nat && (List.length new_comps =? 0)%nat)
          || (match List.last new_comps "" with
              | s => negb (List.length new_comps =? 0)%nat && str_eqb s ".."
              end)
       then new_comps ++ [comp]
       else List.removelast new_comps.

Definition normpath (path : string) : string :=
  if str_eqb path "" then "."
  else
    let initial_slashes : nat :=
      if startswith "/" path then
        (if startswith "//" path && negb (startswith "///" path) then 2 else 1)%nat
      else 0%nat in
    let comps := fold_left (normpath_step initial_slashes) (split_slash "" path) [] in
    let p := join_slash comps in
    let p := (match initial_slashes with
              | O => ""
              | S O => "/"
              | _ => "//"
              end) +:+ p in
    if str_eqb p "" then "." else p.

Definition abspath (cwd : string) (path : string) : string :=
  normpath (if isabs path then path else path_join cwd path).

(** ** Pre-processor: include + macro expansion *)

Definition strip_comment (line : string) : string :=
  (fix go (in_str : bool) (s : string) : string :=
     match s with
     | EmptyString => EmptyString
     | String ch s' =>
         let in_str := if char_eqb ch dquote then negb in_str else in_str in
         if char_eqb ch ";" && negb in_str then EmptyString
         else String ch (go in_str s')
     end) false line.

(** Prefix match of the label pattern (an identifier, optional white
    space, a colon): the identifier and the text after the colon. *)
Definition match_label (line : string) : option (string * string) :=
  match line with
  | String c _ =>
      if is_ident_start c then
        let '(name, r) := span is_word line in
        match snd (span is_space r) with
        | String c' r' => if char_eqb c' ":" then Some (name, r') else None
        | EmptyString => None
        end
      else None
  | EmptyString => None
  end.

(** Prefix match of the mnemonic pattern: a letter, underscore or dot,
    then word characters. *)
Definition match_mnemonic (line : string) : option (string * string) :=
  match line with
  | String c r =>
      if is_ident_start c || char_eqb c "." then
        let '(w, r') := span is_word r in Some (String c w, r')
      else None
  | EmptyString => None
  end.

Definition _parse_one (line : string) (fn : string) (ln : Z) : option SourceLine :=
  let line := strip line in
  if str_eqb line "" then None
  else
    let '(lbl, line) :=
      match match_label line with
      | Some (l, r) => (Some l, strip r)
      | None => (None, line)
      end in
    if str_eqb line "" then Some (mkSourceLine fn ln lbl None [] line)
    else
      match match_mnemonic line with
      | None => Some (mkSourceLine fn ln lbl None [] line)
      | Some (mn, r) =>
          let rest := strip r in
          let ops := if negb (str_eqb rest "") then split_operands rest else [] in
          Some (mkSourceLine fn ln lbl (Some (upper mn)) ops line)
      end.

Definition has_newline (s : string) : bool :=
  negb (all_chars (fun c => negb (char_eqb c newline)) s).

(** Match of the assignment pattern (an identifier, [=], a non-empty
    rest, white space allowed around [=]): groups 1 and 2. *)
Definition match_assign (line : string) : option (string * string) :=
  match line with
  | String c _ =>
      if is_ident_start c then
        let '(name, r) := span is_word line in
        match snd (span is_space r) with
        | String c' r' =>
            if char_eqb c' "=" then
              let v := snd (span is_space r') in
              if negb (str_eqb v "") && negb (has_newline v) then Some (name, v)
              else None
            else None
        | EmptyString => None
        end
      else None
  | EmptyString => None
  end.

(** Prefix match, ignoring case, of the [.equ] pattern (an optional
    label, [.equ], white space, a name, a comma, a non-empty rest):
    groups 1 and 2. *)
Definition match_equ (line : string) : option (string * string) :=
  let body :=
    match match_label line with
    | Some (_, r) => snd (span is_space r)
    | None => line
    end in
  if startswith ".EQU" (upper body) then
    let r := drop_chars 4 body in
    let '(ws, r) := span is_space r in
    if str_eqb ws "" then None
    else
      let '(name, r) := span is_word r in
      if str_eqb name "" then None
      else
        match snd (span is_space r) with
        | String c r' =>
            if char_eqb c "," then
              let v := snd (span is_space r') in
              let v := fst (span (fun c => negb (char_eqb c newline)) v) in
              if str_eqb v "" then None else Some (name, v)
            else None
        | EmptyString => None
        end
  else None.

(** Prefix match, ignoring case, of the include pattern ([.include],
    white space, a non-empty path between double quotes): group 1. *)
Definition match_include (line : string) : option string :=
  if startswith ".INCLUDE" (upper line) then
    let '(ws, r) := span is_space (drop_chars 8 line) in
    if str_eqb ws "" then None
    else
      match r with
      | String q r' =>
          if char_eqb q dquote then
            let '(p, r'') := span (fun c => negb (char_eqb c dquote)) r' in
            if negb (str_eqb p "") && next_is dquote r'' then Some p else None
          else None
      | EmptyString => None
      end
  else None.

(** [re.split(r'[\s,]+', rest, maxsplit=1)] *)
Definition is_sep (c : ascii) : bool := is_space c || char_eqb c ",".

Definition split_first_sep (rest : string) : list string :=
  let '(a, r) := span (fun c => negb (is_sep c)) rest in
  match r with
  | EmptyString => [a]
  | _ => [a; snd (span is_sep r)]
  end.

(** [s.split(',')] *)
Fixpoint split_comma (cur : string) (s : string) : list string :=
  match s with
  | EmptyString => [cur]
  | String c s' =>
      if char_eqb c "," then cur :: split_comma "" s'
      else split_comma (cur +:+ String c "") s'
  end.

Fixpoint lstrip_backslash (s : string) : string :=
  match s with
  | EmptyString => EmptyString
  | String c s' => if char_eqb c backslash then lstrip_backslash s' else s
  end.

(** [[p.strip().lstrip('\\') for p in param_str.split(',') if p.strip()]] *)
Definition macro_params (param_str : string) : list string :=
  List.map (fun p => lstrip_backslash (strip p))
    (List.filter (fun p => negb (str_eqb (strip p) "")) (split_comma "" param_str)).

(** [s.replace(old, new)] for a non-empty [old]. *)
Fixpoint str_replace (fuel : nat) (old new : string) (s : string) : string :=
  match fuel with
  | O => s
  | S fuel' =>
      match s with
      | EmptyString => EmptyString
      | String c s' =>
          if startswith old s
          then new +:+ str_replace fuel' old new (drop_chars (String.length old) s)
          else String c (str_replace fuel' old new s')
      end
  end.

(** [re.sub(r'\b' + re.escape(word) + r'\b', new, s)] for a non-empty
    [word] and a replacement without backslash.  [prev] is whether the
    previous character is a word character. *)
Definition next_is_word (s : string) : bool :=
  match s with
  | String c _ => is_word c
  | EmptyString => false
  end.

Fixpoint last_is_word (prev : bool) (s : string) : bool :=
  match s with
  | EmptyString => prev
  | String c s' => last_is_word (is_word c) s'
  end.

Fixpoint sub_word (fuel : nat) (word new : string) (prev : bool) (s : string)
  : string :=
  match fuel with
  | O => s
  | S fuel' =>
      match s with
      | EmptyString => EmptyString
      | String c s' =>
          let after := drop_chars (String.length word) s in
          if startswith word s
             && xorb prev (is_word c)
             && xorb (last_is_word prev word) (next_is_word after)
          then new +:+ sub_word fuel' word new (last_is_word prev word) after
          else String c (sub_word fuel' word new (is_word c) s')
      end
  end.

Definition has_backslash (s : string) : bool :=
  negb (all_chars (fun c => negb (char_eqb c backslash)) s).

(** The two substitutions of one parameter in one body line. *)
Definition substitute_param (expanded : string) (pa : string * string)
  : result string :=
  let '(param, arg) := pa in
  if str_eqb param "" || has_backslash arg then Err Unmodelled
  else
    let e := str_replace (String.length expanded) (String backslash param) arg expanded in
    OK (sub_word (String.length e) param arg false e).

Fixpoint substitute_params (expanded : string) (pas : list (string * string))
  : result string :=
  match pas with
  | [] => OK expanded
  | pa :: rest =>
      let* e := substitute_param expanded pa in
      substitute_params e rest
  end.

Definition with_label (sl : SourceLine) (l : option string) : SourceLine :=
  mkSourceLine (filename sl) (lineno sl) l (mnemonic sl) (operands sl) (raw sl).

Fixpoint expand_body (sl : SourceLine) (pas : list (string * string))
  (fn : string) (ln : Z) (res : list SourceLine) (body : list string)
  : result (list SourceLine) :=
  match body with
  | [] => OK res
  | body_line :: rest =>
      let* expanded := substitute_params body_line pas in
      match _parse_one expanded fn ln with
      | Some sub =>
          let sub :=
            if (List.length res =? 0)%nat && truthy (label sl)
            then with_label sub (label sl) else sub in
          expand_body sl pas fn ln (res ++ [sub]) rest
      | None => expand_body sl pas fn ln res rest
      end
  end.

Record pp_state := mkPP {
  macros : gmap string (list string * list string);
  defines : gmap string Z;
  _include_stack : list string
}.

Definition _expand_macro (st : pp_state) (sl : SourceLine) (fn : string) (ln : Z)
  : result (list SourceLine) :=
  let name := mn_upper sl in
  match macros st !! name with
  | None => Err (PyError "KeyError")
  | Some (params, body) =>
      let args := operands sl in
      if negb (List.length args =? List.length params)%nat
      then Err (AsmError MacroArgCount)
      else expand_body sl (List.combine params args) fn ln [] body
  end.

Definition make (fn : string) (ln : Z) (l : option string) (mn : string)
  (ops : list string) : SourceLine :=
  mkSourceLine fn ln l (Some mn) ops "".

(** The [LOADADDR] branch of [_expand_builtin]. *)
Definition expand_loadaddr (l : option string) (ops : list string)
  (fn : string) (ln : Z) : result (list SourceLine) :=
  match ops with
  | [rn; e] =>
      OK [ make fn ln l "XOR" [rn; rn; rn];
           make fn ln None "ADD" [rn; "#lo(" +:+ e +:+ ")"];
           make fn ln None "__LOADADDR_HI__" [rn; e] ]
  | _ => Err (AsmError BuiltinOperands)
  end.

Definition _expand_builtin (sl : SourceLine) (fn : string) (ln : Z)
  : result (list SourceLine) :=
  let mn := mn_upper sl in
  let ops := operands sl in
  if str_eqb mn "LOADADDR" then expand_loadaddr (label sl) ops fn ln
  else if str_eqb mn "JMP_L" then
    match ops with
    | [rn; target] =>
        let* out := expand_loadaddr (label sl) [rn; target] fn ln in
        OK (out ++ [make fn ln None "JMP" [rn]])
    | _ => Err (AsmError BuiltinOperands)
    end
  else if str_eqb mn "CALL_L" then
    match ops with
    | [rn; target] =>
        let* out := expand_loadaddr (label sl) [rn; target] fn ln in
        OK (out ++ [make fn ln None "CALL" [rn]])
    | _ => Err (AsmError BuiltinOperands)
    end
  else OK [].

(** [fh.readlines()] of a text file: universal newlines, every line end
    is read as a single newline.  [after_cr] is set just after a carriage
    return, whose following newline belongs to the same line end. *)
Fixpoint readlines_go (after_cr : bool) (cur : string) (s : string) : list string :=
  match s with
  | EmptyString => if str_eqb cur "" then [] else [cur]
  | String c s' =>
      if char_eqb c newline then
        if after_cr then readlines_go false cur s'
        else (cur +:+ String newline "") :: readlines_go false "" s'
      else if char_eqb c carriage_return then
        (cur +:+ String newline "") :: readlines_go true "" s'
      else readlines_go false (cur +:+ String c "") s'
  end.

Definition readlines (text : string) : list string := readlines_go false "" text.

(** [text.splitlines(keepends=True)] on ASCII text: a line ends at LF, CR,
    CR LF, VT, FF, FS, GS or RS. *)
Definition is_linebreak (c : ascii) : bool :=
  in_range 10 13 c || in_range 28 30 c.

Fixpoint splitlines_go (after_cr : bool) (cur : string) (s : string) : list string :=
  match s with
  | EmptyString => if str_eqb cur "" then [] else [cur]
  | String c s' =>
      if after_cr && char_eqb c newline then
        (cur +:+ String c "") :: splitlines_go false "" s'
      else
        let flushed := if after_cr then [cur] else [] in
        let cur := if after_cr then "" else cur in
        if char_eqb c carriage_return then
          (flushed ++ splitlines_go true (cur +:+ String c "") s')
        else if is_linebreak c then
          (flushed ++ (cur +:+ String c "") :: splitlines_go false "" s')
        else (flushed ++ splitlines_go false (cur +:+ String c "") s')
  end.

Definition splitlines (text : string) : list string :=
  match text with
  | EmptyString => []
  | _ => splitlines_go false "" text
  end.

(** The local variables of [_process_lines]. *)
Record pl_locals := mkPL {
  pl_out : list SourceLine;
  pl_lineno : Z;
  pl_in_macro : option (string * list string);
  pl_macro_body : list string
}.

Definition builtin_names : list string := ["LOADADDR"; "JMP_L"; "CALL_L"].

(** The body of the loop of [_process_lines] for a line that is neither
    inside a macro definition, nor [.macro], nor [.include]. *)
Definition process_plain_line (st : pp_state) (line : string) (fn : string)
  (ln : Z) : result (pp_state * list SourceLine) :=
  (* NAME = expr is rewritten as .equ *)
  let line :=
    match match_assign line with
    | Some (name, v) => ".equ " +:+ name +:+ ", " +:+ strip v
    | None => line
    end in
  (* .equ: evaluate against the defines known so far *)
  let* st :=
    match match_equ line with
    | Some (name, e) =>
        catch_asm
          (let* val := eval_expr e (defines st) in
           OK (mkPP (macros st) (<[name := val]> (defines st)) (_include_stack st)))
          (OK st)
    | None => OK st
    end in
  match _parse_one line fn ln with
  | None => OK (st, [])
  | Some sl =>
      if truthy (mnemonic sl) && bool_decide (is_Some (macros st !! mn_upper sl)) then
        let* expanded := _expand_macro st sl fn ln in
        OK (st, expanded)
      else if truthy (mnemonic sl) && in_strings (mn_upper sl) builtin_names then
        let* expanded := _expand_builtin sl fn ln in
        OK (st, expanded)
      else OK (st, [sl])
  end.

(** [_process_lines(raw_lines, filename)]; [process_file] is the method
    it calls for an include. *)
Fixpoint _process_lines
  (process_file : string -> pp_state -> result (pp_state * list SourceLine))
  (st : pp_state) (loc : pl_locals) (raw_lines : list string) (fn : string)
  : result (pp_state * list SourceLine) :=
  match raw_lines with
  | [] =>
      match pl_in_macro loc with
      | Some _ => Err (AsmError UnterminatedMacro)
      | None => OK (st, pl_out loc)
      end
  | raw0 :: rest =>
      let '(mkPL out ln0 in_macro macro_body) := loc in
      let ln := ln0 + 1 in
      let line := strip (strip_comment raw0) in
      if str_eqb line "" then
        _process_lines process_file st (mkPL out ln in_macro macro_body) rest fn
      else
        match in_macro with
        | Some (name, params) =>
            if str_eqb (upper line) ".ENDM" then
              let st' := mkPP (<[upper name := (params, macro_body)]> (macros st))
                              (defines st) (_include_stack st) in
              _process_lines process_file st' (mkPL out ln None []) rest fn
            else
              _process_lines process_file st
                (mkPL out ln in_macro (macro_body ++ [line])) rest fn
        | None =>
            if startswith ".MACRO" (upper line) then
              let parts := split_first_sep (strip (drop_chars 6 line)) in
              let mname := upper (List.nth 0 parts "") in
              if str_eqb mname "" then Err (AsmError MacroRequiresName)
              else
                let params := macro_params (List.nth 1 parts "") in
                _process_lines process_file st
                  (mkPL out ln (Some (mname, params)) []) rest fn
            else if startswith ".INCLUDE" (upper line) then
              match match_include line with
              | None => Err (AsmError MalformedInclude)
              | Some inc_path =>
                  let inc_path :=
                    if negb (isabs inc_path)
                    then path_join (dirname fn) inc_path else inc_path in
                  let* (st', lines) := process_file inc_path st in
                  _process_lines process_file st'
                    (mkPL (out ++ lines) ln None macro_body) rest fn
              end
            else
              let* (st', lines) := process_plain_line st line fn ln in
              _process_lines process_file st'
                (mkPL (out ++ lines) ln None macro_body) rest fn
        end
  end.

(** The files that can be opened: absolute path to content. *)
Record file_system := mkFS {
  fs_files : gmap string string;
  fs_cwd : string
}.

Definition push_include (st : pp_state) (p : string) : pp_state :=
  mkPP (macros st) (defines st) (_include_stack st ++ [p]).

Definition pop_include (st : pp_state) : pp_state :=
  mkPP (macros st) (defines st) (List.removelast (_include_stack st)).

(** [Preprocessor.process_file(path)].  [fuel] bounds the depth of nested
    includes. *)
Fixpoint process_file (fs : file_system) (fuel : nat) (path : string)
  (st : pp_state) : result (pp_state * list SourceLine) :=
  match fuel with
  | O => Err OutOfFuel
  | S fuel' =>
      let abs_path := abspath (fs_cwd fs) path in
      if bool_decide (abs_path ∈ _include_stack st) then Err (AsmError CircularInclude)
      else
        let st := push_include st abs_path in
        match fs_files fs !! abs_path with
        | None => Err (AsmError CannotOpen)
        | Some text =>
            let* (st', result) :=
              _process_lines (process_file fs fuel') st (mkPL [] 0 None [])
                             (readlines text) abs_path in
            OK (pop_include st', result)
        end
  end.

(** [Preprocessor.process_string(text, filename)] *)
Definition process_string (fs : file_system) (fuel : nat) (text : string)
  (fn : string) (st : pp_state) : result (pp_state * list SourceLine) :=
  _process_lines (process_file fs fuel) st (mkPL [] 0 None []) (splitlines text) fn.

(** [Preprocessor(defines)] *)
Definition Preprocessor (defs : gmap string Z) : pp_state := mkPP ∅ defs [].

(** ** The pipeline of [main]

    Pre-process, merge the pre-processor's defines under the symbols of
    pass 1, encode.  [assemble] is the part shared by [main] and by the
    helper [asm] of the test suite. *)
Definition assemble (source_lines : list SourceLine) (predefines : gmap string Z)
  (seed_symbols : gmap string Z) : result pass2_state :=
  let* (symbols, located) := pass1 source_lines predefines in
  (* symbols.update({k: v for k, v in seed_symbols.items() if k not in symbols}) *)
  let symbols := symbols ∪ seed_symbols in
  pass2 located symbols.

Definition main (fs : file_system) (fuel : nat) (input : string)
  (predefines : gmap string Z) : result (list Z) :=
  let* (pp, source_lines) := process_file fs fuel input (Preprocessor predefines) in
  let* st := assemble source_lines predefines (defines pp) in
  write_binary (p2_memory st).

(** [asm(src, defines)] of the test suite: assemble a source string. *)
Definition no_files : file_system := mkFS ∅ "/".

Definition asm (src : string) (defs : gmap string Z) : result pass2_state :=
  let* (pp, lines) := process_string no_files 0 src "<string>" (Preprocessor defs) in
  assemble lines defs (defines pp).

(** ** Vocabulary of the statements, and the programs they mention *)

(** Bits 7:6 of an encoded byte. *)
Definition mode_bits (b : Z) : Z := Z.land (Z.shiftr b 6) 3.

Definition nl : string := String newline "".

Definition line (mn : string) (ops : list string) : SourceLine :=
  mkSourceLine "<string>" 1 None (Some mn) ops "".

(** The sixteen register numbers. *)
Definition regs : list Z := List.map Z.of_nat (List.seq 0 16).

Definition is_byte (b : Z) : bool := (0 <=? b) && (b <? 256).

(** Inversion of a successful [bind]. *)
Ltac inv_bind H :=
  match type of H with
  | bind ?r _ = OK _ =>
      let a := fresh "x" in
      let Ha := fresh "Hx" in
      destruct r as [a|] eqn:Ha; [simpl in H | discriminate H]
  end.

(** The instructions used as instances of the 3std shapes. *)
Definition add_3addr : SourceLine := line "ADD" ["R1"; "R2"; "R3"].
Definition add_2addr : SourceLine := line "ADD" ["R5"; "R6"].
Definition add_imm : SourceLine := line "ADD" ["R2"; "#0x11"].
Definition add_imm_bare : SourceLine := line "ADD" ["R2"; "0x11"].
Definition mov_mar : SourceLine := line "MOV" ["R4"; "[mar]"].
Definition inv_single : SourceLine := line "INV" ["R3"].
Definition add_hash_reg : SourceLine := line "ADD" ["R1"; "#R2"].
Definition inv_three : SourceLine := line "INV" ["R1"; "R2"; "R3"].

(** The scenario [.org 0; LMAR target; RET; target: ADD R1,#0], one
    statement per line. *)
Definition forward_lmar_program : string :=
  ".org 0" +:+ nl +:+ "LMAR target" +:+ nl +:+ "RET" +:+ nl +:+
  "target: ADD R1,#0" +:+ nl.

(** The bytes the scenario table lists for it, at addresses 0 to 7. *)
Definition forward_lmar_listed : gmap Z Z :=
  list_to_map [(0, 0x2E); (1, 0x00); (2, 0x05); (3, 0x3E); (4, 0x00);
               (5, 0x00); (6, 0x08); (7, 0x00)].

(** The bytes the assembler produces for it. *)
Definition forward_lmar_memory : gmap Z Z :=
  list_to_map [(0, 0x2E); (1, 0x00); (2, 0x05); (3, 0x3E); (4, 0x00);
               (5, 0x00); (6, 0x84); (7, 0x00); (8, 0x00)].

(** A [.equ] whose expression names a label defined further down, and an
    instruction that uses the constant. *)
Definition deferred_equ_program : string :=
  ".equ X, later" +:+ nl +:+ "ADD R1, #X" +:+ nl +:+ "later: RET" +:+ nl.

(** A [.org] whose expression names a label defined further down. *)
Definition forward_org_program : string :=
  ".org later" +:+ nl +:+ "RET" +:+ nl +:+ "later: RET" +:+ nl.

Definition forward_org_memory : gmap Z Z :=
  list_to_map [(0, 0x3E); (1, 0x00); (2, 0x3E); (3, 0x00)].

(** A line that pass 2 does not treat as [.org] or [.equ]. *)
Definition not_org_equ (sl : SourceLine) : bool :=
  negb (str_eqb (mn_upper sl) ".ORG") && negb (str_eqb (mn_upper sl) ".EQU").

(** A source that assigns [X] twice, in both notations, and uses it;
    assembled with the predefine [X = 99]. *)
Definition override_program : string :=
  ".equ X, 10" +:+ nl +:+ "X = 11" +:+ nl +:+ "ADD R1, #X" +:+ nl.

Definition predefine_X : gmap string Z := {[ "X" := 99 ]}.

(** A listing record [(lc, data, sl)] says that [data] was written from
    address [lc] on; [covers e x] tells whether that touches address [x]. *)
Definition covers (e : Z * list Z * SourceLine) (x : Z) : bool :=
  let '(lc, data, _) := e in
  (lc <=? x) && (x <? lc + Z.of_nat (List.length data)).

Definition is_resetvec (sl : SourceLine) : bool :=
  str_eqb (mn_upper sl) ".RESETVEC".

(** Two reset vectors and an instruction, located at 0x10. *)
Definition resetvec_first : SourceLine := line ".RESETVEC" ["0x1234"].
Definition resetvec_last : SourceLine := line ".RESETVEC" ["0x0200"].
Definition ret_line : SourceLine := line "RET" [].

Arguments pass1_step : simpl never.
Arguments pass2_step : simpl never.

Definition two_resetvecs : list (SourceLine * Z) :=
  [(resetvec_first, 0x10); (resetvec_last, 0x10); (ret_line, 0x10)].

(** Two bytes with a gap between them. *)
Definition gap_memory : gmap Z Z := {[ 0 := 0xAA; 4 := 0xBB ]}.

(** The mnemonics [instruction_size] and [encode_directive] treat as
    directives. *)
Definition directive_names : list string :=
  [".ORG"; ".EQU"; ".BYTE"; ".WORD"; ".RESETVEC"; "__LOADADDR_HI__"].

(** The files of a file system that are not on the include stack: what
    bounds the depth of the includes still to come. *)
Definition remaining (fs : file_system) (stack : list string) : nat :=
  size (dom (fs_files fs) ∖ (list_to_set stack : gset string)).

(** A result other than "the recursion did not finish". *)
Definition finished {A} (r : result A) : Prop := r <> Err OutOfFuel.

Definition quoted (s : string) : string :=
  String dquote "" +:+ s +:+ String dquote "".

(** Two files that include each other, and a file that includes itself. *)
Definition cyclic_files : file_system :=
  mkFS {[ "/p/a.asm" := ".include " +:+ quoted "sub/b.asm" +:+ nl +:+ "RET" +:+ nl;
          "/p/sub/b.asm" := ".include " +:+ quoted "../a.asm" +:+ nl;
          "/p/self.asm" := ".include " +:+ quoted "self.asm" +:+ nl;
          "/p/main.asm" := ".include " +:+ quoted "sub/leaf.asm" +:+ nl;
          "/p/sub/leaf.asm" := "RET" +:+ nl;
          "/p/lost.asm" := ".include " +:+ quoted "missing.asm" +:+ nl ]}
       "/p".

Arguments process_plain_line : simpl never.

(** ** Listing writer *)

Fixpoint repeat_char (c : ascii) (n : nat) : string :=
  match n with
  | O => EmptyString
  | S n' => String c (repeat_char c n')
  end.

(** [format(n, 'X')] for [n > 0]: the digits [hex] writes, in upper case. *)
Definition hex_upper (p : positive) : string :=
  upper (hex_digits_pos p EmptyString (Pos.to_nat (Pos.size p))).

(** [format(n, '0wX')]: zero-padded to width [w], the sign first. *)
Definition format_0X (w : nat) (n : Z) : string :=
  match n with
  | Z0 => repeat_char "0" (w - 1) +:+ "0"
  | Zpos p =>
      let d := hex_upper p in repeat_char "0" (w - String.length d) +:+ d
  | Zneg p =>
      let d := hex_upper p in
      "-" +:+ repeat_char "0" (w - 1 - String.length d) +:+ d
  end.

(** [format(s, '<w')] and [format(s, '>w')] *)
Definition ljust (w : nat) (s : string) : string :=
  s +:+ repeat_char " " (w - String.length s).

Definition rjust (w : nat) (s : string) : string :=
  repeat_char " " (w - String.length s) +:+ s.

(** [str(n)] for an [int]. *)
Fixpoint dec_digits_pos (p : positive) (acc : string) (fuel : nat) : string :=
  match fuel with
  | O => acc
  | S fuel' =>
      let q := Z.pos p / 10 in
      let acc' := String (hex_digit (Z.pos p mod 10)) acc in
      match q with
      | Z.pos p' => dec_digits_pos p' acc' fuel'
      | _ => acc'
      end
  end.

Definition py_str (n : Z) : string :=
  match n with
  | Z0 => "0"
  | Zpos p => dec_digits_pos p EmptyString (Pos.to_nat (Pos.size p))
  | Zneg p => "-" +:+ dec_digits_pos p EmptyString (Pos.to_nat (Pos.size p))
  end.

(** [sep.join(l)] *)
Fixpoint join_with (sep : string) (l : list string) : string :=
  match l with
  | [] => EmptyString
  | [x] => x
  | x :: rest => x +:+ sep +:+ join_with sep rest
  end.

(** [sorted(symbols.items())]: the names are distinct, so the order is
    that of the names, compared character code by character code. *)
Fixpoint insert_sorted (x : string * Z) (l : list (string * Z))
  : list (string * Z) :=
  match l with
  | [] => [x]
  | y :: rest =>
      if String.leb (fst x) (fst y) then x :: l else y :: insert_sorted x rest
  end.

Definition sorted_items (symbols : gmap string Z) : list (string * Z) :=
  foldr insert_sorted [] (map_to_list symbols).

Definition symbol_row (p : string * Z) : string :=
  ";   " +:+ ljust 24 (fst p) +:+ " = 0x" +:+ format_0X 4 (snd p)
  +:+ "  (" +:+ py_str (snd p) +:+ ")".

Definition listing_head : string :=
  rjust 6 "Addr" +:+ "  " +:+ ljust 12 "Bytes" +:+ "  Source".

Definition listing_row (e : Z * list Z * SourceLine) : string :=
  let '(addr, data, sl) := e in
  let hex_str := join_with " " (List.map (format_0X 2) data) in
  let src_txt := raw sl in
  "  " +:+ format_0X 4 addr +:+ "  " +:+ ljust 12 hex_str +:+ "  " +:+ src_txt.

(** The list [lines] that [write_listing] builds. *)
Definition listing_lines (listing : list (Z * list Z * SourceLine))
  (symbols : gmap string Z) (src_path : string) : list string :=
  ["; TMEPT Assembler listing"; "; Source: " +:+ src_path; ""]
  ++ (if decide (symbols = ∅) then []
      else ["; Symbols:"] ++ List.map symbol_row (sorted_items symbols) ++ [""])
  ++ [listing_head; repeat_char "-" 72]
  ++ List.map listing_row listing.

(** [write_listing(listing, symbols, out_path, src_path)]: the text
    written to the listing file. *)
Definition write_listing (listing : list (Z * list Z * SourceLine))
  (symbols : gmap string Z) (src_path : string) : string :=
  join_with nl (listing_lines listing symbols src_path) +:+ nl.

(** ** Vocabulary of the further properties *)

(** The label a line defines: [if sl.label] holds for a non-empty string. *)
Definition label_of (sl : SourceLine) : option string :=
  match label sl with
  | Some (String c l) => Some (String c l)
  | _ => None
  end.

(** The bytes pass 1 reserves for a run of lines. *)
Definition total_size (lines : list SourceLine) : Z :=
  foldr (fun sl acc => instruction_size sl ∅ + acc) 0 lines.

(** Whether a line is an [.equ] that pass 1 reads as a definition of [k]. *)
Definition equ_defines (k : string) (sl : SourceLine) : bool :=
  is_equ_line sl
  && match operands sl with
     | name :: _ => str_eqb name k
     | [] => false
     end.

(** A small program after pre-processing: a constant, two labels, a
    data directive. *)
Definition labelled (l : string) (sl : SourceLine) : SourceLine :=
  with_label sl (Some l).

Definition sample_add : SourceLine := labelled "start" (line "ADD" ["R1"; "#N"]).
Definition sample_jmp : SourceLine := line "JMP" ["R2"].
Definition sample_bytes : SourceLine := line ".BYTE" ["1"; "2"; "3"].
Definition sample_ret : SourceLine := labelled "done" (line "RET" []).

Definition sample_lines : list SourceLine :=
  [ line ".EQU" ["N"; "3"]; sample_add; sample_jmp; sample_bytes; sample_ret ].

(** What pass 1 makes of it. *)
Definition sample_symbols : gmap string Z :=
  list_to_map [("N", 3); ("start", 0); ("done", 8)].

Definition sample_located : list (SourceLine * Z) :=
  [ (sample_add, 0); (sample_jmp, 3); (sample_bytes, 5); (sample_ret, 8) ].

(** A value that fits a byte. *)
Definition byte_range (b : Z) : Prop := 0 <= b < 256.

(** The reset vector check of [main]:
    [0xFFFC not in memory or 0xFFFD not in memory]. *)
Definition reset_vector_missing (memory : gmap Z Z) : bool :=
  negb (bool_decide (0xFFFC ∈ dom memory))
  || negb (bool_decide (0xFFFD ∈ dom memory)).

(** The pair of [located] a listing record was made from. *)
Definition listed_line (e : Z * list Z * SourceLine) : SourceLine * Z :=
  (snd e, fst (fst e)).

(** The loop of [strip_comment], started with a given [in_str]. *)
Fixpoint strip_comment_from (in_str : bool) (s : string) : string :=
  match s with
  | EmptyString => EmptyString
  | String ch s' =>
      let in_str := if char_eqb ch dquote then negb in_str else in_str in
      if char_eqb ch ";" && negb in_str then EmptyString
      else String ch (strip_comment_from in_str s')
  end.

(** A character [split_operands] gives no meaning to: not a parenthesis
    and not a comma. *)
Definition plain_char (c : ascii) : bool :=
  negb (char_eqb c "(") && negb (char_eqb c ")") && negb (char_eqb c ",").

Definition no_paren (c : ascii) : bool :=
  negb (char_eqb c "(") && negb (char_eqb c ")").

(** Whether a string begins like an identifier. *)
Definition next_is_ident (s : string) : bool :=
  match s with
  | String c _ => is_ident_start c
  | EmptyString => false
  end.

(** [''.join(lines)] *)
Definition join_lines (lines : list string) : string :=
  foldr String.append "" lines.

(** A text whose only line ends are single newlines. *)
Definition lf_only (text : string) : bool :=
  all_chars (fun c => negb (is_linebreak c) || char_eqb c newline) text.

(** A name as the expression grammar has it: a letter or underscore,
    then word characters. *)
Definition is_identifier (s : string) : bool :=
  next_is_ident s && all_chars is_word s.

(** A source line that names a file of the file system and one of its
    lines. *)
Definition from_file (fs : file_system) (sl : SourceLine) : Prop :=
  exists text,
    fs_files fs !! filename sl = Some text
    /\ 1 <= lineno sl <= Z.of_nat (List.length (readlines text)).

(** A source line of the text [fn], after line [lo] and up to line [hi]. *)
Definition at_line (fn : string) (lo hi : Z) (sl : SourceLine) : Prop :=
  filename sl = fn /\ lo < lineno sl <= hi.

(** A raw line as [_process_lines] looks at it: without comment and
    surrounding white space. *)
Definition clean (raw : string) : string := strip (strip_comment raw).

Definition is_endm (raw : string) : bool := str_eqb (upper (clean raw)) ".ENDM".

(** What a macro body keeps of a run of raw lines. *)
Definition body_lines (raws : list string) : list string :=
  List.filter (fun l => negb (str_eqb l "")) (List.map clean raws).

(** The label of the invocation goes to the first line of an expansion. *)
Definition relabel (l : option string) (lines : list SourceLine)
  : list SourceLine :=
  match lines with
  | first :: rest => (if truthy l then with_label first l else first) :: rest
  | [] => []
  end.

(** A macro with two parameters, defined and used once. *)
Definition macro_program : string :=
  ".macro LDI \rd, val" +:+ nl +:+
  "  XOR \rd, \rd, \rd   ; clear" +:+ nl +:+
  "" +:+ nl +:+
  "  ADD \rd, #val" +:+ nl +:+
  ".endm" +:+ nl +:+
  "here: LDI R3, 0x42" +:+ nl.

Definition is_slash (c : ascii) : bool := char_eqb c "/".

(** * Properties *)

(** ** The result monad *)

Lemma bind_OK {A B} (r : result A) (k : A -> result B) (b : B) :
  bind r k = OK b -> exists a, r = OK a /\ k a = OK b.
Proof. destruct r as [a|e]; simpl; [eauto | discriminate]. Qed.

Lemma bind_Err {A B} (r : result A) (k : A -> result B) (e : error) :
  bind r k = Err e -> r = Err e \/ exists a, r = OK a /\ k a = Err e.
Proof. destruct r as [a|e']; simpl; [eauto | intros [= ->]; auto]. Qed.

(** ** Characters, digits, registers *)

Lemma in_range_spec lo hi c :
  in_range lo hi c = true <-> (lo <= code c <= hi)%N.
Proof. unfold in_range. rewrite andb_true_iff, !N.leb_le. tauto. Qed.

Lemma str_eqb_eq a b : str_eqb a b = true <-> a = b.
Proof. apply String.eqb_eq. Qed.

Lemma str_eqb_refl a : str_eqb a a = true.
Proof. apply String.eqb_refl. Qed.

Lemma digit_val_nonneg c : 0 <= digit_val c.
Proof.
  unfold digit_val.
  destruct (is_digit c) eqn:Hd.
  { apply in_range_spec in Hd. lia. }
  destruct (in_range 65 70 c) eqn:Hu.
  { apply in_range_spec in Hu. lia. }
  destruct (in_range 97 102 c) eqn:Hl.
  { apply in_range_spec in Hl. lia. }
  lia.
Qed.

Lemma int_of_digits_from_nonneg base acc s :
  0 <= base -> 0 <= acc -> 0 <= int_of_digits_from base acc s.
Proof.
  intros Hb. revert acc.
  induction s as [|c s IH]; intros acc Hacc; simpl; [exact Hacc|].
  apply IH. pose proof (digit_val_nonneg c). nia.
Qed.

Lemma parse_register_range tok n :
  parse_register tok = OK n -> 0 <= n <= 15.
Proof.
  unfold parse_register.
  destruct (register_syntax (strip tok)) as [ds|]; [|discriminate].
  destruct (15 <? int_of_digits 10 ds) eqn:Hlt; [discriminate|].
  intros [= <-]. apply Z.ltb_ge in Hlt.
  split; [|exact Hlt].
  apply int_of_digits_from_nonneg; lia.
Qed.

Lemma reg_in_regs n : 0 <= n <= 15 -> In n regs.
Proof.
  intros H. unfold regs. apply in_map_iff.
  exists (Z.to_nat n). split; [lia|].
  apply in_seq. lia.
Qed.

Lemma forall_regs (f : Z -> bool) :
  forallb f regs = true -> forall n, 0 <= n <= 15 -> f n = true.
Proof.
  intros H n Hn. rewrite forallb_forall in H. apply H, reg_in_regs, Hn.
Qed.

(** The second byte [(mode << 6) | (rd << 2)] is a byte whose bits 7:6
    are the mode. *)
Lemma mode_byte mode rd :
  In mode [0; 1; 2; 3] -> 0 <= rd <= 15 ->
  is_byte (Z.lor (Z.shiftl mode 6) (Z.shiftl rd 2)) = true /\
  mode_bits (Z.lor (Z.shiftl mode 6) (Z.shiftl rd 2)) = mode.
Proof.
  intros Hm Hrd.
  pose (f := fun m r =>
    is_byte (Z.lor (Z.shiftl m 6) (Z.shiftl r 2))
    && (mode_bits (Z.lor (Z.shiftl m 6) (Z.shiftl r 2)) =? m)).
  assert (f mode rd = true) as Hf.
  { simpl in Hm. destruct Hm as [<-|[<-|[<-|[<-|[]]]]];
      apply forall_regs; auto; vm_compute; reflexivity. }
  unfold f in Hf. apply andb_true_iff in Hf as [H1 H2].
  apply Z.eqb_eq in H2. auto.
Qed.

(** The third byte [(ra << 4) | rb] is a byte. *)
Lemma pair_byte ra rb :
  0 <= ra <= 15 -> 0 <= rb <= 15 -> is_byte (Z.lor (Z.shiftl ra 4) rb) = true.
Proof.
  intros Ha Hb.
  pose (f := fun a => forallb (fun b => is_byte (Z.lor (Z.shiftl a 4) b)) regs).
  assert (f ra = true) as Hf by (apply forall_regs; auto; vm_compute; reflexivity).
  unfold f in Hf. rewrite forallb_forall in Hf. apply Hf, reg_in_regs, Hb.
Qed.

Lemma land_255_byte v : is_byte (Z.land v 255) = true.
Proof.
  unfold is_byte. apply andb_true_iff; split.
  - apply Z.leb_le. apply Z.land_nonneg. right. lia.
  - apply Z.ltb_lt.
    assert (Z.land v 255 <= 255); [|lia].
    change 255 with (Z.ones 8). rewrite Z.land_ones by lia.
    pose proof (Z.mod_pos_bound v (2 ^ 8)). rewrite Z.ones_equiv. lia.
Qed.

Lemma py_bytes_OK l :
  forallb is_byte l = true -> py_bytes l = OK l.
Proof. intros H. unfold py_bytes. fold is_byte. rewrite H. reflexivity. Qed.

(** ** The opcode table *)

Lemma opcode_lookup_In mn opc enc :
  opcode_lookup mn = Some (opc, enc) -> In (mn, (opc, enc)) OPCODES.
Proof.
  unfold opcode_lookup. intros H.
  destruct (List.find _ OPCODES) as [[mn' x]|] eqn:Hf; [|discriminate].
  simpl in H. injection H as ->.
  apply List.find_some in Hf as [Hin Heq]. simpl in Heq.
  apply str_eqb_eq in Heq. subst. exact Hin.
Qed.

Lemma opcode_is_byte mn opc enc :
  opcode_lookup mn = Some (opc, enc) -> is_byte opc = true.
Proof.
  intros H. apply opcode_lookup_In in H.
  assert (forallb (fun p => is_byte (fst (snd p))) OPCODES = true) as Hall
    by (vm_compute; reflexivity).
  rewrite forallb_forall in Hall. apply (Hall _ H).
Qed.

(** ** The 3std encoder *)

(** Case analysis on the 256 characters. *)
Ltac by_cases_on_char c :=
  destruct c as [[] [] [] [] [] [] [] []]; cbv; intros H;
  first [discriminate H | auto].

Lemma upper_char_bracket_l c : upper_char c = "["%char -> c = "["%char.
Proof. by_cases_on_char c. Qed.
Lemma upper_char_bracket_r c : upper_char c = "]"%char -> c = "]"%char.
Proof. by_cases_on_char c. Qed.
Lemma upper_char_M c : upper_char c = "M"%char -> c = "M"%char \/ c = "m"%char.
Proof. by_cases_on_char c. Qed.
Lemma upper_char_A c : upper_char c = "A"%char -> c = "A"%char \/ c = "a"%char.
Proof. by_cases_on_char c. Qed.
Lemma upper_char_R c : upper_char c = "R"%char -> c = "R"%char \/ c = "r"%char.
Proof. by_cases_on_char c. Qed.

Lemma mov_mar_operand b :
  upper (strip b) = "[MAR]" ->
  register_syntax (strip (immediate_text b)) = None
  /\ forall symbols, eval_expr (immediate_text b) symbols = Err Unmodelled.
Proof.
  unfold immediate_text.
  destruct (strip b) as [|c0 [|c1 [|c2 [|c3 [|c4 [|c5 s]]]]]]; simpl upper;
    try discriminate.
  intros H. injection H as H0 H1 H2 H3 H4.
  apply upper_char_bracket_l in H0. apply upper_char_M in H1.
  apply upper_char_A in H2. apply upper_char_R in H3.
  apply upper_char_bracket_r in H4. subst c0 c4.
  destruct H1 as [-> | ->], H2 as [-> | ->], H3 as [-> | ->];
    (split; [reflexivity | intros symbols; reflexivity]).
Qed.

Lemma is_mov_mar_true mn a b :
  is_mov_mar mn [a; b] = true -> upper (strip b) = "[MAR]".
Proof.
  unfold is_mov_mar. intros H. apply andb_true_iff in H as [_ H].
  apply str_eqb_eq. exact H.
Qed.



Lemma single_operand_is_not_mov_mar mn ops :
  in_strings mn SINGLE_OPERAND = true -> is_mov_mar mn ops = false.
Proof.
  intros Hsingle. destruct (is_mov_mar mn ops) eqn:Hmov; [|reflexivity].
  unfold is_mov_mar in Hmov.
  destruct ops as [|a [|b [|c ops]]]; try discriminate.
  apply andb_true_iff in Hmov as [Hm _]. apply str_eqb_eq in Hm.
  rewrite Hm in Hsingle. vm_compute in Hsingle. discriminate.
Qed.

(** C1, as stated: the operand [#R2] does not match the register syntax,
    yet [ADD R1, #R2] is encoded in mode 01 with third byte
    [(1 << 4) | 2], not in mode 10 with the low byte of a value of [R2]:
    the operand is tested after its [#] is removed.  And [INV R1, R2, R3],
    three register operands of a mnemonic of the family, is refused
    instead of being encoded in mode 00. *)
Lemma hash_register_is_two_address :
  opcode_lookup (mn_upper add_hash_reg) = Some (0, E3std)
  /\ operands add_hash_reg = ["R1"; "#R2"]
  /\ register_syntax (strip "#R2") = None
  /\ encode_3std 0 add_hash_reg {[ "R2" := 7 ]} = OK [0; 0x44; 0x12; 0]
  /\ mode_bits 0x44 = 1
  /\ mode_bits 0x44 <> 2
  /\ opcode_lookup (mn_upper inv_three) = Some (0x12, E3std)
  /\ operands inv_three = ["R1"; "R2"; "R3"]
  /\ encode_3std 0x12 inv_three ∅ = Err (AsmError TakesOneOperand).
Proof.
  split; [reflexivity|]. split; [reflexivity|]. split; [reflexivity|].
  split; [vm_compute; reflexivity|]. split; [reflexivity|].
  split; [vm_compute; discriminate|]. split; [reflexivity|].
  split; [reflexivity|]. vm_compute. reflexivity.
Qed.

(** C1, amended: for an instruction of the 3std family the mode bits
    (bits 7:6 of the second emitted byte) follow the operand shape, the
    second of two operands being tested against the register syntax
    after an optional leading [#] is removed.  For a mnemonic outside the
    single-operand bit-manipulation set, [Rd, Rs1, Rs2] gives mode 00 and
    third byte [(Rs1 << 4) | Rs2]; [Rd, x], where [x] without its [#] has
    register syntax, gives mode 01 and third byte [(Rd << 4) | Rs]; [Rd,
    x], where [x] without its [#] has not, gives mode 10 and third byte
    [imm & 0xFF].  [MOV Rd, [MAR]] gives mode 11.  A single-operand
    bit-manipulation mnemonic with its one register operand gives mode
    01, and with any other number of operands it is refused. *)
Theorem encode_3std_mode_by_shape (opc : Z) (sl : SourceLine)
  (symbols : gmap string Z)
  (Hfam : opcode_lookup (mn_upper sl) = Some (opc, E3std)) :
  (* Rd, Rs1, Rs2 *)
  (forall a b c rd rs1 rs2,
     operands sl = [a; b; c] ->
     in_strings (mn_upper sl) SINGLE_OPERAND = false ->
     parse_register a = OK rd -> parse_register b = OK rs1 ->
     parse_register c = OK rs2 ->
     exists b1,
       encode_3std opc sl symbols = OK [opc; b1; Z.lor (Z.shiftl rs1 4) rs2; 0]
       /\ mode_bits b1 = 0) /\
  (* Rd, Rs *)
  (forall a b ds rd rs,
     operands sl = [a; b] ->
     in_strings (mn_upper sl) SINGLE_OPERAND = false ->
     register_syntax (strip (immediate_text b)) = Some ds ->
     parse_register a = OK rd -> parse_register (immediate_text b) = OK rs ->
     exists b1,
       encode_3std opc sl symbols = OK [opc; b1; Z.lor (Z.shiftl rd 4) rs; 0]
       /\ mode_bits b1 = 1) /\
  (* Rd, imm  and  Rd, #imm *)
  (forall a b rd imm,
     operands sl = [a; b] ->
     in_strings (mn_upper sl) SINGLE_OPERAND = false ->
     register_syntax (strip (immediate_text b)) = None ->
     parse_register a = OK rd -> eval_expr (immediate_text b) symbols = OK imm ->
     exists b1,
       encode_3std opc sl symbols = OK [opc; b1; Z.land imm 255; 0]
       /\ mode_bits b1 = 2) /\
  (* MOV Rd, [MAR] *)
  (forall a b rd,
     operands sl = [a; b] ->
     mn_upper sl = "MOV" -> upper (strip b) = "[MAR]" ->
     parse_register a = OK rd ->
     exists b1 b2,
       encode_3std opc sl symbols = OK [opc; b1; b2] /\ mode_bits b1 = 3) /\
  (* single-operand bit manipulation, Rd *)
  (forall a rd,
     operands sl = [a] ->
     in_strings (mn_upper sl) SINGLE_OPERAND = true ->
     parse_register a = OK rd ->
     exists b1,
       encode_3std opc sl symbols = OK [opc; b1; Z.shiftl rd 4; 0]
       /\ mode_bits b1 = 1) /\
  (* single-operand bit manipulation, any other operand count *)
  (in_strings (mn_upper sl) SINGLE_OPERAND = true ->
   List.length (operands sl) <> 1%nat ->
   encode_3std opc sl symbols = Err (AsmError TakesOneOperand)).
Proof.
  pose proof (opcode_is_byte _ _ _ Hfam) as Hopc.
  split; [|split; [|split; [|split; [|split]]]].
  - intros a b c rd rs1 rs2 Hops Hsingle Ha Hb Hc.
    pose proof (parse_register_range _ _ Ha) as Hrd.
    pose proof (parse_register_range _ _ Hb) as Hrs1.
    pose proof (parse_register_range _ _ Hc) as Hrs2.
    destruct (mode_byte 0 rd) as [Hbyte Hmode]; [simpl; auto | exact Hrd |].
    eexists; split; [|exact Hmode].
    unfold encode_3std. rewrite Hops, Hsingle. simpl.
    rewrite Ha, Hb, Hc. simpl.
    apply py_bytes_OK. simpl.
    rewrite Hopc, Hbyte, (pair_byte rs1 rs2 Hrs1 Hrs2). reflexivity.
  - intros a b ds rd rs Hops Hsingle Hsyn Ha Hb.
    assert (is_mov_mar (mn_upper sl) (operands sl) = false) as Hmov.
    { rewrite Hops. destruct (is_mov_mar _ _) eqn:Hmov; [|reflexivity].
      apply is_mov_mar_true, mov_mar_operand in Hmov as [Hnone _].
      congruence. }
    pose proof (parse_register_range _ _ Ha) as Hrd.
    pose proof (parse_register_range _ _ Hb) as Hrs.
    destruct (mode_byte 1 rd) as [Hbyte Hmode]; [simpl; auto | exact Hrd |].
    eexists; split; [|exact Hmode].
    unfold encode_3std. rewrite Hmov, Hops, Hsingle.
    simpl. rewrite Ha. simpl. rewrite Hsyn, Hb. simpl.
    apply py_bytes_OK. simpl.
    rewrite Hopc, Hbyte, (pair_byte rd rs Hrd Hrs). reflexivity.
  - intros a b rd imm Hops Hsingle Hsyn Ha Himm.
    assert (is_mov_mar (mn_upper sl) (operands sl) = false) as Hmov.
    { rewrite Hops. destruct (is_mov_mar _ _) eqn:Hmov; [|reflexivity].
      apply is_mov_mar_true, mov_mar_operand in Hmov as [_ Herr].
      rewrite Herr in Himm. discriminate. }
    pose proof (parse_register_range _ _ Ha) as Hrd.
    destruct (mode_byte 2 rd) as [Hbyte Hmode]; [simpl; auto | exact Hrd |].
    eexists; split; [|exact Hmode].
    unfold encode_3std. rewrite Hmov, Hops, Hsingle.
    simpl. rewrite Ha. simpl. rewrite Hsyn, Himm. simpl.
    apply py_bytes_OK. simpl.
    rewrite Hopc, Hbyte, (land_255_byte imm). reflexivity.
  - intros a b rd Hops Hmn Hmar Ha.
    pose proof (parse_register_range _ _ Ha) as Hrd.
    destruct (mode_byte 3 rd) as [Hbyte Hmode]; [simpl; auto | exact Hrd |].
    eexists; eexists; split; [|exact Hmode].
    unfold encode_3std, is_mov_mar. rewrite Hops, Hmn, Hmar. simpl.
    rewrite Ha. simpl.
    apply py_bytes_OK. simpl.
    rewrite Hopc, Hbyte. reflexivity.
  - intros a rd Hops Hsingle Ha.
    pose proof (parse_register_range _ _ Ha) as Hrd.
    destruct (mode_byte 1 rd) as [Hbyte Hmode]; [simpl; auto | exact Hrd |].
    eexists; split; [|exact Hmode].
    unfold encode_3std, is_mov_mar. rewrite Hops, Hsingle. simpl.
    rewrite Ha. simpl. rewrite Z.lor_0_r.
    apply py_bytes_OK. simpl.
    rewrite Hopc, Hbyte.
    pose proof (pair_byte rd 0 Hrd ltac:(lia)) as Hp.
    rewrite Z.lor_0_r in Hp. rewrite Hp. reflexivity.
  - intros Hsingle Hlen.
    unfold encode_3std.
    rewrite (single_operand_is_not_mov_mar _ (operands sl) Hsingle), Hsingle.
    destruct (operands sl) as [|a [|b ops]]; [reflexivity| |reflexivity].
    simpl in Hlen. congruence.
Qed.

(** The shapes at [ADD R1, R2, R3], [ADD R5, R6], [ADD R1, #R2],
    [ADD R2, #0x11], [ADD R2, 0x11], [MOV R4, [mar]], [INV R3] and
    [INV R1, R2, R3]. *)
Lemma encode_3std_mode_by_shape_witness :
  (exists b1, encode_3std 0 add_3addr ∅ = OK [0; b1; 0x23; 0] /\ mode_bits b1 = 0) /\
  (exists b1, encode_3std 0 add_2addr ∅ = OK [0; b1; 0x56; 0] /\ mode_bits b1 = 1) /\
  (exists b1, encode_3std 0 add_imm ∅ = OK [0; b1; 0x11; 0] /\ mode_bits b1 = 2) /\
  (exists b1, encode_3std 0 add_imm_bare ∅ = OK [0; b1; 0x11; 0] /\ mode_bits b1 = 2) /\
  (exists b1 b2, encode_3std 0x2D mov_mar ∅ = OK [0x2D; b1; b2] /\ mode_bits b1 = 3) /\
  (exists b1, encode_3std 0x12 inv_single ∅ = OK [0x12; b1; 0x30; 0] /\ mode_bits b1 = 1) /\
  (exists b1, encode_3std 0 add_hash_reg {[ "R2" := 7 ]} = OK [0; b1; 0x12; 0]
              /\ mode_bits b1 = 1) /\
  encode_3std 0x12 inv_three ∅ = Err (AsmError TakesOneOperand).
Proof.
  split; [|split; [|split; [|split; [|split; [|split; [|split]]]]]].
  - destruct (encode_3std_mode_by_shape 0 add_3addr ∅ eq_refl) as (H & _).
    exact (H "R1" "R2" "R3" 1 2 3 eq_refl eq_refl eq_refl eq_refl eq_refl).
  - destruct (encode_3std_mode_by_shape 0 add_2addr ∅ eq_refl) as (_ & H & _).
    exact (H "R5" "R6" "6" 5 6 eq_refl eq_refl eq_refl eq_refl eq_refl).
  - destruct (encode_3std_mode_by_shape 0 add_imm ∅ eq_refl) as (_ & _ & H & _).
    exact (H "R2" "#0x11" 2 0x11 eq_refl eq_refl eq_refl eq_refl eq_refl).
  - destruct (encode_3std_mode_by_shape 0 add_imm_bare ∅ eq_refl) as (_ & _ & H & _).
    exact (H "R2" "0x11" 2 0x11 eq_refl eq_refl eq_refl eq_refl eq_refl).
  - destruct (encode_3std_mode_by_shape 0x2D mov_mar ∅ eq_refl) as (_ & _ & _ & H & _).
    exact (H "R4" "[mar]" 4 eq_refl eq_refl eq_refl eq_refl).
  - destruct (encode_3std_mode_by_shape 0x12 inv_single ∅ eq_refl)
      as (_ & _ & _ & _ & H & _).
    exact (H "R3" 3 eq_refl eq_refl eq_refl).
  - destruct (encode_3std_mode_by_shape 0 add_hash_reg {[ "R2" := 7 ]} eq_refl)
      as (_ & H & _).
    exact (H "R1" "#R2" "2" 1 2 eq_refl eq_refl eq_refl eq_refl eq_refl).
  - destruct (encode_3std_mode_by_shape 0x12 inv_three ∅ eq_refl)
      as (_ & _ & _ & _ & _ & H).
    apply H; [reflexivity|]. simpl. discriminate.
Defined.

(** ** Floating-point division: the quotient of two integers

    [SFdiv] rounds the exact quotient to 53 bits.  For operands below
    [2^53] the rounded quotient has the same integer part as the exact
    one, so that [int(a / b)] is the quotient truncated toward zero. *)

Lemma digits2_pos_size p : digits2_pos p = Pos.size p.
Proof. induction p; simpl; congruence. Qed.

Lemma digits2_bounds p :
  2 ^ (Zpos (digits2_pos p) - 1) <= Zpos p < 2 ^ Zpos (digits2_pos p).
Proof.
  rewrite digits2_pos_size. split.
  - pose proof (Pos.size_le p) as H.
    apply Pos2Z.pos_le_pos in H. rewrite Pos2Z.inj_pow in H.
    replace (Zpos (Pos.size p)) with (Z.succ (Zpos (Pos.size p) - 1)) in H by lia.
    rewrite Z.pow_succ_r in H by lia. lia.
  - pose proof (Pos.size_gt p) as H.
    apply Pos2Z.pos_lt_pos in H. rewrite Pos2Z.inj_pow in H. exact H.
Qed.

Lemma digits2_of_bounds p n :
  2 ^ (n - 1) <= Zpos p < 2 ^ n -> Zpos (digits2_pos p) = n.
Proof.
  intros [Hlo Hhi]. destruct (digits2_bounds p) as [Hlo' Hhi'].
  set (d := Zpos (digits2_pos p)) in *.
  assert (0 < d) by (subst d; lia).
  assert (0 < n).
  { destruct (Z.lt_trichotomy n 0) as [Hn|[Hn|Hn]]; [|subst n; simpl in *; lia|lia].
    rewrite (Z.pow_neg_r 2 n) in Hhi by lia. lia. }
  destruct (Z.lt_trichotomy d n) as [Hlt|[Heq|Hgt]]; [|exact Heq|].
  - assert (2 ^ d <= 2 ^ (n - 1)) by (apply Z.pow_le_mono_r; lia). lia.
  - assert (2 ^ n <= 2 ^ (d - 1)) by (apply Z.pow_le_mono_r; lia). lia.
Qed.

Lemma shr_record_roundtrip m l :
  shr_m (shr_record_of_loc m l) = m
  /\ loc_of_shr_record (shr_record_of_loc m l) = l.
Proof. destruct l as [|[]]; simpl; auto. Qed.

Lemma trunc_mag_double m e : trunc_mag (2 * m) (e - 1) = trunc_mag m e.
Proof.
  unfold trunc_mag.
  destruct (0 <=? e) eqn:He; [apply Z.leb_le in He | apply Z.leb_gt in He].
  - destruct (0 <=? e - 1) eqn:He1; [apply Z.leb_le in He1 | apply Z.leb_gt in He1].
    + rewrite !Z.shiftl_mul_pow2 by lia.
      replace e with (Z.succ (e - 1)) at 2 by lia.
      rewrite Z.pow_succ_r by lia. lia.
    + assert (e = 0) as -> by lia. simpl Z.opp.
      rewrite Z.shiftl_0_r, Z.shiftr_div_pow2 by lia.
      change (2 ^ 1) with 2. rewrite Z.mul_comm. apply Z.div_mul. lia.
  - assert ((0 <=? e - 1) = false) as -> by (apply Z.leb_gt; lia).
    rewrite !Z.shiftr_div_pow2 by lia.
    replace (- (e - 1)) with (Z.succ (- e)) by lia.
    rewrite Z.pow_succ_r by lia.
    apply Z.div_mul_cancel_l; [|lia].
    apply Z.pow_nonzero; lia.
Qed.

Lemma shr_fexp_53 m e l :
  2 ^ 52 <= Zpos m < 2 ^ 53 -> -1074 <= e ->
  shr_fexp 53 1024 (Zpos m) e l = (shr_record_of_loc (Zpos m) l, e).
Proof.
  intros Hm He. unfold shr_fexp, fexp, emin. simpl Zdigits2.
  rewrite (digits2_of_bounds m 53) by exact Hm.
  replace (Z.sub (Z.max (Z.sub (Z.add 53 e) 53) (Z.sub (Z.sub 3 1024) 53)) e)
    with 0 by lia.
  reflexivity.
Qed.

Lemma shr_fexp_54 m e l :
  2 ^ 53 <= Zpos m < 2 ^ 54 -> -1074 <= e ->
  shr_fexp 53 1024 (Zpos m) e l = (shr_1 (shr_record_of_loc (Zpos m) l), e + 1).
Proof.
  intros Hm He. unfold shr_fexp, fexp, emin. simpl Zdigits2.
  rewrite (digits2_of_bounds m 54) by exact Hm.
  replace (Z.sub (Z.max (Z.sub (Z.add 54 e) 53) (Z.sub (Z.sub 3 1024) 53)) e)
    with 1 by lia.
  reflexivity.
Qed.

Lemma renormalize sx m1 e1 :
  2 ^ 52 <= m1 <= 2 ^ 53 -> -1074 <= e1 <= 901 ->
  exists m e2,
    (let '(mrs, e') := shr_fexp 53 1024 m1 e1 loc_Exact in
     match shr_m mrs with
     | Z0 => S754_zero sx
     | Zpos m => if Z.leb e' (Z.sub 1024 53) then S754_finite sx m e'
                 else S754_infinity sx
     | Zneg _ => S754_nan
     end) = S754_finite sx m e2
    /\ trunc_mag (Zpos m) e2 = trunc_mag m1 e1.
Proof.
  intros Hm He.
  destruct m1 as [|p|p]; try (exfalso; lia).
  destruct (Z.eq_dec (Zpos p) (2 ^ 53)) as [Heq|Hne].
  - rewrite shr_fexp_54 by lia.
    injection Heq as ->. cbn [shr_record_of_loc shr_1 shr_m].
    exists 4503599627370496%positive, (e1 + 1).
    assert ((e1 + 1 <=? 1024 - 53) = true) as -> by (apply Z.leb_le; lia).
    split; [reflexivity|].
    rewrite <- (trunc_mag_double (Zpos 4503599627370496) (e1 + 1)).
    f_equal. lia.
  - rewrite shr_fexp_53 by lia. cbn [shr_record_of_loc shr_m].
    exists p, e1.
    assert ((e1 <=? 1024 - 53) = true) as -> by (apply Z.leb_le; lia).
    split; reflexivity.
Qed.

Lemma shr_1_pos p r s :
  2 <= Zpos p ->
  shr_1 (Build_shr_record (Zpos p) r s)
  = Build_shr_record (Zpos p / 2) (Z.odd (Zpos p)) (r || s).
Proof.
  intros Hp. destruct p as [p|p|]; [| |lia]; unfold shr_1.
  - assert (Zpos p~1 / 2 = Zpos p) as ->
      by (symmetry; apply Z.div_unique with 1; lia).
    reflexivity.
  - assert (Zpos p~0 / 2 = Zpos p) as ->
      by (symmetry; apply Z.div_unique with 0; lia).
    reflexivity.
Qed.

Lemma binary_round_aux_value sx q e l :
  2 ^ 52 <= Zpos q < 2 ^ 54 -> -1074 <= e <= 900 ->
  exists m e2 m1 e1,
    binary_round_aux 53 1024 sx (Zpos q) e l = S754_finite sx m e2
    /\ trunc_mag (Zpos m) e2 = trunc_mag m1 e1
    /\ ((Zpos q < 2 ^ 53 /\ e1 = e /\ (m1 = Zpos q \/ m1 = Zpos q + 1))
        \/ (2 ^ 53 <= Zpos q /\ e1 = e + 1
            /\ (m1 = Zpos q / 2
                \/ (m1 = Zpos q / 2 + 1 /\ Z.odd (Zpos q) = true)))).
Proof.
  intros Hq He. unfold binary_round_aux.
  destruct (Z.lt_ge_cases (Zpos q) (2 ^ 53)) as [Hlt|Hge].
  - rewrite shr_fexp_53 by lia.
    destruct (shr_record_roundtrip (Zpos q) l) as [-> ->].
    set (m1 := round_nearest_even (Zpos q) l).
    assert (m1 = Zpos q \/ m1 = Zpos q + 1) as Hm1.
    { unfold m1, round_nearest_even.
      destruct l as [|[]]; auto. destruct (Z.even (Zpos q)); auto. }
    destruct (renormalize sx m1 e) as (m & e2 & Hr & Ht); [lia | lia |].
    exists m, e2, m1, e. split; [exact Hr|]. split; [exact Ht|].
    left. auto.
  - rewrite shr_fexp_54 by lia.
    assert (exists r s, shr_record_of_loc (Zpos q) l
                        = Build_shr_record (Zpos q) r s) as (r & s & ->).
    { destruct l as [|[]]; simpl; eauto. }
    rewrite shr_1_pos by lia. cbn [shr_m].
    set (lc := loc_of_shr_record _).
    set (m1 := round_nearest_even (Zpos q / 2) lc).
    assert (2 ^ 52 <= Zpos q / 2 < 2 ^ 53) as Hh.
    { split.
      - apply Z.div_le_lower_bound; lia.
      - apply Z.div_lt_upper_bound; lia. }
    assert (m1 = Zpos q / 2
            \/ (m1 = Zpos q / 2 + 1 /\ Z.odd (Zpos q) = true)) as Hm1.
    { unfold m1, round_nearest_even, lc, loc_of_shr_record.
      destruct (Z.odd (Zpos q)); destruct (r || s); auto.
      destruct (Z.even (Zpos q / 2)); auto. }
    destruct (renormalize sx m1 (e + 1)) as (m & e2 & Hr & Ht); [lia | lia |].
    exists m, e2, m1, (e + 1). split; [exact Hr|]. split; [exact Ht|].
    right. auto.
Qed.

Lemma trunc_mag_nonpos m e : e <= 0 -> trunc_mag m e = m / 2 ^ (- e).
Proof.
  intros He. unfold trunc_mag.
  destruct (0 <=? e) eqn:H0.
  - apply Z.leb_le in H0. assert (e = 0) as -> by lia.
    rewrite Z.shiftl_0_r. simpl. symmetry. apply Z.div_1_r.
  - apply Z.shiftr_div_pow2. lia.
Qed.

(** Rounding the scaled quotient up never reaches the next integer. *)
Lemma scaled_quotient mx my P q :
  0 < mx -> 0 < my < P -> q = (mx * P) / my ->
  q / P = mx / my /\ (q + 1) / P = mx / my.
Proof.
  intros Hmx Hmy ->.
  assert (mx * P / my / P = mx / my) as Hq.
  { rewrite Z.div_div by lia. apply Z.div_mul_cancel_r; lia. }
  split; [exact Hq|].
  set (q := mx * P / my) in *. set (k := mx / my) in *.
  assert (q * my <= mx * P < (q + 1) * my) as Hqm.
  { unfold q. pose proof (Z.mul_div_le (mx * P) my ltac:(lia)).
    pose proof (Z.mul_succ_div_gt (mx * P) my ltac:(lia)). lia. }
  assert (k * my <= mx < (k + 1) * my) as Hkm.
  { unfold k. pose proof (Z.mul_div_le mx my ltac:(lia)).
    pose proof (Z.mul_succ_div_gt mx my ltac:(lia)). lia. }
  assert (k * P <= q < (k + 1) * P) as Hkq.
  { rewrite <- Hq. pose proof (Z.mul_div_le q P ltac:(lia)).
    pose proof (Z.mul_succ_div_gt q P ltac:(lia)). lia. }
  symmetry. apply Z.div_unique with (q + 1 - k * P); [|lia].
  left. split; [lia|].
  destruct (Z.lt_ge_cases (q + 1) ((k + 1) * P)) as [Hlt|Hge]; [lia|].
  exfalso.
  assert (q + 1 = (k + 1) * P) as Heq by lia.
  assert (mx + 1 <= (k + 1) * my) as H1 by lia.
  assert ((mx + 1) * P <= (k + 1) * my * P) as H2 by nia.
  assert ((k + 1) * P * my <= mx * P + my) as H3 by nia.
  nia.
Qed.

Lemma digits2_le_53 m : Zpos m < 2 ^ 53 -> 1 <= Zpos (digits2_pos m) <= 53.
Proof.
  intros Hm. destruct (digits2_bounds m) as [Hlo _].
  split; [lia|].
  destruct (Z.le_gt_cases (Zpos (digits2_pos m)) 53) as [H|H]; [exact H|].
  assert (2 ^ 53 <= 2 ^ (Zpos (digits2_pos m) - 1))
    by (apply Z.pow_le_mono_r; lia).
  lia.
Qed.

Lemma SFdiv_core_value mx my :
  Zpos mx < 2 ^ 53 -> Zpos my < 2 ^ 53 ->
  let s := 53 + Zpos (digits2_pos my) - Zpos (digits2_pos mx) in
  exists l,
    SFdiv_core_binary 53 1024 (Zpos mx) 0 (Zpos my) 0
    = (Zpos mx * 2 ^ s / Zpos my, - s, l).
Proof.
  intros Hmx Hmy s.
  pose proof (digits2_le_53 mx Hmx) as Hd1.
  pose proof (digits2_le_53 my Hmy) as Hd2.
  unfold SFdiv_core_binary. cbv zeta. simpl Zdigits2.
  set (e' := Z.min _ _).
  assert (e' = - s) as He'.
  { unfold e', fexp, emin, s. lia. }
  clearbody e'. subst e'.
  replace (Z.sub (Z.sub 0 0) (- s)) with s by lia.
  assert (0 < s) as Hs by (unfold s; lia).
  destruct s as [|ps|ps] eqn:Hseq; try lia.
  rewrite Z.shiftl_mul_pow2 by lia.
  unfold Z.div.
  destruct (Z.div_eucl (Zpos mx * 2 ^ Zpos ps) (Zpos my)) as [q r].
  eexists. reflexivity.
Qed.

Lemma true_divide_finite sx sy mx my :
  Zpos mx < 2 ^ 53 -> Zpos my < 2 ^ 53 ->
  exists m e,
    SFdiv 53 1024 (S754_finite sx mx 0) (S754_finite sy my 0)
    = S754_finite (xorb sx sy) m e
    /\ trunc_mag (Zpos m) e = Zpos mx / Zpos my.
Proof.
  intros Hmx Hmy.
  pose proof (digits2_le_53 mx Hmx) as Hd1.
  pose proof (digits2_le_53 my Hmy) as Hd2.
  destruct (digits2_bounds mx) as [Hlo1 Hhi1].
  destruct (digits2_bounds my) as [Hlo2 Hhi2].
  destruct (SFdiv_core_value mx my Hmx Hmy) as (l & Hcore).
  set (d1 := Zpos (digits2_pos mx)) in *.
  set (d2 := Zpos (digits2_pos my)) in *.
  set (s := 53 + d2 - d1) in *.
  set (P := 2 ^ s) in *.
  set (A := 2 ^ (d1 - 1)) in *.
  set (B := 2 ^ (d2 - 1)) in *.
  assert (2 ^ d1 = 2 * A) as HA.
  { unfold A. replace d1 with (Z.succ (d1 - 1)) at 1 by lia.
    apply Z.pow_succ_r. lia. }
  assert (2 ^ d2 = 2 * B) as HB.
  { unfold B. replace d2 with (Z.succ (d2 - 1)) at 1 by lia.
    apply Z.pow_succ_r. lia. }
  assert (P * A = 2 ^ 53 * B) as HPA.
  { unfold P, A, B, s. rewrite <- !Z.pow_add_r by lia. f_equal. lia. }
  assert (A <= 2 ^ 52) as HA52.
  { unfold A. apply Z.pow_le_mono_r; lia. }
  assert (0 < A) as HApos by (unfold A; apply Z.pow_pos_nonneg; lia).
  assert (0 < B) as HBpos by (unfold B; apply Z.pow_pos_nonneg; lia).
  assert (0 < P) as HPpos by (unfold P; apply Z.pow_pos_nonneg; lia).
  rewrite HA in Hhi1. rewrite HB in Hhi2.
  assert (Zpos my < P) as HmyP by nia.
  set (q := Zpos mx * P / Zpos my) in *.
  assert (2 ^ 52 <= q < 2 ^ 54) as Hq.
  { unfold q. split.
    - apply Z.div_le_lower_bound; [lia|]. nia.
    - apply Z.div_lt_upper_bound; [lia|]. nia. }
  destruct (scaled_quotient (Zpos mx) (Zpos my) P q ltac:(lia) ltac:(lia) eq_refl)
    as [Hq0 Hq1].
  unfold SFdiv. rewrite Hcore.
  destruct q as [|pq|pq] eqn:Hqeq; try lia.
  destruct (binary_round_aux_value (xorb sx sy) pq (- s) l)
    as (m & e2 & m1 & e1 & Hr & Ht & Hcases); [lia | lia |].
  exists m, e2. split; [exact Hr|]. rewrite Ht.
  destruct Hcases as [(_ & -> & Hm1)|(_ & -> & Hm1)].
  - rewrite trunc_mag_nonpos by lia. rewrite Z.opp_involutive. fold P.
    destruct Hm1 as [->| ->]; assumption.
  - rewrite trunc_mag_nonpos by lia.
    replace (- (- s + 1)) with (s - 1) by lia.
    assert (P = 2 * 2 ^ (s - 1)) as HP2.
    { unfold P. replace s with (Z.succ (s - 1)) at 1 by lia.
      apply Z.pow_succ_r. lia. }
    assert (0 < 2 ^ (s - 1)) by (apply Z.pow_pos_nonneg; lia).
    destruct Hm1 as [->|[-> Hodd]].
    + rewrite Z.div_div by lia. rewrite <- HP2. exact Hq0.
    + assert (Zpos pq / 2 + 1 = (Zpos pq + 1) / 2) as ->.
      { pose proof (Z.div_mod (Zpos pq) 2 ltac:(lia)) as Hdm.
        rewrite Zmod_odd, Hodd in Hdm.
        apply Z.div_unique with 0; lia. }
      rewrite Z.div_div by lia. rewrite <- HP2. exact Hq1.
Qed.

Lemma int_true_divide_quot a b :
  b <> 0 -> Z.abs a < 2 ^ 53 -> Z.abs b < 2 ^ 53 ->
  exists f, int_true_divide a b = OK (PFloat f)
            /\ int_of_float f = OK (Z.quot a b).
Proof.
  intros Hb Ha Hbb. unfold int_true_divide, prec64, emax64.
  destruct (b =? 0) eqn:Hb0; [apply Z.eqb_eq in Hb0; contradiction|].
  destruct a as [|mx|mx], b as [|my|my]; try contradiction; simpl raw_float.
  - exists (S754_zero false). split; reflexivity.
  - exists (S754_zero true). split; reflexivity.
  - destruct (true_divide_finite false false mx my) as (m & e & -> & Ht);
      [lia | lia |].
    eexists. split; [reflexivity|]. simpl. rewrite Ht.
    rewrite Z.quot_div_nonneg by lia. reflexivity.
  - destruct (true_divide_finite false true mx my) as (m & e & -> & Ht);
      [lia | lia |].
    eexists. split; [reflexivity|]. simpl. rewrite Ht.
    change (Z.neg my) with (- Zpos my). rewrite Z.quot_opp_r by lia.
    rewrite Z.quot_div_nonneg by lia. reflexivity.
  - destruct (true_divide_finite true false mx my) as (m & e & -> & Ht);
      [lia | lia |].
    eexists. split; [reflexivity|]. simpl. rewrite Ht.
    change (Z.neg mx) with (- Zpos mx). rewrite Z.quot_opp_l by lia.
    rewrite Z.quot_div_nonneg by lia. reflexivity.
  - destruct (true_divide_finite true true mx my) as (m & e & -> & Ht);
      [lia | lia |].
    eexists. split; [reflexivity|]. simpl. rewrite Ht.
    change (Z.neg mx) with (- Zpos mx). change (Z.neg my) with (- Zpos my).
    rewrite Z.quot_opp_opp by lia.
    rewrite Z.quot_div_nonneg by lia. reflexivity.
Qed.

(** ** The expression evaluator *)

(** C6, as stated: [(7/2)*2] does not evaluate to what a truncated
    quotient would contribute, [(7 quot 2) * 2 = 6]; it evaluates to 7. *)
Lemma nested_quotient_not_truncated :
  eval_expr "(7/2)*2" ∅ = OK 7 /\ eval_expr "(7/2)*2" ∅ <> OK (Z.quot 7 2 * 2).
Proof.
  split; [vm_compute; reflexivity|].
  vm_compute. discriminate.
Qed.

(** C6, amended: [/] is true division.  The quotient of two integers is
    a floating-point number, which the surrounding computation uses as it
    is; the truncation toward zero happens once, when the value of the
    whole expression is converted to an integer.  So an expression that
    is a quotient [x / y] of integers (below [2^53] in magnitude, [y]
    nonzero) evaluates to the quotient truncated toward zero, as [7/2] to
    3 and [-7/2] to -3, while [(7/2)*2] evaluates to 7. *)
Theorem division_truncates_at_the_end :
  (forall ns x y a b,
     eval_ast ns x = OK (PInt a) -> eval_ast ns y = OK (PInt b) ->
     b <> 0 -> Z.abs a < 2 ^ 53 -> Z.abs b < 2 ^ 53 ->
     exists f, eval_ast ns (EBin TrueDiv x y) = OK (PFloat f)
               /\ py_int (PFloat f) = OK (Z.quot a b)) /\
  (forall expr_str symbols x y a b,
     py_parse (expression_text expr_str) = OK (EBin TrueDiv x y) ->
     eval_ast symbols x = OK (PInt a) -> eval_ast symbols y = OK (PInt b) ->
     b <> 0 -> Z.abs a < 2 ^ 53 -> Z.abs b < 2 ^ 53 ->
     eval_expr expr_str symbols = OK (Z.quot a b)) /\
  eval_expr "7/2" ∅ = OK 3 /\
  eval_expr "-7/2" ∅ = OK (-3) /\
  eval_expr "(7/2)*2" ∅ = OK 7.
Proof.
  assert (forall ns x y a b,
     eval_ast ns x = OK (PInt a) -> eval_ast ns y = OK (PInt b) ->
     b <> 0 -> Z.abs a < 2 ^ 53 -> Z.abs b < 2 ^ 53 ->
     exists f, eval_ast ns (EBin TrueDiv x y) = OK (PFloat f)
               /\ py_int (PFloat f) = OK (Z.quot a b)) as Hast.
  { intros ns x y a b Hx Hy Hb Ha Hbb.
    destruct (int_true_divide_quot a b Hb Ha Hbb) as (f & Hdiv & Hint).
    exists f. split; [|exact Hint].
    simpl. rewrite Hx, Hy. simpl. exact Hdiv. }
  split; [exact Hast|]. split.
  - intros expr_str symbols x y a b Hparse Hx Hy Hb Ha Hbb.
    destruct (Hast symbols x y a b Hx Hy Hb Ha Hbb) as (f & Hev & Hint).
    unfold eval_expr, py_eval. rewrite Hparse.
    cbn [bind]. rewrite Hev. cbn [bind]. rewrite Hint. reflexivity.
  - repeat split; vm_compute; reflexivity.
Qed.

(** The quotient clauses at [7/2] and at [-7/2]. *)
Lemma division_truncates_at_the_end_witness :
  eval_expr "7/2" ∅ = OK (Z.quot 7 2)
  /\ eval_expr "-7/2" ∅ = OK (Z.quot (-7) 2)
  /\ exists f, eval_ast ∅ (EBin TrueDiv (ENum 7) (ENum 2)) = OK (PFloat f)
               /\ py_int (PFloat f) = OK (Z.quot 7 2).
Proof.
  destruct division_truncates_at_the_end as (Hast & Htext & _).
  split; [|split].
  - apply (Htext "7/2" ∅ (ENum 7) (ENum 2) 7 2); try reflexivity.
    discriminate.
  - apply (Htext "-7/2" ∅ (EUn Neg (ENum 7)) (ENum 2) (-7) 2); try reflexivity.
    discriminate.
  - apply (Hast ∅ (ENum 7) (ENum 2) 7 2); try reflexivity.
    discriminate.
Defined.

(** ** Scenarios *)

(** C2, as listed: the memory map of the scenario is not the listed one
    (address 6 holds 0x84, and address 8 is written too). *)
Lemma forward_lmar_not_as_listed :
  ~ (exists st, asm forward_lmar_program ∅ = OK st
                /\ p2_memory st = forward_lmar_listed).
Proof.
  intros (st & Hasm & Hmem).
  vm_compute in Hasm. injection Hasm as <-.
  apply (f_equal (fun m => m !! 6)) in Hmem.
  vm_compute in Hmem. discriminate.
Qed.

(** C2, amended: assembling [.org 0; LMAR target; RET; target: ADD R1,#0]
    binds [target] to 5 and produces exactly the bytes
    2E 00 05 3E 00 00 84 00 00 at addresses 0 to 8 (the ninth is the pad
    byte of [ADD]), and no byte at any other address. *)
Theorem forward_lmar_bytes :
  exists st, asm forward_lmar_program ∅ = OK st
             /\ p2_symbols st !! "target" = Some 5
             /\ p2_memory st = forward_lmar_memory.
Proof.
  eexists. split; [vm_compute; reflexivity|].
  split; vm_compute; reflexivity.
Qed.

(** C3, at [.equ X, later / ADD R1, #X / later: RET]: pass 1 leaves [X]
    unbound and hands no [.equ] line to pass 2, which therefore does not
    evaluate it again; the instruction that uses [X] fails. *)
Theorem deferred_equ_never_resolved :
  exists pp lines symbols located,
    process_string no_files 0 deferred_equ_program "<string>" (Preprocessor ∅)
      = OK (pp, lines)
    /\ pass1 lines ∅ = OK (symbols, located)
    /\ symbols !! "X" = None
    /\ symbols !! "later" = Some 3
    /\ forallb (fun p => negb (is_equ_line (fst p))) located = true
    /\ asm deferred_equ_program ∅ = Err (AsmError CannotEvaluate).
Proof.
  do 4 eexists.
  split; [vm_compute; reflexivity|].
  split; [vm_compute; reflexivity|].
  repeat split; vm_compute; reflexivity.
Qed.

(** C5, at [.org later / RET / later: RET]: pass 1 keeps the location
    counter at 0, pass 2 never sees the [.org] line, and the program
    assembles without an error. *)
Theorem forward_org_assembles :
  exists st, asm forward_org_program ∅ = OK st
             /\ p2_symbols st !! "later" = Some 2
             /\ p2_memory st = forward_org_memory.
Proof.
  eexists. split; [vm_compute; reflexivity|].
  split; vm_compute; reflexivity.
Qed.

(** ** Pass 1: what it binds and what it hands to pass 2 *)

Lemma truthy_false_mn_upper sl :
  truthy (mnemonic sl) = false -> mn_upper sl = "".
Proof.
  unfold mn_upper. destruct (mnemonic sl) as [[|c m]|]; simpl; congruence.
Qed.

Lemma pass1_step_inv frozen st sl st' :
  pass1_step frozen st sl = OK st' ->
  (forall k v, k ∈ frozen -> p1_symbols st !! k = Some v ->
               p1_symbols st' !! k = Some v) /\
  (exists extra, p1_located st' = p1_located st ++ extra
                 /\ Forall (fun p => not_org_equ (fst p) = true) extra).
Proof.
  destruct st as [symbols located lc]. unfold pass1_step.
  intros H. inv_bind H.
  assert (forall k v, symbols !! k = Some v -> x !! k = Some v) as Hlabel.
  { intros k v Hk.
    destruct (label sl) as [l|]; [|injection Hx as <-; exact Hk].
    destruct (truthy (Some l)); [|injection Hx as <-; exact Hk].
    destruct (bool_decide (l ∈ dom symbols)) eqn:Hin; [discriminate|].
    injection Hx as <-.
    apply bool_decide_eq_false in Hin.
    rewrite lookup_insert_ne; [exact Hk|].
    intros ->. apply Hin. apply elem_of_dom. eauto. }
  clear Hx.
  destruct (truthy (mnemonic sl)) eqn:Htr.
  - destruct (str_eqb (mn_upper sl) ".ORG") eqn:Horg.
    { destruct (operands sl) as [|op0 ops]; [discriminate|].
      inv_bind H. injection H as <-. simpl.
      split; [auto|]. exists []. rewrite app_nil_r. auto. }
    destruct (str_eqb (mn_upper sl) ".EQU") eqn:Hequ.
    { destruct (operands sl) as [|name [|op1 ops]]; try discriminate.
      destruct (bool_decide (name ∈ frozen)) eqn:Hfr.
      { injection H as <-. simpl. split; [auto|].
        exists []. rewrite app_nil_r. auto. }
      apply bool_decide_eq_false in Hfr.
      inv_bind H. injection H as <-. simpl.
      split; [|exists []; rewrite app_nil_r; auto].
      intros k v Hk Hv. apply Hlabel in Hv.
      match goal with
      | Hc : catch_asm _ _ = OK _ |- _ =>
          destruct (eval_expr op1 x) as [val|[m| | |]]; simpl in Hc;
            try discriminate; injection Hc as <-; try exact Hv
      end.
      rewrite lookup_insert_ne; [exact Hv|]. intros ->. auto. }
    injection H as <-. simpl. split; [auto|].
    exists [(sl, lc)]. split; [reflexivity|].
    constructor; [|constructor]. simpl. unfold not_org_equ.
    rewrite Horg, Hequ. reflexivity.
  - injection H as <-. simpl. split; [auto|].
    exists [(sl, lc)]. split; [reflexivity|].
    constructor; [|constructor]. simpl. unfold not_org_equ.
    rewrite (truthy_false_mn_upper _ Htr). reflexivity.
Qed.

Lemma pass1_loop_inv frozen lines : forall st st',
  pass1_loop frozen st lines = OK st' ->
  (forall k v, k ∈ frozen -> p1_symbols st !! k = Some v ->
               p1_symbols st' !! k = Some v) /\
  (exists extra, p1_located st' = p1_located st ++ extra
                 /\ Forall (fun p => not_org_equ (fst p) = true) extra).
Proof.
  induction lines as [|sl rest IH]; intros st st' H; simpl in H.
  - injection H as <-. split; [auto|]. exists []. rewrite app_nil_r. auto.
  - inv_bind H.
    apply pass1_step_inv in Hx as (Hk1 & ex1 & Hl1 & Hf1).
    apply IH in H as (Hk2 & ex2 & Hl2 & Hf2).
    split; [auto|].
    exists (ex1 ++ ex2). rewrite Hl2, Hl1, <- app_assoc.
    split; [reflexivity|]. apply Forall_app; auto.
Qed.

(** Pass 1 keeps every predefine and never locates an [.org] or [.equ]
    line. *)
Lemma pass1_inv lines predefined symbols located :
  pass1 lines predefined = OK (symbols, located) ->
  (forall k v, predefined !! k = Some v -> symbols !! k = Some v) /\
  Forall (fun p => not_org_equ (fst p) = true) located.
Proof.
  unfold pass1. intros H. inv_bind H. injection H as <- <-.
  apply pass1_loop_inv in Hx as (Hk & extra & Hl & Hf). simpl in *.
  split.
  - intros k v Hkv. apply Hk; [|exact Hkv]. apply elem_of_dom. eauto.
  - rewrite Hl. exact Hf.
Qed.

(** ** Pass 2 on the lines pass 1 locates: the symbol table is read only *)

Lemma not_org_equ_spec sl :
  not_org_equ sl = true ->
  str_eqb (mn_upper sl) ".ORG" = false /\ str_eqb (mn_upper sl) ".EQU" = false.
Proof.
  unfold not_org_equ. rewrite andb_true_iff, !negb_true_iff. tauto.
Qed.

Lemma not_org_equ_is_equ_line sl :
  not_org_equ sl = true -> is_equ_line sl = false.
Proof.
  intros H. apply not_org_equ_spec in H as [_ H].
  unfold is_equ_line. rewrite H, andb_false_r. reflexivity.
Qed.

Lemma resolve_equs_no_equ predefined symbols located :
  Forall (fun p => not_org_equ (fst p) = true) located ->
  resolve_equs predefined symbols located = OK symbols.
Proof.
  induction 1 as [|[sl a] rest Hsl _ IH]; simpl; [reflexivity|].
  simpl in Hsl. rewrite (not_org_equ_is_equ_line _ Hsl). exact IH.
Qed.

Lemma encode_directive_symbols sl symbols memory d :
  not_org_equ sl = true ->
  encode_directive sl symbols memory = OK d -> dir_symbols d = symbols.
Proof.
  intros Hsl H. apply not_org_equ_spec in Hsl as [Horg Hequ].
  unfold encode_directive in H. rewrite Horg, Hequ in H.
  repeat match type of H with
         | (if ?c then _ else _) = _ => destruct c
         | bind _ _ = OK _ => inv_bind H
         | match ?l with [] => _ | _ :: _ => _ end = _ => destruct l
         | OK _ = OK _ => injection H as <-
         | Err _ = OK _ => discriminate H
         end; reflexivity.
Qed.

Lemma pass2_step_symbols st sl a st' :
  not_org_equ sl = true ->
  pass2_step st (sl, a) = OK st' -> p2_symbols st' = p2_symbols st.
Proof.
  intros Hsl H. destruct st as [symbols memory listing].
  unfold pass2_step in H.
  destruct (mnemonic sl); [|injection H as <-; reflexivity].
  inv_bind H. apply (encode_directive_symbols _ _ _ _ Hsl) in Hx.
  destruct (dir_data x); [injection H as <-; exact Hx|].
  destruct (opcode_lookup (mn_upper sl)) as [[opc enc]|]; [|discriminate].
  inv_bind H. injection H as <-. exact Hx.
Qed.

Lemma pass2_loop_symbols located : forall st st',
  Forall (fun p => not_org_equ (fst p) = true) located ->
  pass2_loop st located = OK st' -> p2_symbols st' = p2_symbols st.
Proof.
  induction located as [|[sl a] rest IH]; intros st st' Hall H; simpl in H.
  - injection H as <-. reflexivity.
  - inv_bind H. inversion Hall as [|? ? Hsl Hrest]; subst. simpl in Hsl.
    rewrite (IH _ _ Hrest H). exact (pass2_step_symbols _ _ _ _ Hsl Hx).
Qed.

Lemma pass1_loop_app frozen l1 l2 : forall st,
  pass1_loop frozen st (l1 ++ l2)
  = bind (pass1_loop frozen st l1) (fun st' => pass1_loop frozen st' l2).
Proof.
  induction l1 as [|sl l1 IH]; intros st; simpl; [reflexivity|].
  destruct (pass1_step frozen st sl) as [st'|e]; simpl; [apply IH | reflexivity].
Qed.

Lemma pass2_loop_app l1 l2 : forall st,
  pass2_loop st (l1 ++ l2)
  = bind (pass2_loop st l1) (fun st' => pass2_loop st' l2).
Proof.
  induction l1 as [|p l1 IH]; intros st; simpl; [reflexivity|].
  destruct (pass2_step st p) as [st'|e]; simpl; [apply IH | reflexivity].
Qed.

Lemma assemble_symbols lines predefines seed st :
  assemble lines predefines seed = OK st ->
  exists symbols located,
    pass1 lines predefines = OK (symbols, located)
    /\ p2_symbols st = symbols ∪ seed.
Proof.
  unfold assemble. intros H. inv_bind H. destruct x as [symbols located].
  exists symbols, located. split; [reflexivity|].
  destruct (pass1_inv _ _ _ _ Hx) as [_ Hloc].
  unfold pass2 in H. rewrite (resolve_equs_no_equ _ _ _ Hloc) in H. simpl in H.
  apply (pass2_loop_symbols _ _ _ Hloc) in H. exact H.
Qed.

(** ** Predefines *)

(** C7: a predefine [k = v] keeps its value: in the symbol table the
    assembly ends with, and in the table every step of the encoding loop
    reads; an [.equ] (which is what [NAME = expr] is rewritten to) of the
    same name leaves the state of pass 1 as it is; a label of the same
    name makes pass 1 fail, with "Duplicate label" when the lines before
    it were accepted. *)
Theorem predefines_are_frozen (predefines : gmap string Z) (k : string) (v : Z)
  (Hk : predefines !! k = Some v) :
  (forall lines seed st,
     assemble lines predefines seed = OK st -> p2_symbols st !! k = Some v) /\
  (forall src st,
     asm src predefines = OK st -> p2_symbols st !! k = Some v) /\
  (forall lines seed symbols located pre post st1,
     pass1 lines predefines = OK (symbols, located) ->
     located = pre ++ post ->
     pass2_loop (mkP2 (symbols ∪ seed) ∅ []) pre = OK st1 ->
     p2_symbols st1 !! k = Some v) /\
  (forall st sl e rest,
     truthy (mnemonic sl) = true -> mn_upper sl = ".EQU" ->
     label sl = None -> operands sl = k :: e :: rest ->
     pass1_step (dom predefines) st sl = OK st) /\
  (forall pre sl post,
     label sl = Some k -> k <> "" ->
     exists e,
       pass1 (pre ++ sl :: post) predefines = Err e
       /\ (forall st1,
             pass1_loop (dom predefines) (mkP1 predefines [] 0) pre = OK st1 ->
             e = AsmError DuplicateLabel)).
Proof.
  assert (forall lines seed st,
            assemble lines predefines seed = OK st ->
            p2_symbols st !! k = Some v) as Hassemble.
  { intros lines seed st H.
    apply assemble_symbols in H as (symbols & located & Hp1 & ->).
    apply pass1_inv in Hp1 as [Hkeep _].
    apply lookup_union_Some_l. apply Hkeep, Hk. }
  split; [exact Hassemble|]. split; [|split; [|split]].
  - intros src st H. unfold asm in H. inv_bind H. destruct x as [pp lines].
    exact (Hassemble _ _ _ H).
  - intros lines seed symbols located pre post st1 Hp1 -> Hloop.
    apply pass1_inv in Hp1 as [Hkeep Hloc].
    apply Forall_app in Hloc as [Hpre _].
    rewrite (pass2_loop_symbols _ _ _ Hpre Hloop). simpl.
    apply lookup_union_Some_l. apply Hkeep, Hk.
  - intros st sl e rest Htr Hmn Hlabel Hops.
    destruct st as [symbols located lc]. unfold pass1_step.
    rewrite Hlabel, Htr, Hmn, Hops. simpl.
    rewrite bool_decide_eq_true_2; [reflexivity|].
    apply elem_of_dom. eauto.
  - intros pre sl post Hlabel Hne.
    unfold pass1. rewrite pass1_loop_app.
    destruct (pass1_loop (dom predefines) (mkP1 predefines [] 0) pre)
      as [st1|e] eqn:Hpre; simpl.
    + exists (AsmError DuplicateLabel). split; [|reflexivity].
      apply pass1_loop_inv in Hpre as [Hkeep _].
      assert (p1_symbols st1 !! k = Some v) as Hk1.
      { apply Hkeep; [apply elem_of_dom; eauto | exact Hk]. }
      destruct st1 as [symbols located lc]. simpl in Hk1.
      unfold pass1_step. rewrite Hlabel.
      destruct k as [|c k']; [congruence|]. simpl.
      rewrite bool_decide_eq_true_2; [reflexivity|].
      apply elem_of_dom. eauto.
    + exists e. split; [reflexivity|]. intros st1 [=].
Qed.

(** With [X = 99] predefined, [.equ X, 10 / X = 11 / ADD R1, #X] ends
    with [X = 99] and encodes the immediate 99. *)
Lemma predefines_are_frozen_witness :
  predefine_X !! "X" = Some 99 /\
  exists st, asm override_program predefine_X = OK st
             /\ p2_symbols st !! "X" = Some 99
             /\ p2_memory st !! 2 = Some 99.
Proof.
  split; [reflexivity|].
  destruct (asm override_program predefine_X) as [st|e] eqn:Hasm;
    [|vm_compute in Hasm; discriminate Hasm].
  exists st. split; [reflexivity|]. split.
  - destruct (predefines_are_frozen predefine_X "X" 99 eq_refl) as (_ & H & _).
    exact (H override_program st Hasm).
  - vm_compute in Hasm. injection Hasm as <-. vm_compute. reflexivity.
Defined.

(** ** Memory writes *)

Lemma store_bytes_outside data : forall memory lc x,
  x < lc \/ lc + Z.of_nat (List.length data) <= x ->
  store_bytes memory lc data !! x = memory !! x.
Proof.
  induction data as [|b rest IH]; intros memory lc x Hx; simpl; [reflexivity|].
  rewrite IH by (simpl in Hx; lia).
  apply lookup_insert_ne. simpl in Hx. lia.
Qed.


Lemma low_byte_of_word v : Z.land (Z.land v 0xFFFF) 255 = Z.land v 255.
Proof.
  rewrite <- Z.land_assoc. reflexivity.
Qed.

Lemma high_byte_of_word v :
  Z.land (Z.shiftr (Z.land v 0xFFFF) 8) 255 = Z.land (Z.shiftr v 8) 255.
Proof.
  rewrite Z.shiftr_land, <- Z.land_assoc. reflexivity.
Qed.

(** What one step of the encoding loop does to memory and listing. *)
Lemma pass2_step_frame st sl a st' :
  pass2_step st (sl, a) = OK st' ->
  exists data,
    p2_listing st' = p2_listing st ++ [(a, data, sl)]
    /\ (is_resetvec sl = false ->
        p2_memory st' = store_bytes (p2_memory st) a data)
    /\ (is_resetvec sl = true -> data = []).
Proof.
  destruct st as [symbols memory listing]. unfold pass2_step. intros H.
  destruct (mnemonic sl).
  2:{ injection H as <-. exists []. simpl. auto. }
  inv_bind H.
  destruct (is_resetvec sl) eqn:Hrv.
  - unfold is_resetvec in Hrv. apply str_eqb_eq in Hrv.
    unfold encode_directive in Hx. rewrite Hrv in Hx. simpl in Hx.
    destruct (operands sl) as [|op [|op' ops]]; try discriminate.
    inv_bind Hx. injection Hx as <-. simpl in H. injection H as <-.
    exists []. simpl. split; [reflexivity|]. split; [discriminate | reflexivity].
  - assert (dir_memory x = memory) as Hmem.
    { unfold is_resetvec in Hrv. unfold encode_directive in Hx.
      rewrite Hrv in Hx.
      repeat match type of Hx with
             | (if ?c then _ else _) = _ => destruct c
             | bind _ _ = OK _ => inv_bind Hx
             | OK _ = OK _ => injection Hx as <-
             | Err _ = OK _ => discriminate Hx
             end; reflexivity. }
    destruct (dir_data x) as [data|].
    { injection H as <-. exists data. simpl. rewrite Hmem.
      split; [reflexivity|]. split; [reflexivity | discriminate]. }
    destruct (opcode_lookup (mn_upper sl)) as [[opc enc]|]; [|discriminate].
    inv_bind H. injection H as <-. eexists. simpl. rewrite Hmem.
    split; [reflexivity|]. split; [reflexivity | discriminate].
Qed.

Lemma pass2_loop_frame located : forall st st',
  pass2_loop st located = OK st' ->
  exists ents,
    p2_listing st' = p2_listing st ++ ents
    /\ List.length ents = List.length located
    /\ (Forall (fun p => is_resetvec (fst p) = false) located ->
        forall x, Forall (fun e => covers e x = false) ents ->
                  p2_memory st' !! x = p2_memory st !! x).
Proof.
  induction located as [|[sl a] rest IH]; intros st st' H; simpl in H.
  - injection H as <-. exists []. rewrite app_nil_r. auto.
  - inv_bind H.
    apply pass2_step_frame in Hx as (data & Hl1 & Hm1 & _).
    apply IH in H as (ents & Hl2 & Hlen & Hm2).
    exists ((a, data, sl) :: ents). split; [|split].
    + rewrite Hl2, Hl1, <- app_assoc. reflexivity.
    + simpl. rewrite Hlen. reflexivity.
    + intros Hall y Hcov.
      inversion Hall as [|? ? Hsl Hrest]; subst.
      inversion Hcov as [|? ? He Hents]; subst. simpl in Hsl.
      rewrite (Hm2 Hrest y Hents), (Hm1 Hsl).
      apply store_bytes_outside.
      simpl in He. apply andb_false_iff in He as [He|He].
      * apply Z.leb_gt in He. lia.
      * apply Z.ltb_ge in He. lia.
Qed.

(** ** The reset vector *)

Lemma encode_directive_resetvec sl op symbols memory v :
  mn_upper sl = ".RESETVEC" -> operands sl = [op] ->
  eval_expr op symbols = OK v ->
  encode_directive sl symbols memory
  = OK (mkDir (Some []) None symbols
          (<[0xFFFD := Z.land (Z.shiftr v 8) 255]>
             (<[0xFFFC := Z.land v 255]> memory))).
Proof.
  intros Hmn Hops Hv. unfold encode_directive.
  rewrite Hmn, Hops. simpl. rewrite Hv. simpl.
  rewrite low_byte_of_word, high_byte_of_word. reflexivity.
Qed.

Lemma pass2_step_resetvec st sl a st' m op :
  mnemonic sl = Some m -> mn_upper sl = ".RESETVEC" -> operands sl = [op] ->
  pass2_step st (sl, a) = OK st' ->
  exists v,
    eval_expr op (p2_symbols st) = OK v
    /\ p2_memory st' = <[0xFFFD := Z.land (Z.shiftr v 8) 255]>
                         (<[0xFFFC := Z.land v 255]> (p2_memory st))
    /\ p2_listing st' = p2_listing st ++ [(a, [], sl)].
Proof.
  intros Hm Hmn Hops H. destruct st as [symbols memory listing].
  unfold pass2_step in H. rewrite Hm in H.
  destruct (eval_expr op symbols) as [v|e] eqn:Hv.
  - rewrite (encode_directive_resetvec _ _ _ _ _ Hmn Hops Hv) in H.
    simpl in H. injection H as <-. exists v. simpl. auto.
  - unfold encode_directive in H. rewrite Hmn, Hops in H. simpl in H.
    rewrite Hv in H. discriminate.
Qed.

(** C8: a [.resetvec expr] line makes pass 2 store [expr & 0xFF] at
    0xFFFC and [(expr >> 8) & 0xFF] at 0xFFFD and emit nothing at the
    location counter; in pass 1 it is located at the current address and
    leaves the location counter where it is, so that the next located
    line gets the same address; and after the whole of pass 2 the two
    cells hold the bytes of the last [.resetvec] (provided, as the listing
    records it, that no later line writes over them). *)
Theorem resetvec_semantics (rv : SourceLine) (m op : string)
  (Hm : mnemonic rv = Some m) (Hmn : mn_upper rv = ".RESETVEC")
  (Hops : operands rv = [op]) :
  (forall symbols memory v,
     eval_expr op symbols = OK v ->
     encode_directive rv symbols memory
     = OK (mkDir (Some []) None symbols
             (<[0xFFFD := Z.land (Z.shiftr v 8) 255]>
                (<[0xFFFC := Z.land v 255]> memory)))) /\
  (forall frozen st st',
     pass1_step frozen st rv = OK st' ->
     p1_lc st' = p1_lc st
     /\ p1_located st' = p1_located st ++ [(rv, p1_lc st)]
     /\ forall next st'',
          not_org_equ next = true ->
          pass1_step frozen st' next = OK st'' ->
          p1_located st'' = p1_located st ++ [(rv, p1_lc st); (next, p1_lc st)]) /\
  (forall frozen symbols located lc,
     label rv = None ->
     pass1_step frozen (mkP1 symbols located lc) rv
     = OK (mkP1 symbols (located ++ [(rv, lc)]) lc)) /\
  (forall st0 pre a suf stf,
     pass2_loop st0 (pre ++ (rv, a) :: suf) = OK stf ->
     Forall (fun p => is_resetvec (fst p) = false) suf ->
     Forall (fun e => covers e 0xFFFC = false /\ covers e 0xFFFD = false)
            (drop (List.length (p2_listing st0) + List.length pre + 1)
                  (p2_listing stf)) ->
     exists st1 v,
       pass2_loop st0 pre = OK st1
       /\ eval_expr op (p2_symbols st1) = OK v
       /\ p2_memory stf !! 0xFFFC = Some (Z.land v 255)
       /\ p2_memory stf !! 0xFFFD = Some (Z.land (Z.shiftr v 8) 255)).
Proof.
  assert (truthy (mnemonic rv) = true) as Htr.
  { rewrite Hm. destruct m; [|reflexivity].
    unfold mn_upper in Hmn. rewrite Hm in Hmn. discriminate. }
  assert (instruction_size rv = fun _ => 0) as Hsize.
  { unfold instruction_size, mn_upper in *. rewrite Hm in *. rewrite Hmn.
    reflexivity. }
  assert (forall frozen st st',
            pass1_step frozen st rv = OK st' ->
            p1_lc st' = p1_lc st
            /\ p1_located st' = p1_located st ++ [(rv, p1_lc st)]) as Hp1.
  { intros frozen [symbols located lc] st' H. unfold pass1_step in H.
    inv_bind H. rewrite Htr, Hmn, Hsize in H. simpl in H.
    injection H as <-. simpl. split; [lia|]. reflexivity. }
  split; [|split; [|split]].
  - intros symbols memory v Hv.
    exact (encode_directive_resetvec _ _ _ _ _ Hmn Hops Hv).
  - intros frozen st st' H. destruct (Hp1 _ _ _ H) as [Hlc Hloc].
    split; [exact Hlc|]. split; [exact Hloc|].
    intros next st'' Hnext H2.
    destruct st' as [symbols' located' lc']. simpl in Hlc, Hloc. subst.
    apply not_org_equ_spec in Hnext as [Horg Hequ].
    unfold pass1_step in H2. inv_bind H2. rewrite Horg, Hequ in H2.
    destruct (truthy (mnemonic next)); injection H2 as <-; simpl;
      rewrite <- app_assoc; reflexivity.
  - intros frozen symbols located lc Hlabel. unfold pass1_step.
    rewrite Hlabel. simpl. rewrite Htr, Hmn, Hsize. simpl.
    rewrite Z.add_0_r. reflexivity.
  - intros st0 pre a suf stf H Hsuf Hcov.
    rewrite pass2_loop_app in H. inv_bind H. rename x into st1.
    simpl in H. inv_bind H. rename x into st2.
    destruct (pass2_step_resetvec _ _ _ _ _ _ Hm Hmn Hops Hx0)
      as (v & Hv & Hmem & Hlist).
    exists st1, v. split; [reflexivity|]. split; [exact Hv|].
    destruct (pass2_loop_frame _ _ _ Hx) as (ents1 & Hl1 & Hlen1 & _).
    destruct (pass2_loop_frame _ _ _ H) as (ents2 & Hl2 & Hlen2 & Hframe).
    assert (drop (List.length (p2_listing st0) + List.length pre + 1)
                 (p2_listing stf) = ents2) as Hdrop.
    { rewrite Hl2, Hlist, Hl1.
      rewrite drop_app_length'; [reflexivity|].
      rewrite !length_app. simpl. lia. }
    rewrite Hdrop in Hcov.
    split.
    + rewrite (Hframe Hsuf 0xFFFC).
      * rewrite Hmem. rewrite lookup_insert_ne by lia. apply lookup_insert_eq.
      * eapply Forall_impl; [exact Hcov|]. intros e [He _]. exact He.
    + rewrite (Hframe Hsuf 0xFFFD).
      * rewrite Hmem. apply lookup_insert_eq.
      * eapply Forall_impl; [exact Hcov|]. intros e [_ He]. exact He.
Qed.

(** [.resetvec 0x1234 / .resetvec 0x0200 / RET], all located at 0x10:
    the vector is 0x0200. *)
Lemma resetvec_semantics_witness :
  exists stf,
    pass2_loop (mkP2 ∅ ∅ []) two_resetvecs = OK stf
    /\ p2_memory stf !! 0xFFFC = Some 0x00
    /\ p2_memory stf !! 0xFFFD = Some 0x02.
Proof.
  destruct (pass2_loop (mkP2 ∅ ∅ []) two_resetvecs) as [stf|e] eqn:Hrun;
    [|vm_compute in Hrun; discriminate Hrun].
  exists stf. split; [reflexivity|].
  destruct (resetvec_semantics resetvec_last ".RESETVEC" "0x0200"
              eq_refl eq_refl eq_refl) as (_ & _ & _ & H).
  destruct (H (mkP2 ∅ ∅ []) [(resetvec_first, 0x10)] 0x10 [(ret_line, 0x10)]
              stf Hrun)
    as (st1 & v & Hpre & Hv & H1 & H2).
  - repeat constructor.
  - vm_compute in Hrun. injection Hrun as <-.
    repeat constructor.
  - vm_compute in Hpre. injection Hpre as <-.
    vm_compute in Hv. injection Hv as <-.
    split; [exact H1 | exact H2].
Defined.

(** ** The image writer *)

Lemma foldr_max_spec (k0 : Z) (l : list (Z * Z)) :
  let top := foldr (fun p acc => Z.max (fst p) acc) k0 l in
  k0 <= top /\ (forall p, p ∈ l -> fst p <= top)
  /\ (top = k0 \/ exists p, p ∈ l /\ fst p = top).
Proof.
  induction l as [|p l (IH1 & IH2 & IH3)]; simpl.
  - split; [lia|]. split; [|auto]. intros p Hp. inversion Hp.
  - split; [lia|]. split.
    + intros q Hq. apply elem_of_cons in Hq as [->|Hq]; [lia|].
      specialize (IH2 q Hq). lia.
    + destruct (Z.max_spec (fst p) (foldr (fun p acc => Z.max (fst p) acc) k0 l))
        as [[_ ->]|[_ ->]].
      * destruct IH3 as [->|(q & Hq & <-)]; [auto|].
        right. exists q. split; [|reflexivity]. apply elem_of_cons. auto.
      * right. exists p. split; [|reflexivity]. apply elem_of_cons. auto.
Qed.

Lemma max_key_spec (memory : gmap Z Z) :
  memory <> ∅ ->
  is_Some (memory !! max_key memory)
  /\ forall k, is_Some (memory !! k) -> k <= max_key memory.
Proof.
  intros Hne. unfold max_key.
  destruct (map_to_list memory) as [|[k0 v0] rest] eqn:Hl.
  { apply map_to_list_empty_iff in Hl. contradiction. }
  destruct (foldr_max_spec k0 rest) as (H1 & H2 & H3).
  assert (forall k v, memory !! k = Some v <-> (k, v) ∈ (k0, v0) :: rest) as Hin.
  { intros k v. rewrite <- Hl. symmetry. apply elem_of_map_to_list. }
  split.
  - destruct H3 as [->|([k v] & Hp & <-)].
    + exists v0. apply Hin. apply elem_of_cons. auto.
    + exists v. apply Hin. apply elem_of_cons. auto.
  - intros k [v Hv]. apply Hin in Hv.
    apply elem_of_cons in Hv as [[= -> ->]|Hv]; [exact H1|].
    exact (H2 _ Hv).
Qed.

Lemma write_items_spec items : forall image,
  NoDup (items.*1) ->
  (forall a b, (a, b) ∈ items ->
               0 <= a < Z.of_nat (List.length image) /\ is_byte b = true) ->
  exists image',
    write_items image items = OK image'
    /\ List.length image' = List.length image
    /\ forall i : nat,
         (i < List.length image)%nat ->
         image' !! i
         = Some (match (list_to_map items : gmap Z Z) !! Z.of_nat i with
                 | Some b => b
                 | None => default 0 (image !! i)
                 end).
Proof.
  induction items as [|[a b] rest IH]; intros image Hnd Hok.
  - exists image. split; [reflexivity|]. split; [reflexivity|].
    intros i Hi. simpl. rewrite lookup_empty.
    destruct (lookup_lt_is_Some_2 image i Hi) as [x ->]. reflexivity.
  - simpl in Hnd. apply NoDup_cons in Hnd as [Hnotin Hnd].
    destruct (Hok a b) as [Ha Hb]; [apply elem_of_cons; auto|].
    simpl. unfold bytearray_set.
    assert ((a <? - Z.of_nat (List.length image))
            || (Z.of_nat (List.length image) <=? a) = false) as ->.
    { apply orb_false_iff. split; [apply Z.ltb_ge | apply Z.leb_gt]; lia. }
    assert ((b <? 0) || (256 <=? b) = false) as ->.
    { unfold is_byte in Hb. apply andb_true_iff in Hb as [Hb1 Hb2].
      apply Z.leb_le in Hb1. apply Z.ltb_lt in Hb2.
      apply orb_false_iff. split; [apply Z.ltb_ge | apply Z.leb_gt]; lia. }
    assert ((a <? 0) = false) as -> by (apply Z.ltb_ge; lia).
    simpl.
    destruct (IH (<[Z.to_nat a := b]> image)) as (image' & Hw & Hlen & Hget).
    + exact Hnd.
    + intros a' b' Hin. rewrite length_insert.
      apply Hok. apply elem_of_cons. auto.
    + exists image'. split; [exact Hw|].
      rewrite length_insert in Hlen. split; [exact Hlen|].
      intros i Hi. rewrite Hget by (rewrite length_insert; exact Hi).
      f_equal.
      destruct (decide (a = Z.of_nat i)) as [->|Hne].
      * rewrite lookup_insert_eq.
        rewrite (proj1 (not_elem_of_list_to_map rest (Z.of_nat i))) by exact Hnotin.
        rewrite Nat2Z.id, list_lookup_insert_eq by exact Hi. reflexivity.
      * rewrite lookup_insert_ne by exact Hne.
        rewrite list_lookup_insert_ne by lia. reflexivity.
Qed.

Lemma write_binary_spec (memory : gmap Z Z) :
  memory <> ∅ ->
  (forall k b, memory !! k = Some b -> 0 <= k /\ 0 <= b < 256) ->
  exists image,
    write_binary memory = OK image
    /\ Z.of_nat (List.length image) = max_key memory + 1
    /\ forall k, 0 <= k <= max_key memory ->
                 image !! Z.to_nat k = Some (default 0 (memory !! k)).
Proof.
  intros Hne Hmem. unfold write_binary.
  destruct (decide (memory = ∅)) as [|_]; [contradiction|].
  assert (forallb (fun p => 0 <=? fst p) (map_to_list memory) = true) as ->.
  { apply forallb_forall. intros [k b] Hin. simpl.
    apply list_elem_of_In, elem_of_map_to_list in Hin.
    apply Z.leb_le. apply (Hmem k b Hin). }
  destruct (max_key_spec memory Hne) as ([btop Htop] & Hmax).
  pose proof (Hmem _ _ Htop) as [Htop0 _].
  destruct (write_items_spec (map_to_list memory)
              (replicate (Z.to_nat (max_key memory + 1)) 0))
    as (image & Hw & Hlen & Hget).
  - apply NoDup_fst_map_to_list.
  - intros a b Hin. apply elem_of_map_to_list in Hin.
    rewrite length_replicate.
    destruct (Hmem a b Hin) as [Ha Hb].
    pose proof (Hmax a (ex_intro _ b Hin)).
    split; [lia|]. unfold is_byte.
    apply andb_true_iff. split; [apply Z.leb_le | apply Z.ltb_lt]; lia.
  - rewrite length_replicate in Hlen.
    exists image. split; [exact Hw|]. split; [lia|].
    intros k Hk.
    rewrite Hget by (rewrite length_replicate; lia).
    rewrite Z2Nat.id by lia. rewrite list_to_map_to_list.
    destruct (memory !! k); [reflexivity|].
    rewrite lookup_replicate_2 by lia. reflexivity.
Qed.

(** C9: for an address-to-byte map (addresses from 0 up, values in
    [0, 255]) the image writer returns a file that is empty when the map
    is, and otherwise has length [max address + 1]; the byte at offset
    [k] is the mapped value where [k] is mapped and 0x00 elsewhere. *)
Theorem write_binary_image (memory : gmap Z Z)
  (Hmem : forall k b, memory !! k = Some b -> 0 <= k /\ 0 <= b < 256) :
  exists image,
    write_binary memory = OK image
    /\ (memory = ∅ -> image = [])
    /\ (memory <> ∅ ->
        exists top,
          is_Some (memory !! top)
          /\ (forall k, is_Some (memory !! k) -> k <= top)
          /\ Z.of_nat (List.length image) = top + 1)
    /\ (forall k, 0 <= k < Z.of_nat (List.length image) ->
                  image !! Z.to_nat k = Some (default 0 (memory !! k))).
Proof.
  destruct (decide (memory = ∅)) as [->|Hne].
  - exists []. split; [reflexivity|]. split; [reflexivity|].
    split; [congruence|]. simpl. intros k Hk. lia.
  - destruct (write_binary_spec memory Hne Hmem) as (image & Hw & Hlen & Hget).
    destruct (max_key_spec memory Hne) as (Htop & Hmax).
    exists image. split; [exact Hw|]. split; [contradiction|]. split.
    + intros _. exists (max_key memory). auto.
    + intros k Hk. apply Hget. lia.
Qed.

(** Addresses 0 and 4 mapped: five bytes, the gap zero-filled. *)
Lemma write_binary_image_witness :
  exists image,
    write_binary gap_memory = OK image
    /\ List.length image = 5%nat
    /\ image !! 0%nat = Some 0xAA
    /\ image !! 2%nat = Some 0x00
    /\ image !! 4%nat = Some 0xBB.
Proof.
  destruct (write_binary_image gap_memory) as (image & Hw & _ & Hlen & Hget).
  - intros k b Hk. apply elem_of_map_to_list in Hk. vm_compute in Hk.
    repeat (apply elem_of_cons in Hk as [[= -> ->]|Hk]); [lia | lia |].
    inversion Hk.
  - exists image. split; [exact Hw|].
    destruct Hlen as (top & [b Hb] & _ & Hlen); [vm_compute; discriminate|].
    assert (top = 4) as ->.
    { apply elem_of_map_to_list in Hb. vm_compute in Hb.
      pose proof (Hget 0) as H0. pose proof (Hget 4) as H4.
      vm_compute in Hw. injection Hw as <-. simpl in Hlen. lia. }
    split; [lia|].
    split; [exact (Hget 0 ltac:(lia))|].
    split; [exact (Hget 2 ltac:(lia)) | exact (Hget 4 ltac:(lia))].
Defined.

(** ** Encoded length against laid-out size *)

Lemma py_bytes_inv l bs : py_bytes l = OK bs -> bs = l.
Proof.
  unfold py_bytes. destruct (forallb _ l); [|discriminate].
  intros [= <-]. reflexivity.
Qed.







(** ** Includes *)

Lemma eval_expr_finished e symbols : finished (eval_expr e symbols).
Proof.
  unfold finished, eval_expr.
  destruct (bind _ _) as [z|[m|w| |]]; discriminate.
Qed.

Lemma finished_bind {A B} (r : result A) (k : A -> result B) :
  finished r -> (forall a, r = OK a -> finished (k a)) -> finished (bind r k).
Proof.
  destruct r as [a|e]; simpl; intros Hr Hk; [apply Hk; reflexivity|].
  intros [= ->]. apply Hr. reflexivity.
Qed.

Lemma finished_catch {A} (r h : result A) :
  finished r -> finished h -> finished (catch_asm r h).
Proof.
  destruct r as [a|[m|w| |]]; simpl; auto.
Qed.

Lemma finished_OK {A} (a : A) : finished (OK a).
Proof. discriminate. Qed.

Lemma substitute_params_finished pas : forall e,
  finished (substitute_params e pas).
Proof.
  induction pas as [|[param arg] pas IH]; intros e; simpl; [discriminate|].
  apply finished_bind; [|intros; apply IH].
  unfold substitute_param.
  destruct (str_eqb param "" || has_backslash arg); discriminate.
Qed.

Lemma expand_body_finished sl pas fn ln body : forall res,
  finished (expand_body sl pas fn ln res body).
Proof.
  induction body as [|b body IH]; intros res; simpl; [discriminate|].
  apply finished_bind; [apply substitute_params_finished|].
  intros e _. destruct (_parse_one e fn ln); apply IH.
Qed.

Lemma expand_macro_finished st sl fn ln : finished (_expand_macro st sl fn ln).
Proof.
  unfold _expand_macro.
  destruct (macros st !! mn_upper sl) as [[params body]|]; [|discriminate].
  destruct (negb _); [discriminate|]. apply expand_body_finished.
Qed.

Lemma expand_builtin_finished sl fn ln : finished (_expand_builtin sl fn ln).
Proof.
  unfold _expand_builtin, expand_loadaddr, finished.
  repeat match goal with
         | |- context [if ?c then _ else _] => destruct c
         | |- context [match ?l with [] => _ | _ :: _ => _ end] => destruct l
         end; simpl; discriminate.
Qed.

(** A line without include always finishes and leaves the include stack
    as it is. *)
Lemma process_plain_line_finished st line0 fn ln :
  finished (process_plain_line st line0 fn ln).
Proof.
  unfold process_plain_line.
  apply finished_bind.
  - destruct (match_equ _) as [[name e]|]; [|apply finished_OK].
    apply finished_catch; [|apply finished_OK].
    apply finished_bind; [apply eval_expr_finished | intros; apply finished_OK].
  - intros st1 _.
    destruct (_parse_one _ fn ln) as [sl|]; [|apply finished_OK].
    destruct (truthy (mnemonic sl) && bool_decide _).
    { apply finished_bind; [apply expand_macro_finished|].
      intros; apply finished_OK. }
    destruct (truthy (mnemonic sl) && in_strings _ _).
    { apply finished_bind; [apply expand_builtin_finished|].
      intros; apply finished_OK. }
    apply finished_OK.
Qed.

Lemma process_plain_line_stack st line0 fn ln st' lines :
  process_plain_line st line0 fn ln = OK (st', lines) ->
  _include_stack st' = _include_stack st.
Proof.
  unfold process_plain_line. intros H. inv_bind H.
  assert (_include_stack x = _include_stack st) as Hstack.
  { destruct (match_equ _) as [[name e]|]; [|injection Hx as <-; reflexivity].
    destruct (eval_expr e (defines st)) as [val|[m|w| |]]; simpl in Hx;
      first [discriminate Hx | injection Hx as <-; reflexivity]. }
  destruct (_parse_one _ fn ln) as [sl|]; [|injection H as <- _; exact Hstack].
  repeat match type of H with
         | (if ?c then _ else _) = _ => destruct c
         | bind _ _ = OK _ => inv_bind H
         end; injection H as <- _; exact Hstack.
Qed.

Lemma match_include_Some line0 p :
  match_include line0 = Some p ->
  str_eqb line0 "" = false
  /\ startswith ".MACRO" (upper line0) = false
  /\ startswith ".INCLUDE" (upper line0) = true.
Proof.
  unfold match_include.
  destruct (startswith ".INCLUDE" (upper line0)) eqn:Hs; [|discriminate].
  intros _. split; [|split; [|reflexivity]].
  - destruct line0; [discriminate Hs | reflexivity].
  - destruct (upper line0) as [|a [|b s]]; simpl in Hs;
      [discriminate Hs | rewrite andb_false_r in Hs; discriminate Hs |].
    apply andb_true_iff in Hs as [Ha Hs].
    apply andb_true_iff in Hs as [Hb _].
    simpl. rewrite Ha. simpl.
    unfold char_eqb in *. apply N.eqb_eq in Hb.
    replace (code "M" =? code b)%N with false; [reflexivity|].
    symmetry. apply N.eqb_neq. rewrite <- Hb. discriminate.
Qed.

(** From here on the string functions are kept folded. *)
Arguments startswith : simpl never.
Arguments str_eqb : simpl never.
Arguments upper : simpl never.
Arguments strip : simpl never.
Arguments drop_chars : simpl never.
Arguments match_include : simpl never.
Arguments abspath : simpl never.

Lemma process_lines_stack
  (pf : string -> pp_state -> result (pp_state * list SourceLine)) :
  (forall p st st' r, pf p st = OK (st', r) ->
                      _include_stack st' = _include_stack st) ->
  forall lines st loc fn st' r,
    _process_lines pf st loc lines fn = OK (st', r) ->
    _include_stack st' = _include_stack st.
Proof.
  intros Hpf. induction lines as [|raw0 rest IH]; intros st loc fn st' r H.
  - simpl in H. destruct (pl_in_macro loc); [discriminate|].
    injection H as <- _. reflexivity.
  - destruct loc as [out ln0 in_macro body]. simpl in H.
    destruct (str_eqb (strip (strip_comment raw0)) ""); [exact (IH _ _ _ _ _ H)|].
    destruct in_macro as [[name params]|].
    { destruct (str_eqb _ ".ENDM"); [|exact (IH _ _ _ _ _ H)].
      apply IH in H. exact H. }
    destruct (startswith ".MACRO" _).
    { destruct (str_eqb _ ""); [discriminate|]. exact (IH _ _ _ _ _ H). }
    destruct (startswith ".INCLUDE" _).
    { destruct (match_include _) as [inc|]; [|discriminate].
      inv_bind H. destruct x as [st1 lines1].
      apply IH in H. apply Hpf in Hx. congruence. }
    inv_bind H. destruct x as [st1 lines1].
    apply IH in H. apply process_plain_line_stack in Hx. congruence.
Qed.

Lemma process_lines_finished
  (pf : string -> pp_state -> result (pp_state * list SourceLine))
  (stack : list string) :
  (forall p st st' r, pf p st = OK (st', r) ->
                      _include_stack st' = _include_stack st) ->
  (forall p st, _include_stack st = stack -> finished (pf p st)) ->
  forall lines st loc fn,
    _include_stack st = stack ->
    finished (_process_lines pf st loc lines fn).
Proof.
  intros Hpf Hfin. induction lines as [|raw0 rest IH]; intros st loc fn Hst.
  - simpl. destruct (pl_in_macro loc); discriminate.
  - destruct loc as [out ln0 in_macro body]. simpl.
    destruct (str_eqb (strip (strip_comment raw0)) ""); [apply IH, Hst|].
    destruct in_macro as [[name params]|].
    { destruct (str_eqb _ ".ENDM"); apply IH; exact Hst. }
    destruct (startswith ".MACRO" _).
    { destruct (str_eqb _ ""); [discriminate|]. apply IH, Hst. }
    destruct (startswith ".INCLUDE" _).
    { destruct (match_include _) as [inc|]; [|discriminate].
      apply finished_bind; [apply Hfin, Hst|].
      intros [st1 lines1] Hx. apply IH. apply Hpf in Hx. congruence. }
    apply finished_bind; [apply process_plain_line_finished|].
    intros [st1 lines1] Hx. apply IH.
    apply process_plain_line_stack in Hx. congruence.
Qed.

Lemma process_file_stack fs fuel : forall path st st' r,
  process_file fs fuel path st = OK (st', r) ->
  _include_stack st' = _include_stack st.
Proof.
  induction fuel as [|fuel IH]; intros path st st' r H; simpl in H;
    [discriminate|].
  destruct (bool_decide _); [discriminate|].
  destruct (fs_files fs !! _) as [text|]; [|discriminate].
  inv_bind H. destruct x as [st1 lines1]. injection H as <- _.
  apply (process_lines_stack _ IH) in Hx.
  unfold pop_include. simpl. rewrite Hx. simpl.
  apply removelast_last.
Qed.

Lemma remaining_push fs stack p :
  p ∉ stack -> is_Some (fs_files fs !! p) ->
  (remaining fs (stack ++ [p]) < remaining fs stack)%nat.
Proof.
  intros Hnotin Hfile. unfold remaining.
  apply subset_size.
  rewrite list_to_set_app_L. simpl.
  apply elem_of_dom in Hfile.
  assert (p ∉ (list_to_set stack : gset string)) as Hp
    by (rewrite elem_of_list_to_set; exact Hnotin).
  split.
  - intros x. rewrite !elem_of_difference, elem_of_union. intros [Hx Hn].
    split; auto.
  - intros Hsub. specialize (Hsub p).
    rewrite !elem_of_difference, elem_of_union in Hsub.
    destruct Hsub as [_ Hc]; [split; assumption|].
    apply Hc. right. rewrite union_empty_r_L. apply elem_of_singleton.
    reflexivity.
Qed.

(** With more fuel than files still off the include stack, the recursion
    of [process_file] finishes. *)
Lemma process_file_finished fs fuel : forall path st,
  (remaining fs (_include_stack st) < fuel)%nat ->
  finished (process_file fs fuel path st).
Proof.
  induction fuel as [|fuel IH]; intros path st Hfuel; [lia|].
  simpl.
  destruct (bool_decide _) eqn:Hin; [discriminate|].
  apply bool_decide_eq_false in Hin.
  destruct (fs_files fs !! _) as [text|] eqn:Hfile; [|discriminate].
  apply finished_bind; [|intros [st1 lines1] _; apply finished_OK].
  apply (process_lines_finished _ (_include_stack st ++ [abspath (fs_cwd fs) path])).
  - apply process_file_stack.
  - intros p st1 Hst1. apply IH. rewrite Hst1.
    pose proof (remaining_push fs _ _ Hin (ex_intro _ text Hfile)). lia.
  - reflexivity.
Qed.

Lemma remaining_le_size fs stack : (remaining fs stack <= size (fs_files fs))%nat.
Proof.
  unfold remaining. rewrite <- size_dom.
  apply subseteq_size. intros x. rewrite elem_of_difference. tauto.
Qed.

Lemma finished_bind_inv {A B} (r : result A) (k : A -> result B) :
  finished (bind r k) -> finished r.
Proof.
  destruct r as [a|e]; simpl; intros H; [apply finished_OK|].
  intros [= ->]. apply H. reflexivity.
Qed.

Lemma process_lines_mono
  (pf pf' : string -> pp_state -> result (pp_state * list SourceLine)) :
  (forall p st, finished (pf p st) -> pf' p st = pf p st) ->
  forall lines st loc fn,
    finished (_process_lines pf st loc lines fn) ->
    _process_lines pf' st loc lines fn = _process_lines pf st loc lines fn.
Proof.
  intros Hpf. induction lines as [|raw0 rest IH]; intros st loc fn Hfin;
    [reflexivity|].
  destruct loc as [out ln0 in_macro body]. simpl in *.
  destruct (str_eqb (strip (strip_comment raw0)) ""); [apply IH, Hfin|].
  destruct in_macro as [[name params]|].
  { destruct (str_eqb _ ".ENDM"); apply IH; exact Hfin. }
  destruct (startswith ".MACRO" _).
  { destruct (str_eqb _ ""); [reflexivity|]. apply IH, Hfin. }
  destruct (startswith ".INCLUDE" _).
  { destruct (match_include _) as [inc|]; [|reflexivity].
    rewrite (Hpf _ _ (finished_bind_inv _ _ Hfin)).
    destruct (pf _ st) as [[st1 lines1]|e]; simpl in *; [|reflexivity].
    apply IH, Hfin. }
  destruct (process_plain_line st _ fn (ln0 + 1)) as [[st1 lines1]|e];
    simpl in *; [|reflexivity].
  apply IH, Hfin.
Qed.

(** A finished run is not changed by more fuel. *)
Lemma process_file_mono fs fuel : forall path st,
  finished (process_file fs fuel path st) ->
  process_file fs (S fuel) path st = process_file fs fuel path st.
Proof.
  induction fuel as [|fuel IH]; intros path st Hfin.
  - exfalso. apply Hfin. reflexivity.
  - change (process_file fs (S (S fuel)) path st) with
      (let abs_path := abspath (fs_cwd fs) path in
       if bool_decide (abs_path ∈ _include_stack st)
       then Err (AsmError CircularInclude)
       else
         let st := push_include st abs_path in
         match fs_files fs !! abs_path with
         | None => Err (AsmError CannotOpen)
         | Some text =>
             bind (_process_lines (process_file fs (S fuel)) st (mkPL [] 0 None [])
                     (readlines text) abs_path)
                  (fun x => let '(st', result) := x in OK (pop_include st', result))
         end).
    change (process_file fs (S fuel) path st) with
      (let abs_path := abspath (fs_cwd fs) path in
       if bool_decide (abs_path ∈ _include_stack st)
       then Err (AsmError CircularInclude)
       else
         let st := push_include st abs_path in
         match fs_files fs !! abs_path with
         | None => Err (AsmError CannotOpen)
         | Some text =>
             bind (_process_lines (process_file fs fuel) st (mkPL [] 0 None [])
                     (readlines text) abs_path)
                  (fun x => let '(st', result) := x in OK (pop_include st', result))
         end) in Hfin |- *.
    cbv zeta in *.
    destruct (bool_decide _); [reflexivity|].
    destruct (fs_files fs !! _) as [text|]; [|reflexivity].
    rewrite (process_lines_mono (process_file fs fuel) (process_file fs (S fuel)) IH);
      [reflexivity|].
    exact (finished_bind_inv _ _ Hfin).
Qed.

Lemma process_file_more_fuel fs fuel n path st :
  finished (process_file fs fuel path st) ->
  process_file fs (fuel + n) path st = process_file fs fuel path st.
Proof.
  intros Hfin. induction n as [|n IH]; [rewrite Nat.add_0_r; reflexivity|].
  rewrite Nat.add_succ_r, process_file_mono; [exact IH|].
  rewrite IH. exact Hfin.
Qed.

(** C10: an include line hands [process_file] the quoted path joined to
    the directory of the including file (the path itself when it is
    absolute); [process_file] raises "Circular include" for a path whose
    absolute form is on the include stack, in particular for a file whose
    first line includes the file itself, and "Cannot open" for a path that
    is no file; and with more fuel than there are files the recursion
    finishes, with a result that more fuel does not change. *)
Theorem include_processing (fs : file_system) :
  (forall pf st loc raw0 rest fn p,
     pl_in_macro loc = None ->
     match_include (strip (strip_comment raw0)) = Some p ->
     _process_lines pf st loc (raw0 :: rest) fn
     = bind (pf (if isabs p then p else path_join (dirname fn) p) st)
         (fun x => _process_lines pf (fst x)
                     (mkPL (pl_out loc ++ snd x) (pl_lineno loc + 1) None
                           (pl_macro_body loc))
                     rest fn)) /\
  (forall fuel path st,
     abspath (fs_cwd fs) path ∈ _include_stack st ->
     process_file fs (S fuel) path st = Err (AsmError CircularInclude)) /\
  (forall fuel path st text raw0 rest p,
     abspath (fs_cwd fs) path ∉ _include_stack st ->
     fs_files fs !! abspath (fs_cwd fs) path = Some text ->
     readlines text = raw0 :: rest ->
     match_include (strip (strip_comment raw0)) = Some p ->
     abspath (fs_cwd fs)
       (if isabs p then p
        else path_join (dirname (abspath (fs_cwd fs) path)) p)
     = abspath (fs_cwd fs) path ->
     process_file fs (S (S fuel)) path st = Err (AsmError CircularInclude)) /\
  (forall fuel path st,
     abspath (fs_cwd fs) path ∉ _include_stack st ->
     fs_files fs !! abspath (fs_cwd fs) path = None ->
     process_file fs (S fuel) path st = Err (AsmError CannotOpen)) /\
  (forall fuel path st,
     (size (fs_files fs) < fuel)%nat ->
     finished (process_file fs fuel path st)
     /\ forall n, process_file fs (fuel + n) path st
                  = process_file fs fuel path st).
Proof.
  assert (forall pf st loc raw0 rest fn p,
     pl_in_macro loc = None ->
     match_include (strip (strip_comment raw0)) = Some p ->
     _process_lines pf st loc (raw0 :: rest) fn
     = bind (pf (if isabs p then p else path_join (dirname fn) p) st)
         (fun x => _process_lines pf (fst x)
                     (mkPL (pl_out loc ++ snd x) (pl_lineno loc + 1) None
                           (pl_macro_body loc))
                     rest fn)) as Hstep.
  { intros pf st [out ln0 in_macro body] raw0 rest fn p Hmac Hinc.
    simpl in Hmac. subst in_macro.
    destruct (match_include_Some _ _ Hinc) as (Hne & Hm & Hi).
    simpl. rewrite Hne, Hm, Hi, Hinc.
    destruct (isabs p); simpl;
      (destruct (pf _ st) as [[st1 lines1]|e]; reflexivity). }
  split; [exact Hstep|]. split; [|split; [|split]].
  - intros fuel path st Hin. simpl.
    rewrite bool_decide_eq_true_2 by exact Hin. reflexivity.
  - intros fuel path st text raw0 rest p Hnotin Hfile Hlines Hinc Hself.
    change (process_file fs (S (S fuel)) path st) with
      (let abs_path := abspath (fs_cwd fs) path in
       if bool_decide (abs_path ∈ _include_stack st)
       then Err (AsmError CircularInclude)
       else
         let st := push_include st abs_path in
         match fs_files fs !! abs_path with
         | None => Err (AsmError CannotOpen)
         | Some text =>
             bind (_process_lines (process_file fs (S fuel)) st (mkPL [] 0 None [])
                     (readlines text) abs_path)
                  (fun x => let '(st', result) := x in OK (pop_include st', result))
         end).
    cbv zeta.
    rewrite bool_decide_eq_false_2 by exact Hnotin.
    rewrite Hfile, Hlines.
    rewrite (Hstep _ _ (mkPL [] 0 None []) _ _ _ p eq_refl Hinc).
    simpl process_file. rewrite Hself.
    rewrite bool_decide_eq_true_2; [reflexivity|].
    unfold push_include. simpl. apply elem_of_app. right.
    apply list_elem_of_singleton. reflexivity.
  - intros fuel path st Hnotin Hfile. simpl.
    rewrite bool_decide_eq_false_2 by exact Hnotin.
    rewrite Hfile. reflexivity.
  - intros fuel path st Hfuel.
    assert (finished (process_file fs fuel path st)) as Hfin.
    { apply process_file_finished.
      pose proof (remaining_le_size fs (_include_stack st)). lia. }
    split; [exact Hfin|].
    intros n. apply process_file_more_fuel, Hfin.
Qed.

(** Among six files: [a.asm] and [sub/b.asm] include each other,
    [self.asm] includes itself, [lost.asm] includes a file that does not
    exist, and [main.asm] includes [sub/leaf.asm], found next to it. *)
Lemma include_processing_witness :
  finished (process_file cyclic_files 7 "a.asm" (Preprocessor ∅))
  /\ process_file cyclic_files 7 "a.asm" (Preprocessor ∅)
     = Err (AsmError CircularInclude)
  /\ process_file cyclic_files 7 "self.asm" (Preprocessor ∅)
     = Err (AsmError CircularInclude)
  /\ process_file cyclic_files 7 "lost.asm" (Preprocessor ∅)
     = Err (AsmError CannotOpen)
  /\ process_file cyclic_files 1 "nowhere.asm" (Preprocessor ∅)
     = Err (AsmError CannotOpen)
  /\ exists pp sl,
       process_file cyclic_files 7 "main.asm" (Preprocessor ∅) = OK (pp, [sl])
       /\ filename sl = "/p/sub/leaf.asm".
Proof.
  destruct (include_processing cyclic_files) as (_ & _ & Hself & Hopen & Hfin).
  split; [|split; [|split; [|split; [|split]]]].
  - apply Hfin. vm_compute. lia.
  - vm_compute. reflexivity.
  - apply (Hself 5%nat "self.asm" (Preprocessor ∅)
             (".include " +:+ quoted "self.asm" +:+ nl)
             (".include " +:+ quoted "self.asm" +:+ nl) [] "self.asm").
    + intros H. inversion H.
    + vm_compute. reflexivity.
    + vm_compute. reflexivity.
    + vm_compute. reflexivity.
    + vm_compute. reflexivity.
  - vm_compute. reflexivity.
  - apply (Hopen 0%nat "nowhere.asm" (Preprocessor ∅)).
    + intros H. inversion H.
    + vm_compute. reflexivity.
  - eexists. eexists. split; vm_compute; reflexivity.
Defined.

(** * Further properties of the assembler *)

(** ** Pass 1: layout and labels *)

Lemma instruction_size_no_mnemonic sl symbols :
  truthy (mnemonic sl) = false -> instruction_size sl symbols = 0.
Proof.
  unfold instruction_size.
  destruct (mnemonic sl) as [[|c m]|]; [reflexivity|discriminate|reflexivity].
Qed.

Lemma not_org_equ_no_mnemonic sl :
  truthy (mnemonic sl) = false -> not_org_equ sl = true.
Proof.
  intros H. unfold not_org_equ. rewrite (truthy_false_mn_upper _ H). reflexivity.
Qed.

(** One iteration of the loop of pass 1: what it appends, how far the
    location counter moves, and which names it binds. *)
Lemma pass1_step_cases frozen st sl st' :
  pass1_step frozen st sl = OK st' ->
  p1_located st'
  = p1_located st ++ (if not_org_equ sl then [(sl, p1_lc st)] else [])
  /\ (str_eqb (mn_upper sl) ".ORG" = false ->
      p1_lc st' = p1_lc st + (if not_org_equ sl then instruction_size sl ∅ else 0))
  /\ (forall k v, p1_symbols st !! k = Some v ->
        label_of sl <> Some k -> equ_defines k sl = false ->
        p1_symbols st' !! k = Some v)
  /\ (forall k, is_Some (p1_symbols st !! k) -> is_Some (p1_symbols st' !! k))
  /\ (forall l, label_of sl = Some l ->
        p1_symbols st !! l = None
        /\ is_Some (p1_symbols st' !! l)
        /\ (equ_defines l sl = false -> p1_symbols st' !! l = Some (p1_lc st))).
Proof.
  destruct st as [symbols located lc]. unfold pass1_step.
  intros H. inv_bind H.
  assert (forall k v, symbols !! k = Some v -> x !! k = Some v) as Hkeep.
  { intros k v Hk.
    destruct (label sl) as [l|]; [|injection Hx as <-; exact Hk].
    destruct (truthy (Some l)); [|injection Hx as <-; exact Hk].
    destruct (bool_decide (l ∈ dom symbols)) eqn:Hin; [discriminate|].
    injection Hx as <-.
    apply bool_decide_eq_false in Hin.
    rewrite lookup_insert_ne; [exact Hk|].
    intros ->. apply Hin. apply elem_of_dom. eauto. }
  assert (forall l, label_of sl = Some l ->
                    symbols !! l = None /\ x !! l = Some lc) as Hlab.
  { intros l Hl. unfold label_of in Hl.
    destruct (label sl) as [[|c l0]|]; try discriminate.
    injection Hl as <-. simpl in Hx.
    destruct (bool_decide (String c l0 ∈ dom symbols)) eqn:Hin; [discriminate|].
    injection Hx as <-.
    apply bool_decide_eq_false in Hin.
    split; [|apply lookup_insert_eq].
    apply not_elem_of_dom. exact Hin. }
  clear Hx. simpl.
  destruct (truthy (mnemonic sl)) eqn:Htr.
  - destruct (str_eqb (mn_upper sl) ".ORG") eqn:Horg.
    { destruct (operands sl) as [|op0 ops] eqn:Hops; [discriminate|].
      inv_bind H. injection H as <-. simpl.
      assert (not_org_equ sl = false) as ->
        by (unfold not_org_equ; rewrite Horg; reflexivity).
      assert (forall k, equ_defines k sl = false) as Hne.
      { intros k. unfold equ_defines, is_equ_line.
        apply str_eqb_eq in Horg. rewrite Horg. simpl.
        rewrite andb_false_r. reflexivity. }
      rewrite app_nil_r.
      split; [reflexivity|]. split; [discriminate|].
      split; [intros; apply Hkeep; assumption|].
      split; [intros k [v Hv]; eauto|].
      intros l Hl. destruct (Hlab l Hl). eauto. }
    destruct (str_eqb (mn_upper sl) ".EQU") eqn:Hequ.
    { destruct (operands sl) as [|name [|op1 ops]] eqn:Hops; try discriminate.
      assert (not_org_equ sl = false) as ->
        by (unfold not_org_equ; rewrite Horg, Hequ; reflexivity).
      assert (forall k, equ_defines k sl = str_eqb name k) as Hdef.
      { intros k. unfold equ_defines, is_equ_line.
        rewrite Htr, Hequ, Hops. reflexivity. }
      rewrite app_nil_r.
      destruct (bool_decide (name ∈ frozen)) eqn:Hfr.
      { injection H as <-. simpl.
        split; [reflexivity|]. split; [intros _; lia|].
        split; [intros; apply Hkeep; assumption|].
        split; [intros k [v Hv]; eauto|].
        intros l Hl. destruct (Hlab l Hl). eauto. }
      inv_bind H. injection H as <-. simpl.
      split; [reflexivity|]. split; [intros _; lia|].
      assert (forall k v, x !! k = Some v -> str_eqb name k = false ->
                          x0 !! k = Some v) as Hequ_keep.
      { intros k v Hv Hnk.
        destruct (eval_expr op1 x) as [val|[m| | |]]; simpl in Hx;
          try discriminate; injection Hx as <-; try exact Hv.
        rewrite lookup_insert_ne; [exact Hv|].
        intros ->. rewrite str_eqb_refl in Hnk. discriminate. }
      assert (forall k, is_Some (x !! k) -> is_Some (x0 !! k)) as Hequ_some.
      { intros k [v Hv].
        destruct (eval_expr op1 x) as [val|[m| | |]]; simpl in Hx;
          try discriminate; injection Hx as <-; eauto.
        destruct (decide (name = k)) as [->|Hn].
        * rewrite lookup_insert_eq. eauto.
        * rewrite lookup_insert_ne by exact Hn. eauto. }
      split; [|split].
      + intros k v Hv _ Hk. rewrite Hdef in Hk. eauto.
      + intros k [v Hv]. apply Hequ_some. eauto.
      + intros l Hl. destruct (Hlab l Hl) as [Hn Hs]. split; [exact Hn|].
        split; [apply Hequ_some; eauto|].
        rewrite Hdef. intros Hk. eauto. }
    injection H as <-. simpl.
    assert (not_org_equ sl = true) as ->
      by (unfold not_org_equ; rewrite Horg, Hequ; reflexivity).
    split; [reflexivity|]. split; [reflexivity|].
    split; [intros; apply Hkeep; assumption|].
    split; [intros k [v Hv]; eauto|].
    intros l Hl. destruct (Hlab l Hl). eauto.
  - injection H as <-. simpl.
    rewrite (not_org_equ_no_mnemonic _ Htr).
    rewrite (instruction_size_no_mnemonic _ _ Htr).
    split; [reflexivity|]. split; [intros _; lia|].
    split; [intros; apply Hkeep; assumption|].
    split; [intros k [v Hv]; eauto|].
    intros l Hl. destruct (Hlab l Hl). eauto.
Qed.

Lemma pass1_loop_located frozen lines : forall st st',
  pass1_loop frozen st lines = OK st' ->
  (p1_located st').*1 = (p1_located st).*1 ++ List.filter not_org_equ lines.
Proof.
  induction lines as [|sl rest IH]; intros st st' H; simpl in H.
  - injection H as <-. simpl. rewrite app_nil_r. reflexivity.
  - inv_bind H. apply pass1_step_cases in Hx as (Hloc & _).
    rewrite (IH _ _ H), Hloc, fmap_app, <- app_assoc. f_equal.
    simpl. destruct (not_org_equ sl); reflexivity.
Qed.

(** X1: pass 1 hands to pass 2 exactly the lines that are neither [.org]
    nor [.equ], in source order. *)
Theorem pass1_locates_all_but_org_equ (lines : list SourceLine)
  (predefined symbols : gmap string Z) (located : list (SourceLine * Z))
  (H : pass1 lines predefined = OK (symbols, located)) :
  located.*1 = List.filter not_org_equ lines.
Proof.
  unfold pass1 in H. inv_bind H. injection H as <- <-.
  apply pass1_loop_located in Hx. exact Hx.
Qed.

Lemma total_size_cons sl l :
  total_size (sl :: l) = instruction_size sl ∅ + total_size l.
Proof. reflexivity. Qed.

Lemma pass1_loop_layout frozen lines : forall st st',
  Forall (fun sl => str_eqb (mn_upper sl) ".ORG" = false) lines ->
  pass1_loop frozen st lines = OK st' ->
  exists ext,
    p1_located st' = p1_located st ++ ext
    /\ p1_lc st' = p1_lc st + total_size ext.*1
    /\ forall (i : nat) sl a,
         ext !! i = Some (sl, a) -> a = p1_lc st + total_size (take i ext.*1).
Proof.
  induction lines as [|sl rest IH]; intros st st' Hno H; simpl in H.
  - injection H as <-. exists []. rewrite app_nil_r.
    split; [reflexivity|]. split; [simpl; unfold total_size; simpl; lia|].
    intros i sl a Hi. destruct i; discriminate.
  - inv_bind H. inversion Hno as [|? ? Hsl Hrest]; subst.
    apply pass1_step_cases in Hx as (Hloc & Hlc & _).
    specialize (Hlc Hsl).
    destruct (IH _ _ Hrest H) as (ext & Hl2 & Hlc2 & Haddr).
    destruct (not_org_equ sl).
    + exists ((sl, p1_lc st) :: ext).
      rewrite Hl2, Hloc, <- app_assoc. split; [reflexivity|].
      split.
      * rewrite Hlc2, Hlc, fmap_cons, total_size_cons. simpl. lia.
      * intros [|i] sl' a Hi; simpl in Hi.
        { injection Hi as <- <-. unfold total_size. simpl. lia. }
        apply Haddr in Hi. rewrite Hi, Hlc, fmap_cons.
        rewrite firstn_cons, total_size_cons. simpl. lia.
    + exists ext. rewrite Hl2, Hloc, app_nil_r. split; [reflexivity|].
      rewrite Hlc2, Hlc, Z.add_0_r. split; [reflexivity|].
      intros i sl' a Hi. apply Haddr in Hi. rewrite Hi, Hlc. lia.
Qed.

(** X2: in a source without [.org], the lines are laid out back to back
    from address 0: each located line sits at the sum of the sizes of the
    located lines before it. *)
Theorem pass1_layout_is_contiguous (lines : list SourceLine)
  (predefined symbols : gmap string Z) (located : list (SourceLine * Z))
  (Hno : Forall (fun sl => str_eqb (mn_upper sl) ".ORG" = false) lines)
  (H : pass1 lines predefined = OK (symbols, located)) :
  forall (i : nat) sl a,
    located !! i = Some (sl, a) -> a = total_size (take i located.*1).
Proof.
  unfold pass1 in H. inv_bind H. injection H as <- <-.
  destruct (pass1_loop_layout _ _ _ _ Hno Hx) as (ext & Hl & _ & Haddr).
  simpl in Hl, Haddr. rewrite Hl. exact Haddr.
Qed.

Lemma pass1_loop_labels frozen lines : forall st st',
  pass1_loop frozen st lines = OK st' ->
  NoDup (omap label_of lines)
  /\ (forall l, l ∈ omap label_of lines ->
        p1_symbols st !! l = None /\ is_Some (p1_symbols st' !! l))
  /\ (forall k, is_Some (p1_symbols st !! k) -> is_Some (p1_symbols st' !! k)).
Proof.
  induction lines as [|sl rest IH]; intros st st' H; simpl in H.
  - injection H as <-. simpl. split; [constructor|].
    split; [|auto]. intros l Hl. inversion Hl.
  - inv_bind H.
    apply pass1_step_cases in Hx as (_ & _ & _ & Hsome & Hlab).
    destruct (IH _ _ H) as (Hnd & Hin & Hsome2).
    assert (forall l, l ∈ omap label_of rest -> p1_symbols st !! l = None) as Hnone.
    { intros l Hl. destruct (Hin l Hl) as [Hn _].
      destruct (p1_symbols st !! l) eqn:Hst; [|reflexivity].
      destruct (Hsome l (ex_intro _ _ Hst)) as [v Hv]. congruence. }
    simpl. destruct (label_of sl) as [l0|] eqn:Hl0.
    + destruct (Hlab l0 eq_refl) as (Hn0 & Hs0 & _).
      split; [|split].
      * constructor; [|exact Hnd].
        intros Hmem. destruct (Hin l0 Hmem) as [Hn _].
        destruct Hs0 as [v Hv]. congruence.
      * intros l Hl. apply elem_of_cons in Hl as [->|Hl].
        { split; [exact Hn0|]. apply Hsome2. exact Hs0. }
        split; [apply Hnone; exact Hl|]. apply Hin. exact Hl.
      * intros k Hk. auto.
    + split; [exact Hnd|]. split; [|auto].
      intros l Hl. split; [apply Hnone; exact Hl|]. apply Hin. exact Hl.
Qed.

(** X3: when pass 1 succeeds, no two lines define the same label, no
    label repeats a predefined name, and every label is in the symbol
    table it returns. *)
Theorem pass1_labels_are_distinct (lines : list SourceLine)
  (predefined symbols : gmap string Z) (located : list (SourceLine * Z))
  (H : pass1 lines predefined = OK (symbols, located)) :
  NoDup (omap label_of lines)
  /\ forall l, l ∈ omap label_of lines ->
       predefined !! l = None /\ is_Some (symbols !! l).
Proof.
  unfold pass1 in H. inv_bind H. injection H as <- <-.
  apply pass1_loop_labels in Hx as (Hnd & Hin & _). auto.
Qed.

Lemma pass1_loop_label_value frozen l lines : forall st st',
  Forall (fun sl => equ_defines l sl = false) lines ->
  pass1_loop frozen st lines = OK st' ->
  (forall v, p1_symbols st !! l = Some v -> p1_symbols st' !! l = Some v)
  /\ exists ext,
       p1_located st' = p1_located st ++ ext
       /\ forall sl a, (sl, a) ∈ ext -> label_of sl = Some l ->
                       p1_symbols st' !! l = Some a.
Proof.
  induction lines as [|sl rest IH]; intros st st' Hno H; simpl in H.
  - injection H as <-. split; [auto|]. exists []. rewrite app_nil_r.
    split; [reflexivity|]. intros sl a Hin. inversion Hin.
  - inv_bind H. inversion Hno as [|? ? Hsl Hrest]; subst.
    apply pass1_step_cases in Hx as (Hloc & _ & Hkeep & _ & Hlab).
    destruct (IH _ _ Hrest H) as (Hk2 & ext & Hl2 & Hval).
    split.
    + intros v Hv. apply Hk2. apply Hkeep; [exact Hv| |exact Hsl].
      intros Hl. destruct (Hlab l Hl) as [Hn _]. congruence.
    + exists ((if not_org_equ sl then [(sl, p1_lc st)] else []) ++ ext).
      rewrite Hl2, Hloc, <- app_assoc. split; [reflexivity|].
      intros sl' a Hin Hl'. apply elem_of_app in Hin as [Hin|Hin]; [|eauto].
      destruct (not_org_equ sl); [|inversion Hin].
      apply list_elem_of_singleton in Hin. injection Hin as -> ->.
      apply Hk2. destruct (Hlab l Hl') as (_ & _ & Hs). auto.
Qed.

(** X4: a label is bound to the address of the line that carries it,
    provided no [.equ] of the source assigns the same name. *)
Theorem pass1_label_is_line_address (lines : list SourceLine)
  (predefined symbols : gmap string Z) (located : list (SourceLine * Z))
  (sl : SourceLine) (a : Z) (l : string)
  (H : pass1 lines predefined = OK (symbols, located))
  (Hin : (sl, a) ∈ located)
  (Hl : label_of sl = Some l)
  (Hno : Forall (fun x => equ_defines l x = false) lines) :
  symbols !! l = Some a.
Proof.
  unfold pass1 in H. inv_bind H. injection H as <- <-.
  destruct (pass1_loop_label_value _ _ _ _ _ Hno Hx) as (_ & ext & Hloc & Hval).
  simpl in Hloc. rewrite Hloc in Hin. eauto.
Qed.

Lemma sample_pass1 : pass1 sample_lines ∅ = OK (sample_symbols, sample_located).
Proof. vm_compute. reflexivity. Qed.

Lemma pass1_locates_all_but_org_equ_witness :
  pass1 sample_lines ∅ = OK (sample_symbols, sample_located)
  /\ sample_located.*1 = List.filter not_org_equ sample_lines.
Proof.
  split; [exact sample_pass1|].
  exact (pass1_locates_all_but_org_equ sample_lines ∅ sample_symbols
           sample_located sample_pass1).
Defined.

Lemma pass1_layout_is_contiguous_witness :
  sample_located !! 3%nat = Some (sample_ret, 8)
  /\ 8 = total_size (take 3 sample_located.*1).
Proof.
  split; [reflexivity|].
  apply (pass1_layout_is_contiguous sample_lines ∅ sample_symbols sample_located)
    with (sl := sample_ret).
  - repeat constructor.
  - exact sample_pass1.
  - reflexivity.
Defined.

Lemma pass1_labels_are_distinct_witness :
  NoDup (omap label_of sample_lines) /\ is_Some (sample_symbols !! "start").
Proof.
  destruct (pass1_labels_are_distinct sample_lines ∅ sample_symbols
              sample_located sample_pass1) as [Hnd Hin].
  split; [exact Hnd|]. apply Hin. repeat constructor.
Defined.

Lemma pass1_label_is_line_address_witness : sample_symbols !! "done" = Some 8.
Proof.
  apply (pass1_label_is_line_address sample_lines ∅ sample_symbols sample_located
           sample_ret 8 "done" sample_pass1).
  - repeat constructor.
  - reflexivity.
  - repeat constructor.
Defined.
(** ** Encoders: sizes, fields and byte order *)

Lemma land_255_mod v : Z.land v 255 = v mod 256.
Proof. change 255 with (Z.ones 8). rewrite Z.land_ones by lia. reflexivity. Qed.

Lemma shiftr_8_div v : Z.shiftr v 8 = v / 256.
Proof. rewrite Z.shiftr_div_pow2 by lia. reflexivity. Qed.

Lemma encode_bytes_length ops symbols : forall data,
  encode_bytes ops symbols = OK data -> List.length data = List.length ops.
Proof.
  induction ops as [|op rest IH]; intros data H; simpl in H.
  - injection H as <-. reflexivity.
  - inv_bind H. destruct ((x <? -128) || (255 <? x)); [discriminate|].
    inv_bind H. injection H as <-. simpl. f_equal. eauto.
Qed.

Lemma encode_words_length ops symbols : forall data,
  encode_words ops symbols = OK data ->
  List.length data = (2 * List.length ops)%nat.
Proof.
  induction ops as [|op rest IH]; intros data H; simpl in H.
  - injection H as <-. reflexivity.
  - inv_bind H. inv_bind H. injection H as <-. simpl.
    rewrite (IH _ eq_refl). lia.
Qed.

Lemma encode_instruction_length enc opc sl symbols data :
  encode_instruction enc opc sl symbols = OK data ->
  enc <> E3std ->
  Z.of_nat (List.length data)
  = match enc with
    | E3std => 3
    | E2reg | E2noreg => 2
    | Elmar => 3
    | Ecmp4 | Edjn4 => 4
    end.
Proof.
  intros H Hne. unfold encode_instruction in H.
  destruct enc; [congruence| | | | |];
    unfold encode_2reg, encode_2noreg, encode_lmar, encode_cmp4, encode_djn4 in H;
    repeat match type of H with
           | match (match ?l with [] => _ | _ :: _ => _ end) with _ => _ end = _ =>
               destruct l
           | match (bind ?r _) with _ => _ end = _ =>
               let v := fresh "v" in destruct r as [v|[]]; simpl in H
           | match (if ?c then _ else _) with _ => _ end = _ => destruct c
           | match (py_bytes ?l) with _ => _ end = _ =>
               let E := fresh "E" in
               destruct (py_bytes l) eqn:E; [apply py_bytes_inv in E; subst|]
           | match (Err ?e) with _ => _ end = _ => simpl in H
           | Err _ = OK _ => discriminate H
           | match ?e with AsmError _ => _ | _ => _ end = OK _ => destruct e
           | OK _ = OK _ => injection H as <-
           end; try reflexivity.
Qed.

(** X5: except for the 3std class, the number of bytes pass 2 writes for a
    line is the size pass 1 reserved for it: directives, two-byte
    instructions, [LMAR] and the compound instructions all agree with
    [instruction_size]. *)
Theorem encoded_length_is_reserved_size (st st' : pass2_state)
  (sl : SourceLine) (a : Z)
  (Hcls : forall opc, opcode_lookup (mn_upper sl) <> Some (opc, E3std))
  (H : pass2_step st (sl, a) = OK st') :
  exists data,
    p2_listing st' = p2_listing st ++ [(a, data, sl)]
    /\ Z.of_nat (List.length data) = instruction_size sl (p2_symbols st).
Proof.
  destruct st as [symbols memory listing]. unfold pass2_step in H.
  destruct (mnemonic sl) as [m|] eqn:Hm.
  2:{ injection H as <-. exists []. split; [reflexivity|].
      unfold instruction_size. rewrite Hm. reflexivity. }
  inv_bind H. rename x into d, Hx into Hd.
  assert (mn_upper sl = upper m) as Hmn by (unfold mn_upper; rewrite Hm; reflexivity).
  unfold instruction_size. rewrite Hm, <- Hmn.
  unfold encode_directive in Hd. simpl.
  destruct (str_eqb (mn_upper sl) ".ORG").
  { inv_bind Hd. inv_bind Hd. injection Hd as <-. simpl in H.
    injection H as <-. exists []. split; reflexivity. }
  destruct (str_eqb (mn_upper sl) ".EQU").
  { inv_bind Hd. inv_bind Hd. inv_bind Hd. injection Hd as <-. simpl in H.
    injection H as <-. exists []. split; reflexivity. }
  destruct (str_eqb (mn_upper sl) ".BYTE").
  { inv_bind Hd. injection Hd as <-. simpl in H. injection H as <-.
    exists x. split; [reflexivity|]. f_equal. eapply encode_bytes_length; eauto. }
  destruct (str_eqb (mn_upper sl) ".WORD").
  { inv_bind Hd. injection Hd as <-. simpl in H. injection H as <-.
    exists x. split; [reflexivity|].
    rewrite (encode_words_length _ _ _ Hx). lia. }
  destruct (str_eqb (mn_upper sl) ".RESETVEC").
  { destruct (operands sl) as [|op0 [|]]; try discriminate.
    inv_bind Hd. injection Hd as <-. simpl in H. injection H as <-.
    exists []. split; reflexivity. }
  destruct (str_eqb (mn_upper sl) "__LOADADDR_HI__").
  { inv_bind Hd. inv_bind Hd. inv_bind Hd. injection Hd as <-. simpl in H.
    injection H as <-. exists []. split; reflexivity. }
  injection Hd as <-. simpl in H.
  destruct (opcode_lookup (mn_upper sl)) as [[opc enc]|] eqn:Hop; [|discriminate].
  inv_bind H. injection H as <-. exists x. split; [reflexivity|].
  apply encode_instruction_length in Hx; [exact Hx|].
  intros ->. exact (Hcls opc eq_refl).
Qed.

Lemma encoded_length_is_reserved_size_witness :
  exists st' data,
    pass2_step (mkP2 ∅ ∅ []) (line ".WORD" ["0x1234"; "7"], 0x20) = OK st'
    /\ p2_listing st' = [(0x20, data, line ".WORD" ["0x1234"; "7"])]
    /\ Z.of_nat (List.length data) = 4.
Proof.
  destruct (pass2_step (mkP2 ∅ ∅ []) (line ".WORD" ["0x1234"; "7"], 0x20))
    as [st'|e] eqn:H; [|vm_compute in H; discriminate H].
  assert (forall opc, opcode_lookup (mn_upper (line ".WORD" ["0x1234"; "7"]))
                      <> Some (opc, E3std)) as Hcls
    by (intros opc E; vm_compute in E; discriminate E).
  destruct (encoded_length_is_reserved_size _ st' _ _ Hcls H) as (data & Hl & Hn).
  exists st', data. split; [reflexivity|]. split; [exact Hl|exact Hn].
Defined.

(** ** [.byte] and [.word] *)

Lemma encode_bytes_values ops symbols : forall data,
  encode_bytes ops symbols = OK data ->
  forall (i : nat) op, ops !! i = Some op ->
    exists v, eval_expr op symbols = OK v /\ -128 <= v <= 255
              /\ data !! i = Some (v mod 256).
Proof.
  induction ops as [|op0 rest IH]; intros data H i op Hi; [destruct i; discriminate|].
  simpl in H. inv_bind H.
  destruct ((x <? -128) || (255 <? x)) eqn:Hr; [discriminate|].
  inv_bind H. injection H as <-.
  destruct i as [|i]; simpl in Hi.
  - injection Hi as <-. exists x. split; [exact Hx|]. split; [lia|].
    simpl. rewrite land_255_mod. reflexivity.
  - simpl. eauto.
Qed.

Lemma encode_bytes_accepts ops symbols : forall vs,
  Forall2 (fun o w => eval_expr o symbols = OK w /\ -128 <= w <= 255) ops vs ->
  encode_bytes ops symbols = OK (List.map (fun w => w mod 256) vs).
Proof.
  intros vs H. induction H as [|o w ops vs [Hw Hr] _ IH]; [reflexivity|].
  simpl. rewrite Hw. simpl.
  destruct ((w <? -128) || (255 <? w)) eqn:Hc; [lia|].
  rewrite IH. simpl. rewrite land_255_mod. reflexivity.
Qed.

(** X6: [.byte] accepts the values from -128 to 255 and stores each one
    modulo 256, one byte per operand: operands that all evaluate into
    that range are encoded, as the list of their values modulo 256;
    whatever is encoded came from such operands; and the first operand
    outside that range makes the directive fail with the range error. *)
Theorem byte_directive_range (symbols : gmap string Z) :
  (forall ops vs,
     Forall2 (fun o w => eval_expr o symbols = OK w /\ -128 <= w <= 255) ops vs ->
     encode_bytes ops symbols = OK (List.map (fun w => w mod 256) vs)) /\
  (forall ops data,
     encode_bytes ops symbols = OK data ->
     List.length data = List.length ops
     /\ forall (i : nat) op, ops !! i = Some op ->
          exists v, eval_expr op symbols = OK v /\ -128 <= v <= 255
                    /\ data !! i = Some (v mod 256)) /\
  (forall pre op post v,
     Forall (fun o => exists w, eval_expr o symbols = OK w /\ -128 <= w <= 255) pre ->
     eval_expr op symbols = OK v -> v < -128 \/ 255 < v ->
     encode_bytes (pre ++ op :: post) symbols = Err (AsmError ByteOutOfRange)).
Proof.
  split; [|split].
  - intros ops vs H. apply encode_bytes_accepts. exact H.
  - intros ops data H. split; [eapply encode_bytes_length; eauto|].
    eapply encode_bytes_values; eauto.
  - intros pre op post v Hpre Hv Hout.
    induction Hpre as [|o pre (w & Hw & Hr) _ IH]; simpl.
    + rewrite Hv. simpl.
      destruct ((v <? -128) || (255 <? v)) eqn:Hc; [reflexivity|lia].
    + rewrite Hw. simpl.
      destruct ((w <? -128) || (255 <? w)) eqn:Hc; [lia|].
      rewrite IH. reflexivity.
Qed.

Lemma encode_words_values ops symbols : forall data,
  encode_words ops symbols = OK data ->
  forall (i : nat) op, ops !! i = Some op ->
    exists v, eval_expr op symbols = OK v
              /\ data !! (2 * i)%nat = Some (v mod 256)
              /\ data !! (2 * i + 1)%nat = Some (v / 256 mod 256).
Proof.
  induction ops as [|op0 rest IH]; intros data H i op Hi; [destruct i; discriminate|].
  simpl in H. inv_bind H. inv_bind H. injection H as <-.
  destruct i as [|i]; simpl in Hi.
  - injection Hi as <-. exists x. split; [exact Hx|]. simpl.
    rewrite low_byte_of_word, high_byte_of_word, land_255_mod, land_255_mod.
    rewrite shiftr_8_div. split; reflexivity.
  - destruct (IH _ eq_refl _ _ Hi) as (v & Hv & H0 & H1).
    exists v. split; [exact Hv|].
    replace (2 * S i)%nat with (S (S (2 * i))) by lia.
    replace (S (S (2 * i)) + 1)%nat with (S (S (2 * i + 1))) by lia.
    simpl. split; assumption.
Qed.

(** X7: [.word] has no range check: whenever its operands evaluate it
    succeeds, and it stores each value modulo 65536 as two bytes, low
    byte first. *)
Theorem word_directive_little_endian (symbols : gmap string Z) :
  (forall ops,
     Forall (fun o => exists v, eval_expr o symbols = OK v) ops ->
     exists data, encode_words ops symbols = OK data) /\
  (forall ops data,
     encode_words ops symbols = OK data ->
     List.length data = (2 * List.length ops)%nat
     /\ forall (i : nat) op, ops !! i = Some op ->
          exists v, eval_expr op symbols = OK v
                    /\ data !! (2 * i)%nat = Some (v mod 256)
                    /\ data !! (2 * i + 1)%nat = Some (v / 256 mod 256)).
Proof.
  split.
  - intros ops Hall. induction Hall as [|o ops (v & Hv) _ (data & IH)]; simpl.
    + eauto.
    + rewrite Hv, IH. simpl. eauto.
  - intros ops data H. split; [eapply encode_words_length; eauto|].
    eapply encode_words_values; eauto.
Qed.

Lemma byte_directive_range_witness :
  encode_bytes ["-128"; "255"] ∅ = OK [128; 255]
  /\ encode_bytes (["1"] ++ "256" :: ["2"]) ∅ = Err (AsmError ByteOutOfRange).
Proof.
  split.
  - apply (proj1 (byte_directive_range ∅) ["-128"; "255"] [-128; 255]).
    constructor; [split; [vm_compute; reflexivity|lia]|].
    constructor; [split; [vm_compute; reflexivity|lia]|].
    constructor.
  - apply (proj2 (proj2 (byte_directive_range ∅)) ["1"] "256" ["2"] 256).
    + constructor; [|apply Forall_nil; exact I].
      exists 1. split; [vm_compute; reflexivity|lia].
    + vm_compute. reflexivity.
    + lia.
Defined.

Lemma word_directive_little_endian_witness :
  exists data,
    encode_words ["0x12345"; "-1"] ∅ = OK data
    /\ data !! 0%nat = Some 0x45 /\ data !! 1%nat = Some 0x23.
Proof.
  destruct (proj1 (word_directive_little_endian ∅) ["0x12345"; "-1"]) as [data H].
  - constructor; [exists 0x12345; vm_compute; reflexivity|].
    constructor; [exists (-1); vm_compute; reflexivity|constructor].
  - exists data. split; [exact H|].
    vm_compute in H. injection H as <-. split; reflexivity.
Defined.

(** ** [LMAR] *)

(** X8: [LMAR] takes an address from 0 to 0xFFFF and stores it high byte
    first, the opposite of the order [.word] uses for the same value; an
    address outside that range is refused. *)
Theorem lmar_is_big_endian (opc : Z) (sl : SourceLine) (e : string)
  (symbols : gmap string Z) (v : Z)
  (Hopc : 0 <= opc < 256)
  (Hops : operands sl = [e])
  (Hv : eval_expr e symbols = OK v) :
  (0 <= v <= 0xFFFF ->
   encode_lmar opc sl symbols = OK [opc; v / 256; v mod 256]
   /\ encode_words [e] symbols = OK [v mod 256; v / 256]) /\
  (v < 0 \/ 0xFFFF < v ->
   encode_lmar opc sl symbols = Err (AsmError LmarOutOfRange)).
Proof.
  unfold encode_lmar. rewrite Hops, Hv. simpl. split.
  - intros Hr.
    destruct ((v <? 0) || (65535 <? v)) eqn:Hc; [lia|].
    rewrite Hv. simpl.
    rewrite low_byte_of_word, high_byte_of_word.
    rewrite !land_255_mod, !shiftr_8_div.
    assert (v / 256 mod 256 = v / 256) as ->.
    { apply Z.mod_small. split; [apply Z.div_pos; lia|].
      apply Z.div_lt_upper_bound; lia. }
    split; [|reflexivity].
    apply py_bytes_OK. simpl.
    assert (0 <= v / 256 < 256)
      by (split; [apply Z.div_pos; lia|apply Z.div_lt_upper_bound; lia]).
    pose proof (Z.mod_pos_bound v 256 ltac:(lia)).
    unfold is_byte.
    repeat (apply andb_true_intro; split); try reflexivity; lia.
  - intros Hr. destruct ((v <? 0) || (65535 <? v)) eqn:Hc; [reflexivity|lia].
Qed.

Lemma lmar_is_big_endian_witness :
  encode_lmar 0x2E (line "LMAR" ["0x1234"]) ∅ = OK [0x2E; 0x12; 0x34]
  /\ encode_words ["0x1234"] ∅ = OK [0x34; 0x12]
  /\ encode_lmar 0x2E (line "LMAR" ["0x10000"]) ∅ = Err (AsmError LmarOutOfRange).
Proof.
  destruct (lmar_is_big_endian 0x2E (line "LMAR" ["0x1234"]) "0x1234" ∅ 0x1234
              ltac:(lia) eq_refl ltac:(vm_compute; reflexivity)) as [H _].
  destruct (H ltac:(lia)) as [H1 H2].
  split; [exact H1|]. split; [exact H2|].
  apply (lmar_is_big_endian 0x2E (line "LMAR" ["0x10000"]) "0x10000" ∅ 0x10000
           ltac:(lia) eq_refl ltac:(vm_compute; reflexivity)).
  lia.
Defined.

(** ** Compound instructions *)

(** X9: [DJN Rs, Rjmp] is encoded exactly as the four-operand compound
    form with [R0] as second source and [Rs] as destination, errors
    included. *)
Theorem djn_is_compound_with_r0 (opc : Z) (sl sl' : SourceLine)
  (rs rjmp : string) (symbols : gmap string Z)
  (Hops : operands sl = [rs; rjmp])
  (Hops' : operands sl' = [rs; "R0"; rs; rjmp]) :
  encode_djn4 opc sl symbols = encode_cmp4 opc sl' symbols.
Proof.
  unfold encode_djn4, encode_cmp4. rewrite Hops, Hops'.
  destruct (parse_register rs) as [n|e]; [|reflexivity]. simpl.
  change (parse_register "R0") with (OK 0 : result Z). simpl.
  destruct (parse_register rjmp) as [j|e]; reflexivity.
Qed.

Lemma djn_is_compound_with_r0_witness :
  encode_djn4 0x35 (line "DJN" ["R3"; "R7"]) ∅
  = encode_cmp4 0x35 (line "ALE" ["R3"; "R0"; "R3"; "R7"]) ∅
  /\ encode_djn4 0x35 (line "DJN" ["R3"; "R7"]) ∅ = OK [0x35; 0x30; 0x30; 0x70].
Proof.
  split; [|vm_compute; reflexivity].
  exact (djn_is_compound_with_r0 0x35 (line "DJN" ["R3"; "R7"])
           (line "ALE" ["R3"; "R0"; "R3"; "R7"]) "R3" "R7" ∅ eq_refl eq_refl).
Defined.

(** ** Register fields *)

Lemma shift2_read_back n : 0 <= n <= 15 ->
  Z.shiftr (Z.lor (Z.shiftl 0 6) (Z.shiftl n 2)) 2 = n
  /\ Z.shiftr (Z.shiftl n 2) 2 = n /\ Z.shiftr (Z.shiftl n 4) 4 = n.
Proof.
  intros Hn.
  assert (forallb (fun n =>
            (Z.shiftr (Z.lor (Z.shiftl 0 6) (Z.shiftl n 2)) 2 =? n)
            && (Z.shiftr (Z.shiftl n 2) 2 =? n)
            && (Z.shiftr (Z.shiftl n 4) 4 =? n)) regs = true) as Hall
    by (vm_compute; reflexivity).
  pose proof (forall_regs _ Hall n Hn) as H.
  apply andb_true_iff in H as [H H3]. apply andb_true_iff in H as [H1 H2].
  lia.
Qed.

Lemma pair_read_back ra rb : 0 <= ra <= 15 -> 0 <= rb <= 15 ->
  Z.shiftr (Z.lor (Z.shiftl ra 4) rb) 4 = ra
  /\ Z.land (Z.lor (Z.shiftl ra 4) rb) 15 = rb.
Proof.
  intros Ha Hb.
  assert (forallb (fun ra => forallb (fun rb =>
            (Z.shiftr (Z.lor (Z.shiftl ra 4) rb) 4 =? ra)
            && (Z.land (Z.lor (Z.shiftl ra 4) rb) 15 =? rb)) regs) regs = true)
    as Hall by (vm_compute; reflexivity).
  pose proof (forall_regs _ Hall ra Ha) as H. cbv beta in H.
  pose proof (forall_regs _ H rb Hb) as H'. cbv beta in H'.
  apply andb_true_iff in H' as [H1 H2]. lia.
Qed.

(** X10: the register numbers can be read back from the encoded bytes.  A
    three-address instruction keeps the destination in bits 5:2 of byte 1
    and the two sources in the halves of byte 2; a compound instruction
    keeps its four registers in the high and low halves of bytes 1 to 3;
    a single-register instruction keeps it in bits 5:2 of byte 1.  So two
    lines that encode to the same bytes name the same registers. *)
Theorem register_fields_read_back (opc : Z) (symbols : gmap string Z) :
  (forall sl a b c b0 b1 b2 b3,
     operands sl = [a; b; c] ->
     in_strings (mn_upper sl) SINGLE_OPERAND = false ->
     encode_3std opc sl symbols = OK [b0; b1; b2; b3] ->
     b0 = opc /\ b3 = 0
     /\ parse_register a = OK (Z.shiftr b1 2)
     /\ parse_register b = OK (Z.shiftr b2 4)
     /\ parse_register c = OK (Z.land b2 15)) /\
  (forall sl a b c d b0 b1 b2 b3,
     operands sl = [a; b; c; d] ->
     encode_cmp4 opc sl symbols = OK [b0; b1; b2; b3] ->
     b0 = opc
     /\ parse_register a = OK (Z.shiftr b1 4)
     /\ parse_register b = OK (Z.land b1 15)
     /\ parse_register c = OK (Z.shiftr b2 4)
     /\ parse_register d = OK (Z.shiftr b3 4)) /\
  (forall sl a b0 b1,
     operands sl = [a] ->
     encode_2reg opc sl symbols = OK [b0; b1] ->
     b0 = opc /\ parse_register a = OK (Z.shiftr b1 2)).
Proof.
  split; [|split].
  - intros sl a b c b0 b1 b2 b3 Hops Hsingle H.
    unfold encode_3std in H. rewrite Hops, Hsingle in H. simpl in H.
    destruct (parse_register a) as [rd|] eqn:Ha; [simpl in H|discriminate].
    destruct (parse_register b) as [rs1|] eqn:Hb; [simpl in H|discriminate].
    destruct (parse_register c) as [rs2|] eqn:Hc; [simpl in H|discriminate].
    apply py_bytes_inv in H. injection H as -> -> -> ->.
    apply parse_register_range in Ha, Hb, Hc.
    destruct (shift2_read_back rd Ha) as (-> & _ & _).
    destruct (pair_read_back rs1 rs2 Hb Hc) as (-> & ->).
    auto.
  - intros sl a b c d b0 b1 b2 b3 Hops H.
    unfold encode_cmp4 in H. rewrite Hops in H.
    destruct (parse_register a) as [rs1|] eqn:Ha; [simpl in H|discriminate].
    destruct (parse_register b) as [rs2|] eqn:Hb; [simpl in H|discriminate].
    destruct (parse_register c) as [rd|] eqn:Hc; [simpl in H|discriminate].
    destruct (parse_register d) as [rj|] eqn:Hd; [simpl in H|discriminate].
    apply py_bytes_inv in H. injection H as -> -> -> ->.
    apply parse_register_range in Ha, Hb, Hc, Hd.
    destruct (pair_read_back rs1 rs2 Ha Hb) as (-> & ->).
    destruct (shift2_read_back rd Hc) as (_ & _ & ->).
    destruct (shift2_read_back rj Hd) as (_ & _ & ->).
    auto.
  - intros sl a b0 b1 Hops H.
    unfold encode_2reg in H. rewrite Hops in H.
    destruct (parse_register a) as [rn|] eqn:Ha; [simpl in H|discriminate].
    apply py_bytes_inv in H. injection H as -> ->.
    apply parse_register_range in Ha.
    destruct (shift2_read_back rn Ha) as (_ & -> & _).
    auto.
Qed.

Lemma register_fields_read_back_witness :
  encode_3std 0 add_3addr ∅ = OK [0; 0x04; 0x23; 0]
  /\ parse_register "R1" = OK (Z.shiftr 0x04 2)
  /\ parse_register "R2" = OK (Z.shiftr 0x23 4)
  /\ parse_register "R3" = OK (Z.land 0x23 15).
Proof.
  assert (encode_3std 0 add_3addr ∅ = OK [0; 0x04; 0x23; 0]) as H
    by (vm_compute; reflexivity).
  split; [exact H|].
  destruct (proj1 (register_fields_read_back 0 ∅) add_3addr "R1" "R2" "R3"
              0 0x04 0x23 0 eq_refl eq_refl H) as (_ & _ & H1 & H2 & H3).
  auto.
Defined.
(** ** Pass 2: what it writes *)

Lemma py_bytes_range l bs : py_bytes l = OK bs -> Forall byte_range bs.
Proof.
  unfold py_bytes. destruct (forallb _ l) eqn:H; [|discriminate].
  intros [= <-]. rewrite forallb_forall in H. apply List.Forall_forall.
  intros b Hb. specialize (H b Hb). unfold byte_range. lia.
Qed.

Lemma encode_instruction_range enc opc sl symbols data :
  encode_instruction enc opc sl symbols = OK data -> Forall byte_range data.
Proof.
  unfold encode_instruction. intros H.
  assert (exists r, r = OK data /\
            match enc with
            | E3std => encode_3std opc sl symbols
            | E2reg => encode_2reg opc sl symbols
            | E2noreg => encode_2noreg opc sl symbols
            | Elmar => encode_lmar opc sl symbols
            | Ecmp4 => encode_cmp4 opc sl symbols
            | Edjn4 => encode_djn4 opc sl symbols
            end = r) as (r & -> & Hr).
  { eexists. split; [|reflexivity].
    destruct (match enc with E3std => _ | _ => _ end) as [d|[]];
      simpl in H; congruence. }
  clear H. rename Hr into H.
  destruct enc;
    unfold encode_3std, encode_2reg, encode_2noreg, encode_lmar, encode_cmp4,
      encode_djn4 in H;
    repeat match type of H with
           | (if ?c then _ else _) = _ => destruct c
           | bind _ _ = OK _ => inv_bind H
           | match ?l with [] => _ | _ :: _ => _ end = _ => destruct l
           | match ?o with Some _ => _ | None => _ end = _ => destruct o
           | Err _ = OK _ => discriminate H
           end;
    eapply py_bytes_range; eauto.
Qed.

Lemma encode_bytes_range ops symbols : forall data,
  encode_bytes ops symbols = OK data -> Forall byte_range data.
Proof.
  induction ops as [|op rest IH]; intros data H; simpl in H.
  - injection H as <-. constructor.
  - inv_bind H. destruct ((x <? -128) || (255 <? x)); [discriminate|].
    inv_bind H. injection H as <-. constructor; [|eauto].
    unfold byte_range. rewrite land_255_mod.
    pose proof (Z.mod_pos_bound x 256). lia.
Qed.

Lemma encode_words_range ops symbols : forall data,
  encode_words ops symbols = OK data -> Forall byte_range data.
Proof.
  induction ops as [|op rest IH]; intros data H; simpl in H.
  - injection H as <-. constructor.
  - inv_bind H. inv_bind H. injection H as <-.
    constructor; [|constructor; [|eauto]];
      unfold byte_range; rewrite land_255_mod;
      match goal with |- 0 <= ?v mod 256 < 256 =>
        pose proof (Z.mod_pos_bound v 256); lia end.
Qed.

Lemma store_bytes_lookup data : forall memory lc x b,
  store_bytes memory lc data !! x = Some b ->
  memory !! x = Some b \/ (In b data /\ lc <= x).
Proof.
  induction data as [|b0 rest IH]; intros memory lc x b H; simpl in H; [auto|].
  apply IH in H as [H|[Hin Hx]].
  - destruct (decide (lc = x)) as [->|Hne].
    + rewrite lookup_insert_eq in H. injection H as <-. right. simpl. split; [auto|lia].
    + rewrite lookup_insert_ne in H by exact Hne. auto.
  - right. simpl. split; [auto|lia].
Qed.

Lemma store_bytes_keeps data : forall memory lc x,
  is_Some (memory !! x) -> is_Some (store_bytes memory lc data !! x).
Proof.
  induction data as [|b0 rest IH]; intros memory lc x H; simpl; [exact H|].
  apply IH. destruct (decide (lc = x)) as [->|Hne].
  - rewrite lookup_insert_eq. eauto.
  - rewrite lookup_insert_ne by exact Hne. exact H.
Qed.

(** One iteration of the encoding loop: the cells it may change, and the
    cells it keeps. *)
Lemma pass2_step_memory st sl a st' :
  pass2_step st (sl, a) = OK st' ->
  (forall x b, p2_memory st' !! x = Some b ->
     p2_memory st !! x = Some b
     \/ (byte_range b /\ (a <= x \/ x = 0xFFFC \/ x = 0xFFFD)))
  /\ (forall x, is_Some (p2_memory st !! x) -> is_Some (p2_memory st' !! x))
  /\ (forall m, mnemonic sl = Some m -> mn_upper sl = ".RESETVEC" ->
        is_Some (p2_memory st' !! 0xFFFC) /\ is_Some (p2_memory st' !! 0xFFFD)).
Proof.
  destruct st as [symbols memory listing]. unfold pass2_step.
  destruct (mnemonic sl) as [m|] eqn:Hm.
  2:{ intros [= <-]. simpl. split; [auto|]. split; [auto|]. discriminate. }
  intros H. inv_bind H. rename x into d, Hx into Hd.
  assert (exists data,
             p2_memory st' = store_bytes (dir_memory d) a data
             /\ Forall byte_range data) as (data & Hmem & Hdata).
  { destruct (dir_data d) as [data|] eqn:Hdd.
    - injection H as <-. exists data. split; [reflexivity|].
      unfold encode_directive in Hd.
      repeat match type of Hd with
             | (if ?c then _ else _) = _ => destruct c
             | bind _ _ = OK _ => inv_bind Hd
             | match ?l with [] => _ | _ :: _ => _ end = _ => destruct l
             | Err _ = OK _ => discriminate Hd
             | OK _ = OK _ => injection Hd as <-; simpl in Hdd;
                              injection Hdd as <-
             end;
      try (eapply encode_bytes_range; eassumption);
      try (eapply encode_words_range; eassumption);
      try (apply Forall_nil; exact I).
      injection Hd as <-. discriminate Hdd.
    - destruct (opcode_lookup (mn_upper sl)) as [[opc enc]|]; [|discriminate].
      inv_bind H. injection H as <-. exists x. split; [reflexivity|].
      eapply encode_instruction_range; eauto. }
  assert ((dir_memory d = memory /\ str_eqb (mn_upper sl) ".RESETVEC" = false)
          \/ exists lo hi, byte_range lo /\ byte_range hi /\
               dir_memory d = <[0xFFFD := hi]> (<[0xFFFC := lo]> memory))
    as Hdm.
  { clear H Hmem. unfold encode_directive in Hd.
    destruct (str_eqb (mn_upper sl) ".ORG") eqn:E1.
    { apply str_eqb_eq in E1. rewrite E1.
      inv_bind Hd. inv_bind Hd. injection Hd as <-. left. split; reflexivity. }
    destruct (str_eqb (mn_upper sl) ".EQU") eqn:E2.
    { apply str_eqb_eq in E2. rewrite E2.
      inv_bind Hd. inv_bind Hd. inv_bind Hd. injection Hd as <-.
      left. split; reflexivity. }
    destruct (str_eqb (mn_upper sl) ".BYTE") eqn:E3.
    { apply str_eqb_eq in E3. rewrite E3.
      inv_bind Hd. injection Hd as <-. left. split; reflexivity. }
    destruct (str_eqb (mn_upper sl) ".WORD") eqn:E4.
    { apply str_eqb_eq in E4. rewrite E4.
      inv_bind Hd. injection Hd as <-. left. split; reflexivity. }
    destruct (str_eqb (mn_upper sl) ".RESETVEC") eqn:E5.
    { destruct (operands sl) as [|op0 [|]]; try discriminate.
      inv_bind Hd. injection Hd as <-. right. simpl.
      eexists _, _. split; [|split; [|reflexivity]];
        unfold byte_range; rewrite land_255_mod;
        match goal with |- 0 <= ?v mod 256 < 256 =>
          pose proof (Z.mod_pos_bound v 256); lia end. }
    destruct (str_eqb (mn_upper sl) "__LOADADDR_HI__") eqn:E6.
    { inv_bind Hd. inv_bind Hd. inv_bind Hd. injection Hd as <-.
      left. split; reflexivity. }
    injection Hd as <-. left. split; reflexivity. }
  rewrite Hmem. simpl. clear Hmem H.
  split; [|split].
  - intros x b Hx. apply store_bytes_lookup in Hx as [Hx|[Hin Hx]].
    + destruct Hdm as [[Hdm _]|(lo & hi & Hlo & Hhi & Hdm)];
        rewrite Hdm in Hx; [auto|].
      destruct (decide (0xFFFD = x)) as [<-|Hn1].
      { rewrite lookup_insert_eq in Hx. injection Hx as <-. right. auto. }
      rewrite lookup_insert_ne in Hx by exact Hn1.
      destruct (decide (0xFFFC = x)) as [<-|Hn2].
      { rewrite lookup_insert_eq in Hx. injection Hx as <-. right. auto. }
      rewrite lookup_insert_ne in Hx by exact Hn2. auto.
    + right. split; [|auto].
      rewrite List.Forall_forall in Hdata. auto.
  - intros x Hx. apply store_bytes_keeps.
    destruct Hdm as [[Hdm _]|(lo & hi & _ & _ & Hdm)];
      rewrite Hdm; [exact Hx|].
    destruct (decide (0xFFFD = x)) as [<-|Hn1]; [rewrite lookup_insert_eq; eauto|].
    rewrite lookup_insert_ne by exact Hn1.
    destruct (decide (0xFFFC = x)) as [<-|Hn2]; [rewrite lookup_insert_eq; eauto|].
    rewrite lookup_insert_ne by exact Hn2. exact Hx.
  - intros m' _ Hrv.
    destruct Hdm as [[_ Hne]|(lo & hi & _ & _ & Hdm)].
    { rewrite Hrv in Hne. discriminate. }
    rewrite Hdm.
    split; apply store_bytes_keeps.
    + rewrite lookup_insert_ne by discriminate. rewrite lookup_insert_eq. eauto.
    + rewrite lookup_insert_eq. eauto.
Qed.

Lemma pass2_loop_memory lo located : forall st st',
  Forall (fun p => lo <= snd p) located ->
  pass2_loop st located = OK st' ->
  (forall x b, p2_memory st' !! x = Some b ->
     p2_memory st !! x = Some b
     \/ (byte_range b /\ (lo <= x \/ x = 0xFFFC \/ x = 0xFFFD)))
  /\ (forall x, is_Some (p2_memory st !! x) -> is_Some (p2_memory st' !! x)).
Proof.
  induction located as [|[sl a] rest IH]; intros st st' Hlo H; simpl in H.
  - injection H as <-. auto.
  - inv_bind H. inversion Hlo as [|? ? Ha Hrest]; subst. simpl in Ha.
    apply pass2_step_memory in Hx as (Hnew & Hkeep & _).
    destruct (IH _ _ Hrest H) as (Hnew2 & Hkeep2).
    split; [|auto].
    intros y b Hy. apply Hnew2 in Hy as [Hy|Hy]; [|auto].
    apply Hnew in Hy as [Hy|(Hb & Hy)]; [auto|].
    right. split; [exact Hb|]. lia.
Qed.

Lemma pass2_memory_of located symbols st :
  pass2 located symbols = OK st ->
  exists symbols', pass2_loop (mkP2 symbols' ∅ []) located = OK st.
Proof.
  unfold pass2. intros H. inv_bind H. eauto.
Qed.

(** X11: every cell of the memory pass 2 returns holds a value from 0 to
    255, and every address it writes is at or above the address of some
    located line, or is one of the two reset vector cells. *)
Theorem pass2_memory_holds_bytes (located : list (SourceLine * Z))
  (symbols : gmap string Z) (st : pass2_state) (lo : Z)
  (Hlo : Forall (fun p => lo <= snd p) located)
  (H : pass2 located symbols = OK st) :
  forall x b, p2_memory st !! x = Some b ->
    0 <= b < 256 /\ (lo <= x \/ x = 0xFFFC \/ x = 0xFFFD).
Proof.
  apply pass2_memory_of in H as (symbols' & H).
  destruct (pass2_loop_memory lo _ _ _ Hlo H) as (Hnew & _).
  intros x b Hx. apply Hnew in Hx as [Hx|Hx]; [|exact Hx].
  simpl in Hx. rewrite lookup_empty in Hx. discriminate.
Qed.

Lemma pass2_memory_holds_bytes_witness :
  exists st,
    pass2 [(line ".BYTE" ["-1"], 0x10); (line ".RESETVEC" ["0x1234"], 0x11)] ∅
    = OK st
    /\ forall x b, p2_memory st !! x = Some b ->
         0 <= b < 256 /\ (0x10 <= x \/ x = 0xFFFC \/ x = 0xFFFD).
Proof.
  destruct (pass2 [(line ".BYTE" ["-1"], 0x10);
                   (line ".RESETVEC" ["0x1234"], 0x11)] ∅) as [st|e] eqn:H;
    [|vm_compute in H; discriminate H].
  exists st. split; [reflexivity|].
  apply (pass2_memory_holds_bytes
           [(line ".BYTE" ["-1"], 0x10); (line ".RESETVEC" ["0x1234"], 0x11)]
           ∅ st 0x10); [|exact H].
  repeat constructor; simpl; lia.
Defined.



Lemma pass2_loop_listing located : forall st st',
  pass2_loop st located = OK st' ->
  listed_line <$> p2_listing st' = (listed_line <$> p2_listing st) ++ located.
Proof.
  induction located as [|[sl a] rest IH]; intros st st' H; simpl in H.
  - injection H as <-. rewrite app_nil_r. reflexivity.
  - inv_bind H. apply pass2_step_frame in Hx as (data & Hl & _).
    rewrite (IH _ _ H), Hl, fmap_app, <- app_assoc. reflexivity.
Qed.

(** X13: the listing pass 2 returns has one record per located line, in
    the same order, each with the line and the address pass 1 gave it. *)
Theorem listing_follows_located (located : list (SourceLine * Z))
  (symbols : gmap string Z) (st : pass2_state)
  (H : pass2 located symbols = OK st) :
  listed_line <$> p2_listing st = located.
Proof.
  apply pass2_memory_of in H as (symbols' & H).
  apply pass2_loop_listing in H. exact H.
Qed.

Lemma listing_follows_located_witness :
  exists st,
    pass2 two_resetvecs ∅ = OK st
    /\ listed_line <$> p2_listing st = two_resetvecs.
Proof.
  destruct (pass2 two_resetvecs ∅) as [st|e] eqn:H;
    [|vm_compute in H; discriminate H].
  exists st. split; [reflexivity|].
  exact (listing_follows_located two_resetvecs ∅ st H).
Defined.

Lemma pass2_loop_resetvec located : forall st st' sl a m,
  pass2_loop st located = OK st' ->
  (sl, a) ∈ located -> mnemonic sl = Some m -> mn_upper sl = ".RESETVEC" ->
  is_Some (p2_memory st' !! 0xFFFC) /\ is_Some (p2_memory st' !! 0xFFFD).
Proof.
  induction located as [|[sl0 a0] rest IH]; intros st st' sl a m H Hin Hm Hmn;
    [inversion Hin|].
  simpl in H. inv_bind H.
  apply elem_of_cons in Hin as [[= <- <-]|Hin]; [|eauto].
  apply pass2_step_memory in Hx as (_ & _ & Hrv).
  destruct (Hrv m Hm Hmn) as [Hc Hd].
  assert (forall x, is_Some (p2_memory x !! 0xFFFC) ->
                    is_Some (p2_memory x !! 0xFFFD) ->
                    pass2_loop x rest = OK st' ->
                    is_Some (p2_memory st' !! 0xFFFC)
                    /\ is_Some (p2_memory st' !! 0xFFFD)) as Hgo.
  { clear. induction rest as [|[s b] rest IH]; intros x Hc Hd H; simpl in H.
    - injection H as <-. auto.
    - inv_bind H. apply pass2_step_memory in Hx as (_ & Hkeep & _). eauto. }
  eauto.
Qed.

(** X14: the check [main] makes before it warns about a missing reset
    vector.  After a successful pass 2 the check is silent whenever some
    located line is a [.resetvec]; it fires whenever none is and no
    listing record reaches the two vector cells. *)
Theorem reset_vector_check (located : list (SourceLine * Z))
  (symbols : gmap string Z) (st : pass2_state)
  (H : pass2 located symbols = OK st) :
  (forall sl a m,
     (sl, a) ∈ located -> mnemonic sl = Some m -> mn_upper sl = ".RESETVEC" ->
     reset_vector_missing (p2_memory st) = false) /\
  (Forall (fun p => is_resetvec (fst p) = false) located ->
   Forall (fun e => covers e 0xFFFC = false) (p2_listing st) ->
   reset_vector_missing (p2_memory st) = true).
Proof.
  apply pass2_memory_of in H as (symbols' & H). split.
  - intros sl a m Hin Hm Hmn.
    destruct (pass2_loop_resetvec _ _ _ _ _ _ H Hin Hm Hmn) as [Hc Hd].
    unfold reset_vector_missing.
    rewrite !bool_decide_eq_true_2 by (apply elem_of_dom; assumption).
    reflexivity.
  - intros Hno Hcov.
    destruct (pass2_loop_frame _ _ _ H) as (ents & Hl & _ & Hframe).
    simpl in Hl. subst ents.
    specialize (Hframe Hno 0xFFFC Hcov). simpl in Hframe.
    rewrite lookup_empty in Hframe.
    unfold reset_vector_missing.
    rewrite (bool_decide_eq_false_2 (0xFFFC ∈ dom (p2_memory st))).
    + reflexivity.
    + intros Hin. apply elem_of_dom in Hin as [v Hv]. congruence.
Qed.

Lemma reset_vector_check_witness :
  (exists st, pass2 two_resetvecs ∅ = OK st
              /\ reset_vector_missing (p2_memory st) = false)
  /\ (exists st, pass2 [(ret_line, 0)] ∅ = OK st
                 /\ reset_vector_missing (p2_memory st) = true).
Proof.
  split.
  - destruct (pass2 two_resetvecs ∅) as [st|e] eqn:H;
      [|vm_compute in H; discriminate H].
    exists st. split; [reflexivity|].
    apply (proj1 (reset_vector_check two_resetvecs ∅ st H) resetvec_first 0x10
             ".RESETVEC"); [repeat constructor|reflexivity|reflexivity].
  - destruct (pass2 [(ret_line, 0)] ∅) as [st|e] eqn:H;
      [|vm_compute in H; discriminate H].
    exists st. split; [reflexivity|].
    apply (proj2 (reset_vector_check [(ret_line, 0)] ∅ st H)).
    + repeat constructor.
    + vm_compute in H. injection H as <-. repeat constructor.
Defined.

(** ** Lines that pass 1 accepts and pass 2 refuses *)

(** X15: a mnemonic that is neither a directive nor in the opcode table is
    laid out by pass 1 as a line of size zero; only pass 2 reports it, as
    an unknown mnemonic. *)
Theorem unknown_mnemonic_fails_in_pass2 (sl : SourceLine) (m : string)
  (Hm : mnemonic sl = Some m) (Hm0 : m <> "")
  (Hdir : Forall (fun d => str_eqb (mn_upper sl) d = false) directive_names)
  (Hopc : opcode_lookup (mn_upper sl) = None) :
  (forall frozen symbols located lc,
     label sl = None ->
     pass1_step frozen (mkP1 symbols located lc) sl
     = OK (mkP1 symbols (located ++ [(sl, lc)]) lc)) /\
  (forall st a, pass2_step st (sl, a) = Err (AsmError UnknownMnemonic)).
Proof.
  assert (str_eqb (mn_upper sl) ".ORG" = false
          /\ str_eqb (mn_upper sl) ".EQU" = false
          /\ str_eqb (mn_upper sl) ".BYTE" = false
          /\ str_eqb (mn_upper sl) ".WORD" = false
          /\ str_eqb (mn_upper sl) ".RESETVEC" = false
          /\ str_eqb (mn_upper sl) "__LOADADDR_HI__" = false)
    as (E1 & E2 & E3 & E4 & E5 & E6).
  { rewrite List.Forall_forall in Hdir.
    repeat split; apply Hdir; simpl; auto 10. }
  assert (mn_upper sl = upper m) as Hmn
    by (unfold mn_upper; rewrite Hm; reflexivity).
  split.
  - intros frozen symbols located lc Hl. unfold pass1_step.
    rewrite Hl, Hm. simpl.
    destruct m as [|c m]; [congruence|]. simpl.
    rewrite E1, E2. unfold instruction_size. rewrite Hm, <- Hmn.
    rewrite E1, E2, E3, E4, E5, E6, Hopc, Z.add_0_r. reflexivity.
  - intros [symbols memory listing] a. unfold pass2_step. rewrite Hm.
    unfold encode_directive. rewrite E1, E2, E3, E4, E5, E6. simpl.
    rewrite Hopc. reflexivity.
Qed.

Lemma unknown_mnemonic_fails_in_pass2_witness :
  pass1 [line "NOP" []] ∅ = OK (∅, [(line "NOP" [], 0)])
  /\ pass2 [(line "NOP" [], 0)] ∅ = Err (AsmError UnknownMnemonic).
Proof.
  destruct (unknown_mnemonic_fails_in_pass2 (line "NOP" []) "NOP" eq_refl
              ltac:(discriminate) ltac:(repeat constructor) eq_refl) as [H1 H2].
  split.
  - vm_compute. reflexivity.
  - unfold pass2. change (resolve_equs _ ∅ [(line "NOP" [], 0)]) with (OK (∅ : gmap string Z)).
    unfold bind, pass2_loop. rewrite H2. reflexivity.
Defined.

Lemma eval_expr_cases e symbols :
  (exists v, eval_expr e symbols = OK v)
  \/ eval_expr e symbols = Err (AsmError CannotEvaluate)
  \/ eval_expr e symbols = Err Unmodelled.
Proof.
  unfold eval_expr.
  destruct (bind (py_eval (expression_text e) symbols) (fun v => py_int v))
    as [z|[| | |]]; eauto.
Qed.

(** X16: the sentinel line that the [LOADADDR] expansion leaves for pass 2
    never emits a byte and never fails on its expression: an expression
    that cannot be evaluated is taken as zero.  With fewer than two
    operands, which only a source that spells the sentinel itself can
    produce, the directive raises [IndexError], an exception that is not
    an [AsmError]. *)
Theorem loadaddr_sentinel_is_silent (sl : SourceLine) (symbols : gmap string Z)
  (memory : gmap Z Z)
  (Hmn : mn_upper sl = "__LOADADDR_HI__") :
  (forall rn e rest,
     operands sl = rn :: e :: rest ->
     eval_expr e symbols <> Err Unmodelled ->
     encode_directive sl symbols memory
     = OK (mkDir (Some []) None symbols memory)) /\
  ((List.length (operands sl) < 2)%nat ->
   encode_directive sl symbols memory = Err (PyError "IndexError")).
Proof.
  unfold encode_directive. rewrite Hmn.
  change (str_eqb "__LOADADDR_HI__" ".ORG") with false.
  change (str_eqb "__LOADADDR_HI__" ".EQU") with false.
  change (str_eqb "__LOADADDR_HI__" ".BYTE") with false.
  change (str_eqb "__LOADADDR_HI__" ".WORD") with false.
  change (str_eqb "__LOADADDR_HI__" ".RESETVEC") with false.
  change (str_eqb "__LOADADDR_HI__" "__LOADADDR_HI__") with true.
  cbv iota. split.
  - intros rn e rest Hops He. rewrite Hops. simpl.
    destruct (eval_expr_cases e symbols) as [[v Hv]|[Hv|Hv]];
      [rewrite Hv|rewrite Hv|congruence]; reflexivity.
  - intros Hlen. destruct (operands sl) as [|rn [|e rest]]; simpl in *;
      [reflexivity|reflexivity|lia].
Qed.

Lemma loadaddr_sentinel_is_silent_witness :
  encode_directive (line "__LOADADDR_HI__" ["R1"; "nowhere"]) ∅ ∅
  = OK (mkDir (Some []) None ∅ ∅)
  /\ asm ("__LOADADDR_HI__ R1" +:+ nl) ∅ = Err (PyError "IndexError").
Proof.
  split.
  - apply (proj1 (loadaddr_sentinel_is_silent
                    (line "__LOADADDR_HI__" ["R1"; "nowhere"]) ∅ ∅ eq_refl)
             "R1" "nowhere" []); [reflexivity|].
    vm_compute. discriminate.
  - vm_compute. reflexivity.
Defined.
(** ** Strings *)

Lemma append_cons c a b : String c a +:+ b = String c (a +:+ b).
Proof. reflexivity. Qed.

Lemma append_nil_l s : "" +:+ s = s.
Proof. reflexivity. Qed.

Lemma append_nil_r s : s +:+ "" = s.
Proof.
  induction s as [|c s IH]; [reflexivity|]. rewrite append_cons, IH. reflexivity.
Qed.

Lemma append_assoc a b c : (a +:+ b) +:+ c = a +:+ (b +:+ c).
Proof.
  induction a as [|x a IH]; [reflexivity|]. rewrite !append_cons, IH. reflexivity.
Qed.

Lemma upper_cons c s : upper (String c s) = String (upper_char c) (upper s).
Proof. reflexivity. Qed.

Ltac by_all_chars c := destruct c as [[] [] [] [] [] [] [] []]; reflexivity.

Lemma is_space_upper_char c : is_space (upper_char c) = is_space c.
Proof. by_all_chars c. Qed.

Lemma is_digit_upper_char c : is_digit (upper_char c) = is_digit c.
Proof. by_all_chars c. Qed.

Lemma upper_char_digit c : is_digit c = true -> upper_char c = c.
Proof. destruct c as [[] [] [] [] [] [] [] []]; cbv; congruence. Qed.

Lemma upper_char_is_R c :
  char_eqb (upper_char c) "R" || char_eqb (upper_char c) "r"
  = char_eqb c "R" || char_eqb c "r".
Proof. by_all_chars c. Qed.

Lemma upper_char_idem c : upper_char (upper_char c) = upper_char c.
Proof. by_all_chars c. Qed.

Lemma upper_idem s : upper (upper s) = upper s.
Proof.
  induction s as [|c s IH]; [reflexivity|].
  rewrite !upper_cons, upper_char_idem, IH. reflexivity.
Qed.

Lemma lstrip_upper s : lstrip (upper s) = upper (lstrip s).
Proof.
  induction s as [|c s IH]; [reflexivity|].
  rewrite upper_cons. simpl. rewrite is_space_upper_char.
  destruct (is_space c); [exact IH|reflexivity].
Qed.

Lemma rstrip_upper s : rstrip (upper s) = upper (rstrip s).
Proof.
  induction s as [|c s IH]; [reflexivity|].
  rewrite upper_cons. simpl. rewrite IH, is_space_upper_char.
  destruct (rstrip s) as [|d r]; [|reflexivity].
  change (upper "") with "". cbv iota.
  destruct (is_space c); reflexivity.
Qed.

Lemma strip_upper s : strip (upper s) = upper (strip s).
Proof. unfold strip. rewrite lstrip_upper, rstrip_upper. reflexivity. Qed.

Lemma all_digits_upper s :
  all_chars is_digit (upper s) = all_chars is_digit s
  /\ (all_chars is_digit s = true -> upper s = s).
Proof.
  induction s as [|c s [IH1 IH2]]; [split; reflexivity|].
  rewrite upper_cons. simpl. rewrite is_digit_upper_char, IH1.
  split; [reflexivity|].
  intros H. apply andb_true_iff in H as [Hc Hs].
  rewrite (upper_char_digit _ Hc), (IH2 Hs). reflexivity.
Qed.

Lemma register_syntax_upper s : register_syntax (upper s) = register_syntax s.
Proof.
  destruct s as [|c ds]; [reflexivity|].
  rewrite upper_cons. unfold register_syntax.
  rewrite upper_char_is_R.
  destruct (all_digits_upper ds) as [H1 H2]. rewrite H1.
  assert (str_eqb (upper ds) "" = str_eqb ds "") as ->
    by (destruct ds; reflexivity).
  destruct (char_eqb c "R" || char_eqb c "r"); [|reflexivity].
  destruct (str_eqb ds ""); [reflexivity|]. simpl.
  destruct (all_chars is_digit ds) eqn:Hd; [|reflexivity].
  rewrite (H2 eq_refl). reflexivity.
Qed.

Lemma lstrip_spaces pre s :
  all_chars is_space pre = true -> lstrip (pre +:+ s) = lstrip s.
Proof.
  induction pre as [|c pre IH]; intros H; [reflexivity|].
  simpl in H. apply andb_true_iff in H as [Hc Hp].
  rewrite append_cons. simpl. rewrite Hc. auto.
Qed.

Lemma rstrip_spaces post :
  all_chars is_space post = true -> rstrip post = "".
Proof.
  induction post as [|c post IH]; intros H; [reflexivity|].
  simpl in H. apply andb_true_iff in H as [Hc Hp].
  simpl. rewrite (IH Hp), Hc. reflexivity.
Qed.

Lemma rstrip_app_spaces s post :
  all_chars is_space post = true -> rstrip (s +:+ post) = rstrip s.
Proof.
  intros H. induction s as [|c s IH]; [apply rstrip_spaces; exact H|].
  rewrite append_cons. simpl. rewrite IH. reflexivity.
Qed.

Lemma strip_app_spaces s post :
  all_chars is_space post = true -> strip (s +:+ post) = strip s.
Proof.
  intros H. unfold strip. induction s as [|c s IH].
  - rewrite append_nil_l. rewrite <- (append_nil_r post) at 1.
    rewrite (lstrip_spaces post "" H). reflexivity.
  - rewrite append_cons. simpl.
    destruct (is_space c); [exact IH|].
    rewrite <- append_cons. apply (rstrip_app_spaces (String c s) post H).
Qed.

(** ** [parse_register] *)

(** X17: a register token is read without regard to the case of its letter
    and to white space around it: the result, a number or either of the
    two errors, is the one for the bare token. *)
Theorem register_token_ignores_case_and_space (tok pre post : string)
  (Hpre : all_chars is_space pre = true)
  (Hpost : all_chars is_space post = true) :
  parse_register (pre +:+ upper tok +:+ post) = parse_register tok.
Proof.
  unfold parse_register.
  assert (strip (pre +:+ upper tok +:+ post) = upper (strip tok)) as ->.
  { unfold strip at 1. rewrite (lstrip_spaces _ _ Hpre).
    fold (strip (upper tok +:+ post)).
    rewrite (strip_app_spaces _ _ Hpost). apply strip_upper. }
  rewrite register_syntax_upper. reflexivity.
Qed.

Lemma register_token_ignores_case_and_space_witness :
  parse_register ("  " +:+ upper "r7" +:+ " ") = OK 7.
Proof.
  rewrite (register_token_ignores_case_and_space "r7" "  " " " eq_refl eq_refl).
  reflexivity.
Defined.

(** ** [strip_comment] *)

Lemma strip_comment_unfold line : strip_comment line = strip_comment_from false line.
Proof. reflexivity. Qed.

Lemma strip_comment_from_prefix s : forall in_str,
  exists rest,
    s = strip_comment_from in_str s +:+ rest
    /\ (rest = "" \/ exists r, rest = String ";" r).
Proof.
  induction s as [|ch s IH]; intros in_str; [exists ""; auto|].
  simpl.
  destruct (char_eqb ch ";" && negb (if char_eqb ch dquote then negb in_str else in_str))
    eqn:Hc.
  - exists (String ch s). split; [reflexivity|]. right.
    apply andb_true_iff in Hc as [Hc _].
    apply N.eqb_eq in Hc. apply (f_equal ascii_of_N) in Hc.
    unfold code in Hc. rewrite !ascii_N_embedding in Hc. subst ch. eauto.
  - destruct (IH (if char_eqb ch dquote then negb in_str else in_str))
      as (rest & Hs & Hr).
    exists rest. rewrite append_cons, <- Hs. auto.
Qed.

Lemma strip_comment_from_idem s : forall in_str,
  strip_comment_from in_str (strip_comment_from in_str s)
  = strip_comment_from in_str s.
Proof.
  induction s as [|ch s IH]; intros in_str; [reflexivity|].
  simpl.
  destruct (char_eqb ch ";" && negb (if char_eqb ch dquote then negb in_str else in_str))
    eqn:Hc; [reflexivity|].
  simpl. rewrite Hc, IH. reflexivity.
Qed.

Lemma strip_comment_from_in_string s : forall t,
  all_chars (fun c => negb (char_eqb c dquote)) s = true ->
  strip_comment_from true (s +:+ String dquote t)
  = s +:+ String dquote (strip_comment_from false t).
Proof.
  induction s as [|ch s IH]; intros t H.
  - rewrite !append_nil_l. reflexivity.
  - simpl in H. apply andb_true_iff in H as [Hc Hs].
    apply negb_true_iff in Hc.
    rewrite !append_cons. simpl. rewrite Hc. simpl.
    rewrite andb_false_r. rewrite (IH t Hs). reflexivity.
Qed.

(** X18: [strip_comment] returns a prefix of the line; what it drops is
    empty or begins with a semicolon; applying it twice changes nothing;
    and a semicolon between double quotes does not end the line. *)
Theorem strip_comment_cuts_at_semicolon (line : string) :
  (exists rest,
     line = strip_comment line +:+ rest
     /\ (rest = "" \/ exists r, rest = String ";" r)) /\
  strip_comment (strip_comment line) = strip_comment line /\
  (forall s t,
     all_chars (fun c => negb (char_eqb c dquote)) s = true ->
     strip_comment (quoted s +:+ t) = quoted s +:+ strip_comment t).
Proof.
  rewrite !strip_comment_unfold. split; [apply strip_comment_from_prefix|].
  split; [apply strip_comment_from_idem|].
  intros s t Hs. rewrite !strip_comment_unfold. unfold quoted.
  rewrite !append_assoc, append_cons, append_nil_l.
  simpl. rewrite append_cons, append_nil_l.
  rewrite (strip_comment_from_in_string s t Hs). reflexivity.
Qed.

Lemma strip_comment_cuts_at_semicolon_witness :
  strip_comment (quoted "a;b" +:+ " ; c") = quoted "a;b" +:+ " ".
Proof.
  destruct (strip_comment_cuts_at_semicolon "") as (_ & _ & H).
  rewrite (H "a;b" " ; c" eq_refl). reflexivity.
Defined.

(** ** [split_operands] *)

Lemma split_go_parts s : forall parts depth cur,
  split_operands_go parts depth cur s
  = parts ++ split_operands_go [] depth cur s.
Proof.
  induction s as [|ch s IH]; intros parts depth cur; simpl.
  - destruct (negb (str_eqb (strip cur) "")); [reflexivity|].
    rewrite app_nil_r. reflexivity.
  - destruct (char_eqb ch "("); [apply IH|].
    destruct (char_eqb ch ")"); [apply IH|].
    destruct (char_eqb ch "," && (depth =? 0)); [|apply IH].
    rewrite IH. rewrite (IH ([] ++ [strip cur])). rewrite app_assoc. reflexivity.
Qed.

Lemma split_go_plain a : forall parts depth cur rest,
  all_chars plain_char a = true ->
  split_operands_go parts depth cur (a +:+ rest)
  = split_operands_go parts depth (cur +:+ a) rest.
Proof.
  induction a as [|ch a IH]; intros parts depth cur rest H.
  - rewrite append_nil_l, append_nil_r. reflexivity.
  - simpl in H. apply andb_true_iff in H as [Hc Ha].
    unfold plain_char in Hc.
    apply andb_true_iff in Hc as [Hc H3]. apply andb_true_iff in Hc as [H1 H2].
    apply negb_true_iff in H1, H2, H3.
    rewrite append_cons. simpl. rewrite H1, H2, H3. simpl.
    rewrite (IH _ _ _ _ Ha), append_assoc. reflexivity.
Qed.

Lemma split_go_inside a : forall parts depth cur rest,
  all_chars no_paren a = true -> depth <> 0 ->
  split_operands_go parts depth cur (a +:+ rest)
  = split_operands_go parts depth (cur +:+ a) rest.
Proof.
  induction a as [|ch a IH]; intros parts depth cur rest H Hd.
  - rewrite append_nil_l, append_nil_r. reflexivity.
  - simpl in H. apply andb_true_iff in H as [Hc Ha].
    unfold no_paren in Hc. apply andb_true_iff in Hc as [H1 H2].
    apply negb_true_iff in H1, H2.
    rewrite append_cons. simpl. rewrite H1, H2.
    assert ((depth =? 0) = false) as -> by lia. rewrite andb_false_r.
    rewrite (IH _ _ _ _ Ha Hd), append_assoc. reflexivity.
Qed.

Lemma rstrip_nil_spaces s : rstrip s = "" -> all_chars is_space s = true.
Proof.
  induction s as [|c s IH]; [reflexivity|]. simpl.
  destruct (rstrip s); [|discriminate].
  destruct (is_space c); [auto|discriminate].
Qed.

Lemma lstrip_suffix s : exists pre, s = pre +:+ lstrip s /\ all_chars is_space pre = true.
Proof.
  induction s as [|c s (pre & Hs & Hp)]; [exists ""; auto|]. simpl.
  destruct (is_space c) eqn:Hc.
  - exists (String c pre). rewrite append_cons, <- Hs. simpl. rewrite Hc. auto.
  - exists "". auto.
Qed.

Lemma all_chars_app p a b :
  all_chars p (a +:+ b) = all_chars p a && all_chars p b.
Proof.
  induction a as [|c a IH]; [reflexivity|].
  rewrite append_cons. simpl. rewrite IH, andb_assoc. reflexivity.
Qed.

Lemma strip_nil_spaces s : strip s = "" -> all_chars is_space s = true.
Proof.
  unfold strip. intros H. apply rstrip_nil_spaces in H.
  destruct (lstrip_suffix s) as (pre & Hs & Hp).
  rewrite Hs, all_chars_app, Hp, H. reflexivity.
Qed.

(** X19: [split_operands] cuts at a comma outside parentheses and nowhere
    else.  A first operand without parentheses ends at the first comma;
    a text that is one call, with any commas between its parentheses, is
    a single operand. *)
Theorem split_operands_respects_parentheses :
  (forall a b,
     all_chars plain_char a = true ->
     split_operands (a +:+ "," +:+ b) = strip a :: split_operands b) /\
  (forall f args,
     all_chars plain_char f = true -> all_chars no_paren args = true ->
     split_operands (f +:+ "(" +:+ args +:+ ")")
     = [strip (f +:+ "(" +:+ args +:+ ")")]).
Proof.
  split.
  - intros a b Ha. unfold split_operands.
    rewrite (split_go_plain a [] 0 "" _ Ha), append_nil_l.
    rewrite append_cons, append_nil_l. simpl.
    apply (split_go_parts b [strip a] 0 "").
  - intros f args Hf Hargs. unfold split_operands.
    rewrite (split_go_plain f [] 0 "" _ Hf), append_nil_l.
    rewrite append_cons, append_nil_l. simpl.
    rewrite (split_go_inside args [] 1 _ _ Hargs) by lia.
    simpl.
    replace (((f +:+ "(") +:+ args) +:+ ")") with (f +:+ "(" +:+ args +:+ ")")
      by (rewrite !append_assoc; reflexivity).
    destruct (str_eqb (strip (f +:+ "(" +:+ args +:+ ")")) "") eqn:He; [|reflexivity].
    apply str_eqb_eq in He. apply strip_nil_spaces in He.
    rewrite all_chars_app in He. apply andb_true_iff in He as [_ He].
    rewrite append_cons in He. simpl in He. discriminate.
Qed.

Lemma split_operands_respects_parentheses_witness :
  split_operands "R1 , lo(a,b)" = ["R1"; "lo(a,b)"].
Proof.
  destruct split_operands_respects_parentheses as [H1 H2].
  change (split_operands ("R1 " +:+ "," +:+ " lo(a,b)") = ["R1"; "lo(a,b)"]).
  rewrite (H1 "R1 " " lo(a,b)" eq_refl).
  change (split_operands " lo(a,b)")
    with (split_operands (" lo" +:+ "(" +:+ "a,b" +:+ ")")).
  rewrite (H2 " lo" "a,b" eq_refl eq_refl). reflexivity.
Defined.

(** ** [_parse_one] *)

Lemma span_spec p s :
  all_chars p (fst (span p s)) = true /\ s = fst (span p s) +:+ snd (span p s).
Proof.
  induction s as [|c s [IH1 IH2]]; [split; reflexivity|]. simpl.
  destruct (p c) eqn:Hc; [|split; reflexivity].
  destruct (span p s) as [a b]. simpl in *. rewrite Hc, IH1.
  split; [reflexivity|]. rewrite append_cons, <- IH2. reflexivity.
Qed.

Lemma ident_start_is_word c : is_ident_start c = true -> is_word c = true.
Proof. destruct c as [[] [] [] [] [] [] [] []]; cbv; congruence. Qed.

Lemma match_label_name line l r :
  match_label line = Some (l, r) ->
  l <> "" /\ all_chars is_word l = true /\ next_is_ident l = true.
Proof.
  unfold match_label. destruct line as [|c s]; [discriminate|].
  destruct (is_ident_start c) eqn:Hc; [|discriminate].
  pose proof (span_spec is_word (String c s)) as [Hw _].
  simpl in *. rewrite (ident_start_is_word _ Hc) in *.
  destruct (span is_word s) as [a b]. simpl in Hw.
  destruct (snd (span is_space b)) as [|c' r']; [discriminate|].
  destruct (char_eqb c' ":"); [|discriminate].
  intros [= <- <-]. split; [discriminate|]. split; [exact Hw|].
  simpl. exact Hc.
Qed.

Lemma parse_one_shape line fn ln :
  strip line <> "" ->
  exists lbl body,
    (forall l, lbl = Some l ->
       l <> "" /\ all_chars is_word l = true /\ next_is_ident l = true)
    /\ _parse_one line fn ln
       = (if str_eqb body "" then Some (mkSourceLine fn ln lbl None [] body)
          else match match_mnemonic body with
               | None => Some (mkSourceLine fn ln lbl None [] body)
               | Some (mn, r) =>
                   Some (mkSourceLine fn ln lbl (Some (upper mn))
                           (if negb (str_eqb (strip r) "")
                            then split_operands (strip r) else []) body)
               end).
Proof.
  intros Hne. unfold _parse_one.
  destruct (str_eqb (strip line) "") eqn:He.
  { apply str_eqb_eq in He. contradiction. }
  destruct (match_label (strip line)) as [[l r]|] eqn:Hl.
  - exists (Some l), (strip r). split.
    + intros l' [= <-]. eapply match_label_name; eauto.
    + destruct (str_eqb (strip r) ""); [reflexivity|].
      destruct (match_mnemonic (strip r)) as [[mn r']|]; reflexivity.
  - exists None, (strip line). split; [discriminate|].
    rewrite He. destruct (match_mnemonic (strip line)) as [[mn r']|]; reflexivity.
Qed.

(** X20: a line [_parse_one] returns carries the given file name and line
    number; its mnemonic, when it has one, is a non-empty string already
    in upper case, so the [upper()] calls of the two passes leave it as it
    is; its label, when it has one, is a non-empty identifier; and a line
    without mnemonic has no operands.  Only a blank line gives [None]. *)
Theorem parse_one_is_well_formed (line fn : string) (ln : Z) :
  (_parse_one line fn ln = None <-> strip line = "") /\
  (forall sl,
     _parse_one line fn ln = Some sl ->
     filename sl = fn /\ lineno sl = ln
     /\ (forall m, mnemonic sl = Some m ->
           m <> "" /\ upper m = m /\ mn_upper sl = m)
     /\ (forall l, label sl = Some l ->
           l <> "" /\ all_chars is_word l = true /\ next_is_ident l = true)
     /\ (mnemonic sl = None -> operands sl = [])).
Proof.
  destruct (str_eqb (strip line) "") eqn:He.
  { apply str_eqb_eq in He. unfold _parse_one. rewrite He.
    change (str_eqb "" "") with true. cbv iota. split; [tauto|]. discriminate. }
  assert (strip line <> "") as Hne
    by (intros E; rewrite E in He; discriminate).
  destruct (parse_one_shape line fn ln Hne) as (lbl & body & Hlbl & ->).
  destruct (str_eqb body "").
  { split; [split; [discriminate|tauto]|].
    intros sl [= <-]. simpl.
    split; [reflexivity|]. split; [reflexivity|]. split; [discriminate|].
    split; [exact Hlbl|reflexivity]. }
  destruct (match_mnemonic body) as [[mn r]|] eqn:Hmn.
  2:{ split; [split; [discriminate|tauto]|].
      intros sl [= <-]. simpl.
    split; [reflexivity|]. split; [reflexivity|]. split; [discriminate|].
    split; [exact Hlbl|reflexivity]. }
  split; [split; [discriminate|tauto]|].
  intros sl [= <-]. simpl. split; [reflexivity|]. split; [reflexivity|].
  split; [|split; [exact Hlbl|discriminate]].
  intros m [= <-]. unfold mn_upper. simpl.
  split; [|split; [apply upper_idem|apply upper_idem]].
  unfold match_mnemonic in Hmn. destruct body as [|c s]; [discriminate|].
  destruct (is_ident_start c || char_eqb c "."); [|discriminate].
  destruct (span is_word s) as [w r0]. injection Hmn as <- <-.
  rewrite upper_cons. discriminate.
Qed.

Lemma parse_one_is_well_formed_witness :
  exists sl,
    _parse_one "loop:  add r1, r2 " "a.asm" 7 = Some sl
    /\ filename sl = "a.asm" /\ lineno sl = 7 /\ mn_upper sl = "ADD".
Proof.
  destruct (_parse_one "loop:  add r1, r2 " "a.asm" 7) as [sl|] eqn:H;
    [|vm_compute in H; discriminate H].
  exists sl. split; [reflexivity|].
  destruct (parse_one_is_well_formed "loop:  add r1, r2 " "a.asm" 7)
    as (_ & Hwf).
  destruct (Hwf sl H) as (Hf & Hl & Hm & _).
  split; [exact Hf|]. split; [exact Hl|].
  apply (Hm "ADD"). vm_compute in H. injection H as <-. reflexivity.
Defined.

(** ** Reading lines *)

Lemma join_lines_app a b : join_lines (a ++ b) = join_lines a +:+ join_lines b.
Proof.
  induction a as [|x a IH]; [reflexivity|].
  simpl. unfold join_lines in *. simpl. rewrite IH, append_assoc. reflexivity.
Qed.

Lemma join_lines_cons x l : join_lines (x :: l) = x +:+ join_lines l.
Proof. reflexivity. Qed.

Lemma splitlines_go_join s : forall after_cr cur,
  join_lines (splitlines_go after_cr cur s) = cur +:+ s.
Proof.
  induction s as [|c s IH]; intros after_cr cur.
  - simpl. destruct (str_eqb cur "") eqn:He.
    + apply str_eqb_eq in He. subst. reflexivity.
    + rewrite join_lines_cons. reflexivity.
  - simpl.
    destruct (after_cr && char_eqb c newline).
    { rewrite join_lines_cons, IH, append_assoc. reflexivity. }
    destruct after_cr.
    + destruct (char_eqb c carriage_return); [|destruct (is_linebreak c)];
        rewrite ?join_lines_app, ?join_lines_cons, ?IH; simpl;
        rewrite ?join_lines_cons, ?IH, ?append_nil_l, ?append_nil_r;
        reflexivity.
    + destruct (char_eqb c carriage_return); [|destruct (is_linebreak c)];
        simpl; rewrite ?join_lines_cons, ?IH, ?append_assoc; reflexivity.
Qed.

Lemma char_eqb_eq a b : char_eqb a b = true -> a = b.
Proof.
  unfold char_eqb, code. intros H. apply N.eqb_eq in H.
  apply (f_equal ascii_of_N) in H. rewrite !ascii_N_embedding in H. exact H.
Qed.

Lemma readlines_go_splitlines s : forall cur,
  lf_only s = true ->
  readlines_go false cur s = splitlines_go false cur s.
Proof.
  induction s as [|c s IH]; intros cur H; [reflexivity|].
  unfold lf_only in H. simpl in H. apply andb_true_iff in H as [Hc Hs].
  simpl. destruct (char_eqb c newline) eqn:Hn.
  - apply char_eqb_eq in Hn. subst c.
    change (char_eqb newline carriage_return) with false.
    change (is_linebreak newline) with true. cbv iota.
    rewrite (IH "" Hs). reflexivity.
  - rewrite orb_false_r in Hc. apply negb_true_iff in Hc. rewrite Hc.
    assert (char_eqb c carriage_return = false) as ->.
    { destruct (char_eqb c carriage_return) eqn:E; [|reflexivity].
      apply char_eqb_eq in E. subst c. discriminate Hc. }
    apply (IH _ Hs).
Qed.

(** X21: [splitlines(keepends=True)] loses nothing: the lines of
    [process_string], put together again, are the text.  For a text whose
    line ends are all single newlines, [readlines] cuts the same lines, so
    a file and a string with that content are pre-processed alike. *)
Theorem lines_keep_the_text (text : string) :
  join_lines (splitlines text) = text /\
  (lf_only text = true ->
   readlines text = splitlines text /\ join_lines (readlines text) = text).
Proof.
  assert (join_lines (splitlines text) = text) as Hj.
  { unfold splitlines. destruct text as [|c s]; [reflexivity|].
    rewrite splitlines_go_join. reflexivity. }
  split; [exact Hj|]. intros Hlf.
  assert (readlines text = splitlines text) as Hr.
  { unfold readlines, splitlines. destruct text as [|c s]; [reflexivity|].
    apply readlines_go_splitlines. exact Hlf. }
  split; [exact Hr|]. rewrite Hr. exact Hj.
Qed.

Lemma lines_keep_the_text_witness :
  readlines forward_org_program = splitlines forward_org_program
  /\ join_lines (readlines forward_org_program) = forward_org_program.
Proof.
  apply (lines_keep_the_text forward_org_program). reflexivity.
Defined.

(** ** The expression evaluator *)

Lemma lstrip_no_space c s : is_space c = false -> lstrip (String c s) = String c s.
Proof. intros H. simpl. rewrite H. reflexivity. Qed.

Lemma rstrip_no_space s :
  all_chars (fun c => negb (is_space c)) s = true -> rstrip s = s.
Proof.
  induction s as [|c s IH]; intros H; [reflexivity|].
  simpl in H. apply andb_true_iff in H as [Hc Hs]. apply negb_true_iff in Hc.
  simpl. rewrite (IH Hs). destruct s; [rewrite Hc|]; reflexivity.
Qed.

Lemma strip_no_space s :
  all_chars (fun c => negb (is_space c)) s = true -> strip s = s.
Proof.
  intros H. unfold strip. destruct s as [|c s]; [reflexivity|].
  pose proof H as H'. simpl in H'. apply andb_true_iff in H' as [Hc _].
  apply negb_true_iff in Hc. rewrite (lstrip_no_space _ _ Hc).
  apply rstrip_no_space. exact H.
Qed.

Lemma all_chars_impl (p q : ascii -> bool) s :
  (forall c, p c = true -> q c = true) ->
  all_chars p s = true -> all_chars q s = true.
Proof.
  intros Hpq. induction s as [|c s IH]; [reflexivity|]. simpl.
  intros H. apply andb_true_iff in H as [Hc Hs].
  rewrite (Hpq _ Hc), (IH Hs). reflexivity.
Qed.

Lemma sub_dollar_go_plain s :
  all_chars (fun c => negb (char_eqb c "$")) s = true ->
  sub_dollar_go None s = s.
Proof.
  induction s as [|c s IH]; intros H; [reflexivity|].
  simpl in H. apply andb_true_iff in H as [Hc Hs]. apply negb_true_iff in Hc.
  simpl. rewrite Hc, (IH Hs). reflexivity.
Qed.

Lemma drop_chars_cons n c s : drop_chars (S n) (String c s) = drop_chars n s.
Proof. reflexivity. Qed.

Lemma all_chars_drop p n : forall s,
  all_chars p s = true -> all_chars p (drop_chars n s) = true.
Proof.
  induction n as [|n IH]; intros s H; [exact H|].
  destruct s as [|c s]; [reflexivity|]. rewrite drop_chars_cons.
  simpl in H. apply andb_true_iff in H as [_ Hs]. auto.
Qed.

Lemma all_chars_span_snd p q s :
  all_chars p s = true -> all_chars p (snd (span q s)) = true.
Proof.
  intros H. destruct (span_spec q s) as [_ Hs]. rewrite Hs in H.
  rewrite all_chars_app in H. apply andb_true_iff in H as [_ H]. exact H.
Qed.

Lemma sub_call_go_plain name fuel : forall prev s,
  all_chars (fun c => negb (char_eqb c "(")) s = true ->
  sub_call_go fuel name prev s = s.
Proof.
  induction fuel as [|fuel IH]; intros prev s H; [reflexivity|].
  destruct s as [|c s']; [reflexivity|].
  assert (String c (sub_call_go fuel name (is_word c) s') = String c s') as Hskip.
  { f_equal. apply IH. simpl in H. apply andb_true_iff in H as [_ H]. exact H. }
  simpl. rewrite Hskip.
  destruct (negb prev && startswith name (String c s')); [|reflexivity].
  pose proof (all_chars_span_snd _ is_space _
                (all_chars_drop _ (String.length name) _ H)) as Hp.
  destruct (snd (span is_space (drop_chars (String.length name) (String c s'))))
    as [|p rest]; [reflexivity|].
  simpl in Hp. apply andb_true_iff in Hp as [Hp _]. apply negb_true_iff in Hp.
  rewrite Hp. reflexivity.
Qed.

Lemma expression_text_plain s :
  all_chars (fun c => negb (is_space c) && negb (char_eqb c "$")
                      && negb (char_eqb c "(")) s = true ->
  expression_text s = s.
Proof.
  intros H. unfold expression_text.
  rewrite strip_no_space
    by (eapply all_chars_impl; [|exact H]; intros c Hc; cbv beta in Hc;
        destruct (is_space c); [discriminate|reflexivity]).
  unfold sub_dollar. rewrite sub_dollar_go_plain
    by (eapply all_chars_impl; [|exact H]; intros c Hc; cbv beta in Hc;
        destruct (char_eqb c "$"); [|reflexivity];
        rewrite andb_false_r in Hc; discriminate).
  assert (all_chars (fun c => negb (char_eqb c "(")) s = true) as Hp
    by (eapply all_chars_impl; [|exact H]; intros c Hc; cbv beta in Hc;
        destruct (char_eqb c "("); [|reflexivity];
        rewrite andb_false_r in Hc; discriminate).
  unfold sub_call. rewrite (sub_call_go_plain "lo" _ false s Hp).
  apply sub_call_go_plain. exact Hp.
Qed.

Lemma span_all p s : all_chars p s = true -> span p s = (s, "").
Proof.
  induction s as [|c s IH]; intros H; [reflexivity|].
  simpl in H. apply andb_true_iff in H as [Hc Hs].
  simpl. rewrite Hc, (IH Hs). reflexivity.
Qed.

Lemma word_char_plain c :
  is_word c = true ->
  negb (is_space c) && negb (char_eqb c "$") && negb (char_eqb c "(") = true.
Proof. destruct c as [[] [] [] [] [] [] [] []]; cbv; congruence. Qed.

Lemma ident_start_branches c :
  is_ident_start c = true ->
  char_eqb c " " || char_eqb c tab = false /\ is_digit c = false.
Proof. destruct c as [[] [] [] [] [] [] [] []]; cbv; intuition congruence. Qed.

Lemma tokenize_identifier s :
  is_identifier s = true -> is_keyword s = false ->
  tokenize (S (String.length s)) s = OK [TName s].
Proof.
  unfold is_identifier. intros H Hk. apply andb_true_iff in H as [Hs Hw].
  destruct s as [|c r]; [discriminate|]. simpl in Hs.
  destruct (ident_start_branches c Hs) as [H1 H2].
  cbn [tokenize String.length]. rewrite H1, H2, Hs.
  rewrite (span_all _ _ Hw), Hk. reflexivity.
Qed.

(** X22: an expression that is a bare name evaluates to the value the
    symbol table holds for it, and raises the evaluation error when the
    table has no such name.  The name is an identifier that is neither a
    keyword, nor one of the two helper names of the evaluator, nor
    [__debug__], which the interpreter reads as a constant. *)
Theorem bare_name_is_looked_up (name : string) (symbols : gmap string Z)
  (Hid : is_identifier name = true)
  (Hkw : is_keyword name = false)
  (Hlo : name <> "__lo__") (Hhi : name <> "__hi__")
  (Hdbg : name <> "__debug__") :
  eval_expr name symbols
  = match symbols !! name with
    | Some v => OK v
    | None => Err (AsmError CannotEvaluate)
    end.
Proof.
  unfold eval_expr.
  rewrite expression_text_plain.
  2:{ unfold is_identifier in Hid. apply andb_true_iff in Hid as [_ Hw].
      eapply all_chars_impl; [|exact Hw]. apply word_char_plain. }
  unfold py_eval, py_parse. rewrite (tokenize_identifier _ Hid Hkw).
  change (bind (OK [TName name]) (fun ts => parse ts)) with (OK (EName name) : result expr).
  simpl.
  assert (str_eqb name "__lo__" = false) as ->
    by (destruct (str_eqb name "__lo__") eqn:E; [apply str_eqb_eq in E; contradiction|reflexivity]).
  assert (str_eqb name "__hi__" = false) as ->
    by (destruct (str_eqb name "__hi__") eqn:E; [apply str_eqb_eq in E; contradiction|reflexivity]).
  assert (str_eqb name "__debug__" = false) as ->
    by (destruct (str_eqb name "__debug__") eqn:E; [apply str_eqb_eq in E; contradiction|reflexivity]).
  simpl. destruct (symbols !! name); reflexivity.
Qed.

Lemma bare_name_is_looked_up_witness :
  eval_expr "target" {[ "target" := 5 ]} = OK 5
  /\ eval_expr "target" ∅ = Err (AsmError CannotEvaluate).
Proof.
  split.
  - rewrite (bare_name_is_looked_up "target" {[ "target" := 5 ]} eq_refl eq_refl)
      by discriminate.
    reflexivity.
  - rewrite (bare_name_is_looked_up "target" ∅ eq_refl eq_refl) by discriminate.
    reflexivity.
Defined.

Lemma int_of_digits_from_app b s1 : forall acc s2,
  int_of_digits_from b acc (s1 +:+ s2)
  = int_of_digits_from b (int_of_digits_from b acc s1) s2.
Proof.
  induction s1 as [|c s1 IH]; intros acc s2; [reflexivity|].
  rewrite append_cons. simpl. apply IH.
Qed.

Lemma hex_digit_spec d :
  0 <= d <= 15 -> digit_val (hex_digit d) = d /\ is_hex (hex_digit d) = true.
Proof.
  intros Hd.
  assert (forallb (fun d => (digit_val (hex_digit d) =? d) && is_hex (hex_digit d))
            regs = true) as Hall by (vm_compute; reflexivity).
  pose proof (forall_regs _ Hall d Hd) as H. cbv beta in H.
  apply andb_true_iff in H as [H1 H2]. split; [lia|exact H2].
Qed.

Lemma hex_digits_pos_spec fuel : forall p acc,
  Zpos p < 2 ^ Z.of_nat fuel ->
  exists h,
    hex_digits_pos p acc fuel = h +:+ acc
    /\ h <> "" /\ all_chars is_hex h = true /\ int_of_digits 16 h = Zpos p.
Proof.
  induction fuel as [|fuel IH]; intros p acc Hp; [simpl in Hp; lia|].
  assert (0 <= Zpos p mod 16 <= 15) as Hd
    by (pose proof (Z.mod_pos_bound (Zpos p) 16); lia).
  destruct (hex_digit_spec _ Hd) as [Hv Hh].
  cbn [hex_digits_pos].
  destruct (Zpos p / 16) as [|p'|p'] eqn:Hq.
  - exists (String (hex_digit (Zpos p mod 16)) ""). split; [reflexivity|].
    split; [discriminate|]. split; [simpl; rewrite Hh; reflexivity|].
    unfold int_of_digits. simpl. rewrite Hv.
    pose proof (Z.div_mod (Zpos p) 16). lia.
  - destruct (IH p' (String (hex_digit (Zpos p mod 16)) acc)) as (h & Hh1 & Hh2 & Hh3 & Hh4).
    { rewrite Nat2Z.inj_succ, Z.pow_succ_r in Hp by lia.
      assert (Zpos p / 16 < 2 ^ Z.of_nat fuel)
        by (apply Z.div_lt_upper_bound; lia).
      lia. }
    exists (h +:+ String (hex_digit (Zpos p mod 16)) "").
    split; [rewrite Hh1, append_assoc; reflexivity|].
    split; [destruct h; [congruence|discriminate]|].
    split; [rewrite all_chars_app, Hh3; simpl; rewrite Hh; reflexivity|].
    unfold int_of_digits in *. rewrite int_of_digits_from_app, Hh4. simpl.
    rewrite Hv. pose proof (Z.div_mod (Zpos p) 16). lia.
  - pose proof (Z.div_pos (Zpos p) 16). lia.
Qed.

Lemma py_hex_spec n :
  0 <= n ->
  exists h,
    py_hex n = "0x" +:+ h
    /\ h <> "" /\ all_chars is_hex h = true /\ int_of_digits 16 h = n.
Proof.
  intros Hn. destruct n as [|p|p]; [|  |lia].
  - exists "0". repeat split; discriminate.
  - unfold py_hex.
    destruct (hex_digits_pos_spec (Pos.to_nat (Pos.size p)) p "")
      as (h & Hh1 & Hh2 & Hh3 & Hh4).
    { rewrite positive_nat_Z.
      pose proof (Pos.size_gt p) as Hs.
      apply Pos2Z.pos_lt_pos in Hs. rewrite Pos2Z.inj_pow in Hs. exact Hs. }
    exists h. rewrite Hh1, append_nil_r. auto.
Qed.

Lemma sub_dollar_go_hex ds : forall acc,
  all_chars is_hex ds = true ->
  sub_dollar_go (Some acc) ds = flush_dollar (Some (acc +:+ ds)).
Proof.
  induction ds as [|c ds IH]; intros acc H.
  - rewrite append_nil_r. reflexivity.
  - simpl in H. apply andb_true_iff in H as [Hc Hs].
    simpl. rewrite Hc, (IH _ Hs), append_assoc. reflexivity.
Qed.

Lemma hex_char_plain c :
  is_hex c = true ->
  negb (is_space c) && negb (char_eqb c "$") && negb (char_eqb c "(") = true
  /\ is_number_char c = true.
Proof. destruct c as [[] [] [] [] [] [] [] []]; cbv; intuition congruence. Qed.

Lemma tokenize_hex_literal h :
  h <> "" -> all_chars is_hex h = true ->
  tokenize (S (String.length ("0x" +:+ h))) ("0x" +:+ h)
  = OK [TNum (int_of_digits 16 h)].
Proof.
  intros Hne Hh.
  change ("0x" +:+ h) with (String "0" (String "x" h)).
  cbn [tokenize String.length].
  change (char_eqb "0" " " || char_eqb "0" tab) with false.
  change (is_digit "0") with true. cbv iota.
  rewrite span_all.
  2:{ simpl. eapply all_chars_impl; [|exact Hh]. intros c Hc.
      apply hex_char_plain in Hc. tauto. }
  unfold number_literal.
  change (char_eqb "x" "x" || char_eqb "x" "X") with true.
  rewrite Hh.
  assert (str_eqb h "" = false) as ->
    by (destruct h; [congruence|reflexivity]).
  reflexivity.
Qed.

(** X23: a dollar sign followed by hexadecimal digits is a literal with
    that value: the text [hex()] writes for it in place of the dollar
    form is read back by [eval] as the same number. *)
Theorem dollar_literal_is_hexadecimal (ds : string) (symbols : gmap string Z)
  (Hne : ds <> "")
  (Hds : all_chars is_hex ds = true) :
  eval_expr (String "$" ds) symbols = OK (int_of_digits 16 ds).
Proof.
  assert (0 <= int_of_digits 16 ds) as Hpos
    by (apply int_of_digits_from_nonneg; lia).
  destruct (py_hex_spec _ Hpos) as (h & Hh1 & Hh2 & Hh3 & Hh4).
  assert (expression_text (String "$" ds) = "0x" +:+ h) as Htext.
  { unfold expression_text.
    rewrite strip_no_space.
    2:{ simpl. eapply all_chars_impl; [|exact Hds]. intros c Hc.
        apply hex_char_plain in Hc as [Hc _].
        destruct (is_space c); [discriminate|reflexivity]. }
    unfold sub_dollar. simpl.
    rewrite (sub_dollar_go_hex ds "" Hds), append_nil_l.
    assert (flush_dollar (Some ds) = py_hex (int_of_digits 16 ds)) as ->
      by (destruct ds; [congruence|reflexivity]).
    rewrite Hh1.
    assert (all_chars (fun c => negb (char_eqb c "(")) ("0x" +:+ h) = true) as Hp.
    { simpl. eapply all_chars_impl; [|exact Hh3]. intros c Hc.
      apply hex_char_plain in Hc as [Hc _].
      destruct (char_eqb c "("); [|reflexivity].
      rewrite andb_false_r in Hc. discriminate. }
    unfold sub_call. rewrite (sub_call_go_plain "lo" _ false _ Hp).
    apply sub_call_go_plain. exact Hp. }
  unfold eval_expr. rewrite Htext.
  unfold py_eval, py_parse. rewrite (tokenize_hex_literal h Hh2 Hh3), Hh4.
  reflexivity.
Qed.

Lemma dollar_literal_is_hexadecimal_witness :
  eval_expr "$FFFC" ∅ = OK 0xFFFC.
Proof.
  exact (dollar_literal_is_hexadecimal "FFFC" ∅ ltac:(discriminate) eq_refl).
Defined.

(** X24: [lo] and [hi] are the two bytes of a value modulo 65536: each is
    between 0 and 255, and the low one plus 256 times the high one gives
    the value back. *)
Theorem lo_hi_split_a_word (ns : gmap string Z) (e : expr) (v : pyval) (z : Z)
  (He : eval_ast ns e = OK v)
  (Hz : py_int v = OK z) :
  exists l h,
    eval_ast ns (ECall FLo e) = OK (PInt l)
    /\ eval_ast ns (ECall FHi e) = OK (PInt h)
    /\ 0 <= l < 256 /\ 0 <= h < 256
    /\ l + 256 * h = z mod 65536.
Proof.
  exists (Z.land z 255), (Z.land (Z.shiftr z 8) 255).
  simpl. rewrite He. simpl. rewrite Hz. simpl.
  split; [reflexivity|]. split; [reflexivity|].
  rewrite !land_255_mod, shiftr_8_div.
  pose proof (Z.mod_pos_bound z 256). pose proof (Z.mod_pos_bound (z / 256) 256).
  split; [lia|]. split; [lia|].
  change 65536 with (256 * 256). rewrite Z.rem_mul_r by lia. lia.
Qed.

Lemma lo_hi_split_a_word_witness :
  eval_expr "lo(0x1234)" ∅ = OK 0x34 /\ eval_expr "hi (0x1234)" ∅ = OK 0x12
  /\ exists l h,
       eval_ast ∅ (ECall FLo (ENum 0x1234)) = OK (PInt l)
       /\ eval_ast ∅ (ECall FHi (ENum 0x1234)) = OK (PInt h)
       /\ l + 256 * h = 0x1234.
Proof.
  split; [vm_compute; reflexivity|]. split; [vm_compute; reflexivity|].
  destruct (lo_hi_split_a_word ∅ (ENum 0x1234) (PInt 0x1234) 0x1234 eq_refl eq_refl)
    as (l & h & Hl & Hh & _ & _ & Hsum).
  exists l, h. auto.
Defined.

(** ** The pre-processor *)

Lemma parse_one_origin line fn ln sl :
  _parse_one line fn ln = Some sl -> filename sl = fn /\ lineno sl = ln.
Proof.
  intros H.
  destruct (str_eqb (strip line) "") eqn:He.
  { unfold _parse_one in H. rewrite He in H. discriminate. }
  assert (strip line <> "") as Hne
    by (intros E; rewrite E in He; discriminate).
  destruct (parse_one_shape line fn ln Hne) as (lbl & body & _ & Hs).
  rewrite Hs in H.
  destruct (str_eqb body ""); [injection H as <-; auto|].
  destruct (match_mnemonic body) as [[mn r]|]; injection H as <-; auto.
Qed.

Lemma expand_body_origin sl pas fn ln body : forall res out,
  expand_body sl pas fn ln res body = OK out ->
  Forall (fun x => filename x = fn /\ lineno x = ln) res ->
  Forall (fun x => filename x = fn /\ lineno x = ln) out.
Proof.
  induction body as [|b body IH]; intros res out H Hres; simpl in H.
  - injection H as <-. exact Hres.
  - inv_bind H. destruct (_parse_one x fn ln) as [sub|] eqn:Hp; [|eauto].
    apply parse_one_origin in Hp.
    eapply IH; [exact H|]. apply Forall_app. split; [exact Hres|].
    constructor; [|constructor].
    destruct ((List.length res =? 0)%nat && truthy (label sl)); exact Hp.
Qed.

Lemma expand_builtin_origin sl fn ln out :
  _expand_builtin sl fn ln = OK out ->
  Forall (fun x => filename x = fn /\ lineno x = ln) out.
Proof.
  unfold _expand_builtin, expand_loadaddr. intros H.
  repeat match type of H with
         | (if ?c then _ else _) = _ => destruct c
         | match ?l with [] => _ | _ :: _ => _ end = _ => destruct l
         | Err _ = OK _ => discriminate H
         end; simpl in H; injection H as <-; repeat constructor.
Qed.

Lemma process_plain_line_origin st line0 fn ln st' lines :
  process_plain_line st line0 fn ln = OK (st', lines) ->
  Forall (fun x => filename x = fn /\ lineno x = ln) lines.
Proof.
  unfold process_plain_line. intros H. inv_bind H. clear Hx. rename x into st1.
  destruct (_parse_one _ fn ln) as [sl|] eqn:Hp;
    [|injection H as _ <-; constructor].
  apply parse_one_origin in Hp.
  destruct (truthy (mnemonic sl) && bool_decide _).
  { inv_bind H. injection H as _ <-.
    unfold _expand_macro in Hx.
    destruct (macros st1 !! mn_upper sl) as [[params body]|]; [|discriminate].
    destruct (negb _); [discriminate|].
    eapply expand_body_origin; [exact Hx|constructor]. }
  match type of H with (if ?c then _ else _) = _ => destruct c end.
  { inv_bind H. injection H as _ <-. eapply expand_builtin_origin; eauto. }
  injection H as _ <-. constructor; [exact Hp|constructor].
Qed.

Lemma process_lines_origin
  (pf : string -> pp_state -> result (pp_state * list SourceLine))
  (Q : SourceLine -> Prop) :
  (forall p st st' r, pf p st = OK (st', r) -> Forall Q r) ->
  forall lines st loc fn st' r,
    _process_lines pf st loc lines fn = OK (st', r) ->
    (forall sl, at_line fn (pl_lineno loc)
                  (pl_lineno loc + Z.of_nat (List.length lines)) sl -> Q sl) ->
    Forall Q (pl_out loc) ->
    Forall Q r.
Proof.
  intros Hpf. induction lines as [|raw0 rest IH]; intros st loc fn st' r H HQ Hout.
  - simpl in H. destruct (pl_in_macro loc); [discriminate|].
    injection H as _ <-. exact Hout.
  - destruct loc as [out ln0 in_macro body]. simpl in H, HQ, Hout.
    assert (forall sl, at_line fn (ln0 + 1)
                         (ln0 + 1 + Z.of_nat (List.length rest)) sl -> Q sl) as HQ'.
    { intros sl [Hf Hl]. apply HQ. split; [exact Hf|]. lia. }
    destruct (str_eqb (strip (strip_comment raw0)) "");
      [exact (IH _ _ _ _ _ H HQ' Hout)|].
    destruct in_macro as [[name params]|].
    { destruct (str_eqb _ ".ENDM"); exact (IH _ _ _ _ _ H HQ' Hout). }
    destruct (startswith ".MACRO" _).
    { destruct (str_eqb _ ""); [discriminate|]. exact (IH _ _ _ _ _ H HQ' Hout). }
    destruct (startswith ".INCLUDE" _).
    { destruct (match_include _) as [inc|]; [|discriminate].
      inv_bind H. destruct x as [st1 lines1].
      apply (IH _ _ _ _ _ H HQ'). simpl.
      apply Forall_app. split; [exact Hout|]. eapply Hpf; eauto. }
    inv_bind H. destruct x as [st1 lines1].
    apply (IH _ _ _ _ _ H HQ'). simpl.
    apply Forall_app. split; [exact Hout|].
    apply process_plain_line_origin in Hx.
    eapply Forall_impl; [exact Hx|]. intros sl [Hf Hl]. apply HQ.
    split; [exact Hf|]. lia.
Qed.

Lemma process_file_origin fs fuel : forall path st st' r,
  process_file fs fuel path st = OK (st', r) -> Forall (from_file fs) r.
Proof.
  induction fuel as [|fuel IH]; intros path st st' r H; simpl in H;
    [discriminate|].
  destruct (bool_decide _); [discriminate|].
  destruct (fs_files fs !! _) as [text|] eqn:Hfile; [|discriminate].
  inv_bind H. destruct x as [st1 lines1]. injection H as _ <-.
  eapply (process_lines_origin _ (from_file fs) IH); [exact Hx| |constructor].
  simpl. intros sl [Hf Hl]. exists text. rewrite Hf. split; [exact Hfile|lia].
Qed.

(** X25: every source line the pre-processor returns says where it comes
    from.  A line of [process_file] names a file of the file system and a
    line number from 1 to the number of lines of that file; a line of
    [process_string] names the given text and one of its lines, or comes
    from an included file in the same way.  Lines made by a macro or a
    built-in expansion carry the place of the invocation. *)
Theorem source_lines_keep_their_origin (fs : file_system) (fuel : nat)
  (st st' : pp_state) (out : list SourceLine) :
  (forall path,
     process_file fs fuel path st = OK (st', out) -> Forall (from_file fs) out) /\
  (forall text fn,
     process_string fs fuel text fn st = OK (st', out) ->
     Forall (fun sl => at_line fn 0 (Z.of_nat (List.length (splitlines text))) sl
                       \/ from_file fs sl) out).
Proof.
  split.
  - intros path H. eapply process_file_origin; eauto.
  - intros text fn H. unfold process_string in H.
    eapply (process_lines_origin _ _ _ _ _ _ _ _ _ H); [|constructor].
    simpl. intros sl Hsl. left. exact Hsl.
    Unshelve.
    intros p s s' r Hp. apply process_file_origin in Hp.
    eapply Forall_impl; [exact Hp|]. intros sl Hsl. right. exact Hsl.
Qed.

Lemma source_lines_keep_their_origin_witness :
  exists pp sl,
    process_file cyclic_files 7 "main.asm" (Preprocessor ∅) = OK (pp, [sl])
    /\ from_file cyclic_files sl.
Proof.
  destruct (process_file cyclic_files 7 "main.asm" (Preprocessor ∅))
    as [[pp out]|e] eqn:H; [|vm_compute in H; discriminate H].
  pose proof (proj1 (source_lines_keep_their_origin cyclic_files 7
                       (Preprocessor ∅) pp out) "main.asm" H) as Hall.
  destruct out as [|sl [|sl' out]];
    [vm_compute in H; discriminate H| |vm_compute in H; discriminate H].
  exists pp, sl. split; [reflexivity|].
  inversion Hall; assumption.
Defined.

(** ** Macro definitions *)

Lemma upper_clean_nil raw : str_eqb (clean raw) "" = true -> is_endm raw = false.
Proof.
  intros H. apply str_eqb_eq in H. unfold is_endm. rewrite H. reflexivity.
Qed.

(** X26: between [.macro] and [.endm] no line is processed.  The body
    keeps every line that is not blank once its comment is dropped, and
    [.endm] stores it under the upper-case name; without an [.endm] the
    text is refused as an unterminated macro, whatever its lines hold. *)
Theorem macro_body_is_collected
  (pf : string -> pp_state -> result (pp_state * list SourceLine))
  (st : pp_state) (fn name : string) (params : list string)
  (raws : list string)
  (Hraws : Forall (fun raw => is_endm raw = false) raws) :
  (forall out ln body0,
     _process_lines pf st (mkPL out ln (Some (name, params)) body0) raws fn
     = Err (AsmError UnterminatedMacro)) /\
  (forall out ln body0 e rest,
     is_endm e = true ->
     _process_lines pf st (mkPL out ln (Some (name, params)) body0)
       (raws ++ e :: rest) fn
     = _process_lines pf
         (mkPP (<[upper name := (params, body0 ++ body_lines raws)]> (macros st))
               (defines st) (_include_stack st))
         (mkPL out (ln + Z.of_nat (List.length raws) + 1) None []) rest fn).
Proof.
  induction Hraws as [|raw raws Hraw _ [IH1 IH2]].
  - split; [reflexivity|].
    intros out ln body0 e rest He. simpl.
    fold (clean e).
    destruct (str_eqb (clean e) "") eqn:Hb;
      [rewrite (upper_clean_nil _ Hb) in He; discriminate|].
    unfold is_endm in He. rewrite He.
    unfold body_lines. simpl. rewrite app_nil_r, Z.add_0_r. reflexivity.
  - split.
    + intros out ln body0. simpl. fold (clean raw).
      destruct (str_eqb (clean raw) "") eqn:Hb; [apply IH1|].
      unfold is_endm in Hraw. rewrite Hraw. apply IH1.
    + intros out ln body0 e rest He. simpl. fold (clean raw).
      unfold body_lines. simpl. fold (body_lines raws).
      destruct (str_eqb (clean raw) "") eqn:Hb.
      * simpl. rewrite (IH2 _ _ _ _ _ He).
        replace (ln + 1 + Z.of_nat (List.length raws) + 1)
          with (ln + Z.pos (Pos.of_succ_nat (List.length raws)) + 1) by lia.
        reflexivity.
      * unfold is_endm in Hraw. rewrite Hraw. simpl.
        rewrite (IH2 _ _ _ _ _ He), <- app_assoc. simpl.
        replace (ln + 1 + Z.of_nat (List.length raws) + 1)
          with (ln + Z.pos (Pos.of_succ_nat (List.length raws)) + 1) by lia.
        reflexivity.
Qed.

Lemma macro_body_is_collected_witness :
  exists pp out,
    process_string no_files 0 macro_program "<string>" (Preprocessor ∅)
    = OK (pp, out)
    /\ macros pp !! "LDI"
       = Some (["rd"; "val"], ["XOR \rd, \rd, \rd"; "ADD \rd, #val"])
    /\ process_string no_files 0 (".macro M" +:+ nl +:+ "RET" +:+ nl)
         "<string>" (Preprocessor ∅)
       = Err (AsmError UnterminatedMacro).
Proof.
  destruct (process_string no_files 0 macro_program "<string>" (Preprocessor ∅))
    as [[pp out]|e] eqn:H; [|vm_compute in H; discriminate H].
  exists pp, out. split; [reflexivity|]. split.
  - vm_compute in H. injection H as <- _. reflexivity.
  - apply (proj1 (macro_body_is_collected
                    (process_file no_files 0) (Preprocessor ∅) "<string>" "M" []
                    ["RET" +:+ nl] ltac:(repeat constructor)) [] 1 []).
Defined.

(** ** Macro expansion *)

Lemma expand_body_rest sl pas fn ln body : forall expanded res,
  Forall2 (fun b e => substitute_params b pas = OK e) body expanded ->
  res <> [] ->
  expand_body sl pas fn ln res body
  = OK (res ++ omap (fun e => _parse_one e fn ln) expanded).
Proof.
  induction body as [|b body IH]; intros expanded res Hsub Hres;
    inversion Hsub as [|? e ? expanded' Hb Hrest]; subst; simpl.
  - rewrite app_nil_r. reflexivity.
  - rewrite Hb. simpl.
    destruct (_parse_one e fn ln) as [sub|]; [|apply IH; assumption].
    assert ((List.length res =? 0)%nat = false) as ->
      by (destruct res; [congruence|reflexivity]).
    simpl. rewrite (IH expanded' _ Hrest) by (destruct res; discriminate).
    rewrite <- app_assoc. reflexivity.
Qed.

Lemma expand_body_first sl pas fn ln body : forall expanded,
  Forall2 (fun b e => substitute_params b pas = OK e) body expanded ->
  expand_body sl pas fn ln [] body
  = OK (relabel (label sl) (omap (fun e => _parse_one e fn ln) expanded)).
Proof.
  induction body as [|b body IH]; intros expanded Hsub;
    inversion Hsub as [|? e ? expanded' Hb Hrest]; subst; simpl.
  - reflexivity.
  - rewrite Hb. simpl.
    destruct (_parse_one e fn ln) as [sub|]; [|apply IH; assumption].
    rewrite (expand_body_rest _ _ _ _ _ expanded' _ Hrest) by discriminate.
    reflexivity.
Qed.

(** X27: a macro invocation with the right number of arguments expands to
    its body, line by line: each body line with the parameters replaced
    is parsed again, a line that parses to nothing is dropped, and the
    label of the invocation goes to the first line that is produced.  A
    wrong number of arguments is refused. *)
Theorem macro_expands_line_by_line (st : pp_state) (sl : SourceLine)
  (fn : string) (ln : Z) (params body : list string)
  (Hmac : macros st !! mn_upper sl = Some (params, body)) :
  (List.length (operands sl) <> List.length params ->
   _expand_macro st sl fn ln = Err (AsmError MacroArgCount)) /\
  (forall expanded,
     List.length (operands sl) = List.length params ->
     Forall2 (fun b e =>
                substitute_params b (List.combine params (operands sl)) = OK e)
             body expanded ->
     _expand_macro st sl fn ln
     = OK (relabel (label sl) (omap (fun e => _parse_one e fn ln) expanded))).
Proof.
  unfold _expand_macro. rewrite Hmac. split.
  - intros Hlen.
    destruct (List.length (operands sl) =? List.length params)%nat eqn:E;
      [apply Nat.eqb_eq in E; contradiction|reflexivity].
  - intros expanded Hlen Hsub. rewrite Hlen, Nat.eqb_refl. simpl.
    apply expand_body_first. exact Hsub.
Qed.

Lemma macro_expands_line_by_line_witness :
  exists pp x a,
    process_string no_files 0 macro_program "<string>" (Preprocessor ∅)
    = OK (pp, [x; a])
    /\ label x = Some "here" /\ mnemonic x = Some "XOR"
    /\ operands x = ["R3"; "R3"; "R3"]
    /\ label a = None /\ operands a = ["R3"; "#0x42"]
    /\ _expand_macro pp (line "LDI" ["R3"; "0x42"]) "m" 9
       = OK (relabel None
               (omap (fun e => _parse_one e "m" 9)
                     ["XOR R3, R3, R3"; "ADD R3, #0x42"])).
Proof.
  destruct (process_string no_files 0 macro_program "<string>" (Preprocessor ∅))
    as [[pp out]|e] eqn:H; [|vm_compute in H; discriminate H].
  assert (macros pp !! "LDI"
          = Some (["rd"; "val"], ["XOR \rd, \rd, \rd"; "ADD \rd, #val"])) as Hmac.
  { pose proof H as H'. vm_compute in H'. injection H' as <- _. reflexivity. }
  destruct out as [|x [|a [|b out]]]; try (vm_compute in H; discriminate H).
  exists pp, x, a. split; [reflexivity|].
  assert (label x = Some "here" /\ mnemonic x = Some "XOR"
          /\ operands x = ["R3"; "R3"; "R3"]
          /\ label a = None /\ operands a = ["R3"; "#0x42"]) as Hout.
  { vm_compute in H. injection H as _ <- <-. repeat split. }
  destruct Hout as (H1 & H2 & H3 & H4 & H5).
  repeat (split; [assumption|]).
  apply (proj2 (macro_expands_line_by_line pp (line "LDI" ["R3"; "0x42"]) "m" 9
                  ["rd"; "val"] ["XOR \rd, \rd, \rd"; "ADD \rd, #val"] Hmac)).
  - reflexivity.
  - repeat constructor.
Defined.

(** ** [LOADADDR] *)

Lemma span_stop p a c b :
  all_chars p a = true -> p c = false ->
  span p (a +:+ String c b) = (a, String c b).
Proof.
  intros Ha Hc. induction a as [|x a IH].
  - rewrite append_nil_l. simpl. rewrite Hc. reflexivity.
  - simpl in Ha. apply andb_true_iff in Ha as [Hx Ha].
    rewrite append_cons. simpl. rewrite Hx, (IH Ha). reflexivity.
Qed.

Lemma sub_call_lo_head fuel rest :
  sub_call_go (S fuel) "lo" false ("lo(" +:+ rest)
  = "__lo__(" +:+ sub_call_go fuel "lo" false rest.
Proof. reflexivity. Qed.

Lemma sub_call_hi_head fuel rest :
  sub_call_go (S (S (S (S (S (S (S fuel))))))) "hi" false ("__lo__(" +:+ rest)
  = "__lo__(" +:+ sub_call_go fuel "hi" false rest.
Proof. reflexivity. Qed.

Lemma expression_text_lo_name name :
  is_identifier name = true ->
  expression_text ("lo(" +:+ name +:+ ")") = "__lo__(" +:+ name +:+ ")".
Proof.
  intros Hid. unfold is_identifier in Hid. apply andb_true_iff in Hid as [_ Hw].
  assert (all_chars (fun c => negb (is_space c) && negb (char_eqb c "$")
                              && negb (char_eqb c "(")) name = true) as Hplain
    by (eapply all_chars_impl; [|exact Hw]; apply word_char_plain).
  assert (all_chars (fun c => negb (char_eqb c "(")) (name +:+ ")") = true) as Hp.
  { rewrite all_chars_app. apply andb_true_iff. split; [|reflexivity].
    eapply all_chars_impl; [|exact Hplain]. intros c Hc. cbv beta in Hc.
    destruct (char_eqb c "("); [|reflexivity].
    rewrite andb_false_r in Hc. discriminate. }
  unfold expression_text.
  rewrite strip_no_space.
  2:{ change ("lo(" +:+ name +:+ ")")
        with (String "l" (String "o" (String "(" (name +:+ ")")))).
      simpl. rewrite all_chars_app. apply andb_true_iff. split; [|reflexivity].
      eapply all_chars_impl; [|exact Hplain]. intros c Hc. cbv beta in Hc.
      destruct (is_space c); [discriminate|reflexivity]. }
  unfold sub_dollar. rewrite sub_dollar_go_plain.
  2:{ change ("lo(" +:+ name +:+ ")")
        with (String "l" (String "o" (String "(" (name +:+ ")")))).
      simpl. rewrite all_chars_app. apply andb_true_iff. split; [|reflexivity].
      eapply all_chars_impl; [|exact Hplain]. intros c Hc. cbv beta in Hc.
      destruct (char_eqb c "$"); [|reflexivity].
      rewrite andb_false_r in Hc. discriminate. }
  unfold sub_call.
  change (String.length ("lo(" +:+ name +:+ ")"))
    with (S (S (S (String.length (name +:+ ")"))))).
  rewrite sub_call_lo_head, (sub_call_go_plain "lo" _ false _ Hp).
  change (String.length ("__lo__(" +:+ name +:+ ")"))
    with (S (S (S (S (S (S (S (String.length (name +:+ ")"))))))))).
  rewrite sub_call_hi_head, (sub_call_go_plain "hi" _ false _ Hp).
  reflexivity.
Qed.

Lemma tokenize_lo_head fuel rest :
  tokenize (S fuel) ("__lo__(" +:+ rest)
  = bind (tokenize fuel (String "(" rest)) (fun ts => OK (TName "__lo__" :: ts)).
Proof. reflexivity. Qed.

Lemma tokenize_lparen fuel rest :
  tokenize (S fuel) (String "(" rest)
  = bind (tokenize fuel rest) (fun ts => OK (TLParen :: ts)).
Proof. reflexivity. Qed.

Lemma tokenize_rparen fuel :
  tokenize (S (S fuel)) ")" = OK [TRParen].
Proof. reflexivity. Qed.

Lemma tokenize_name_stop fuel name c rest :
  is_identifier name = true -> is_keyword name = false -> is_word c = false ->
  tokenize (S fuel) (name +:+ String c rest)
  = bind (tokenize fuel (String c rest)) (fun ts => OK (TName name :: ts)).
Proof.
  intros Hid Hk Hc. unfold is_identifier in Hid.
  apply andb_true_iff in Hid as [Hs Hw].
  destruct name as [|x r]; [discriminate|]. simpl in Hs.
  destruct (ident_start_branches x Hs) as [H1 H2].
  rewrite append_cons. cbn [tokenize]. rewrite H1, H2, Hs.
  rewrite <- (append_cons x r (String c rest)).
  rewrite (span_stop is_word (String x r) c rest Hw Hc), Hk.
  reflexivity.
Qed.

Lemma tokenize_lo_name name :
  is_identifier name = true -> is_keyword name = false ->
  tokenize (S (String.length ("__lo__(" +:+ name +:+ ")")))
           ("__lo__(" +:+ name +:+ ")")
  = OK [TName "__lo__"; TLParen; TName name; TRParen].
Proof.
  intros Hid Hk.
  change (String.length ("__lo__(" +:+ name +:+ ")"))
    with (S (S (S (S (S (S (S (String.length (name +:+ ")"))))))))).
  assert (exists n, String.length (name +:+ ")") = S n) as [n ->].
  { destruct name as [|c r]; [discriminate|]. rewrite append_cons. simpl. eauto. }
  rewrite tokenize_lo_head, tokenize_lparen.
  rewrite (tokenize_name_stop _ name ")" "" Hid Hk eq_refl).
  rewrite tokenize_rparen. reflexivity.
Qed.

Lemma eval_expr_lo_name name symbols v :
  is_identifier name = true -> is_keyword name = false ->
  name <> "__lo__" -> name <> "__hi__" -> name <> "__debug__" ->
  symbols !! name = Some v ->
  eval_expr ("lo(" +:+ name +:+ ")") symbols = OK (Z.land v 255).
Proof.
  intros Hid Hk Hlo Hhi Hdbg Hv. unfold eval_expr.
  rewrite (expression_text_lo_name _ Hid).
  unfold py_eval, py_parse. rewrite (tokenize_lo_name _ Hid Hk).
  change (bind (OK [TName "__lo__"; TLParen; TName name; TRParen])
               (fun ts => parse ts))
    with (OK (ECall FLo (EName name)) : result expr).
  simpl.
  assert (str_eqb name "__lo__" = false) as ->
    by (destruct (str_eqb name "__lo__") eqn:E;
        [apply str_eqb_eq in E; contradiction|reflexivity]).
  assert (str_eqb name "__hi__" = false) as ->
    by (destruct (str_eqb name "__hi__") eqn:E;
        [apply str_eqb_eq in E; contradiction|reflexivity]).
  assert (str_eqb name "__debug__" = false) as ->
    by (destruct (str_eqb name "__debug__") eqn:E;
        [apply str_eqb_eq in E; contradiction|reflexivity]).
  simpl. rewrite Hv. reflexivity.
Qed.

Lemma land_255_idem v : Z.land (Z.land v 255) 255 = Z.land v 255.
Proof. rewrite <- Z.land_assoc. reflexivity. Qed.

(** X28: [LOADADDR Rn, name] loads the low byte only.  It expands to a
    line that clears the register, a line that adds [lo(name)], and the
    sentinel; for a name the symbol table binds to [v], the first encodes
    as the three-address [XOR] of the register with itself and the second
    as an immediate [ADD] whose operand byte is [v] modulo 256.  The name
    is an identifier that is neither a keyword, nor one of the two helper
    names of the evaluator, nor [__debug__], which the interpreter reads
    as a constant. *)
Theorem loadaddr_loads_the_low_byte (l : option string) (rn target fn : string)
  (ln r v : Z) (symbols : gmap string Z)
  (Hrn : parse_register rn = OK r)
  (Hid : is_identifier target = true)
  (Hkw : is_keyword target = false)
  (Hlo : target <> "__lo__") (Hhi : target <> "__hi__")
  (Hdbg : target <> "__debug__")
  (Hv : symbols !! target = Some v) :
  exists x a h,
    expand_loadaddr l [rn; target] fn ln = OK [x; a; h]
    /\ label x = l /\ label a = None /\ label h = None
    /\ encode_3std 0x08 x symbols
       = OK [0x08; Z.shiftl r 2; Z.lor (Z.shiftl r 4) r; 0]
    /\ encode_3std 0x00 a symbols
       = OK [0x00; Z.lor 128 (Z.shiftl r 2); v mod 256; 0]
    /\ mn_upper h = "__LOADADDR_HI__".
Proof.
  pose proof (parse_register_range _ _ Hrn) as Hr.
  exists (make fn ln l "XOR" [rn; rn; rn]),
         (make fn ln None "ADD" [rn; "#lo(" +:+ target +:+ ")"]),
         (make fn ln None "__LOADADDR_HI__" [rn; target]).
  split; [reflexivity|].
  split; [reflexivity|]. split; [reflexivity|]. split; [reflexivity|].
  split; [|split; [|reflexivity]].
  - unfold encode_3std. simpl. rewrite Hrn. simpl.
    apply py_bytes_OK. simpl.
    destruct (mode_byte 0 r ltac:(simpl; auto) Hr) as [Hb _].
    change (Z.lor (Z.shiftl 0 6) (Z.shiftl r 2)) with (Z.shiftl r 2) in Hb.
    rewrite Hb, (pair_byte r r Hr Hr). reflexivity.
  - unfold encode_3std.
    change (is_mov_mar (mn_upper (make fn ln None "ADD" [rn; "#lo(" +:+ target +:+ ")"]))
              (operands (make fn ln None "ADD" [rn; "#lo(" +:+ target +:+ ")"])))
      with false.
    change (in_strings (mn_upper (make fn ln None "ADD" [rn; "#lo(" +:+ target +:+ ")"]))
              SINGLE_OPERAND) with false.
    cbv iota. simpl operands. cbv iota. rewrite Hrn. simpl bind.
    assert (immediate_text ("#lo(" +:+ target +:+ ")") = "lo(" +:+ target +:+ ")")
      as Himm.
    { unfold immediate_text. rewrite strip_no_space; [reflexivity|].
      unfold is_identifier in Hid. apply andb_true_iff in Hid as [_ Hw].
      change ("#lo(" +:+ target +:+ ")")
        with (String "#" (String "l" (String "o" (String "(" (target +:+ ")"))))).
      simpl. rewrite all_chars_app. apply andb_true_iff. split; [|reflexivity].
      eapply all_chars_impl; [|exact Hw]. intros c Hc.
      apply word_char_plain in Hc. destruct (is_space c); [discriminate|reflexivity]. }
    rewrite Himm.
    assert (register_syntax (strip ("lo(" +:+ target +:+ ")")) = None) as ->.
    { rewrite strip_no_space; [reflexivity|].
      unfold is_identifier in Hid. apply andb_true_iff in Hid as [_ Hw].
      change ("lo(" +:+ target +:+ ")")
        with (String "l" (String "o" (String "(" (target +:+ ")")))).
      simpl. rewrite all_chars_app. apply andb_true_iff. split; [|reflexivity].
      eapply all_chars_impl; [|exact Hw]. intros c Hc.
      apply word_char_plain in Hc. destruct (is_space c); [discriminate|reflexivity]. }
    rewrite (eval_expr_lo_name _ _ _ Hid Hkw Hlo Hhi Hdbg Hv). simpl bind.
    rewrite land_255_idem, land_255_mod.
    apply py_bytes_OK. simpl.
    destruct (mode_byte 2 r ltac:(simpl; auto) Hr) as [Hb _].
    change (Z.lor (Z.shiftl 2 6) (Z.shiftl r 2)) with (Z.lor 128 (Z.shiftl r 2)) in Hb.
    rewrite Hb.
    pose proof (land_255_byte v) as Hl. rewrite land_255_mod in Hl. rewrite Hl.
    reflexivity.
Qed.

Lemma loadaddr_loads_the_low_byte_witness :
  exists x a h,
    expand_loadaddr (Some "go") ["R5"; "target"] "m" 3 = OK [x; a; h]
    /\ encode_3std 0x00 a {[ "target" := 0x1234 ]}
       = OK [0x00; Z.lor 128 (Z.shiftl 5 2); 0x1234 mod 256; 0].
Proof.
  destruct (loadaddr_loads_the_low_byte (Some "go") "R5" "target" "m" 3 5 0x1234
              {[ "target" := 0x1234 ]} eq_refl eq_refl eq_refl
              ltac:(discriminate) ltac:(discriminate) ltac:(discriminate)
              eq_refl)
    as (x & a & h & He & _ & _ & _ & _ & Ha & _).
  exists x, a, h. split; [exact He|exact Ha].
Defined.

(** ** Include paths *)

Lemma head_upto_slash_none f :
  all_chars (fun c => negb (is_slash c)) f = true -> head_upto_slash f = "".
Proof.
  induction f as [|c f IH]; intros H; [reflexivity|].
  simpl in H. apply andb_true_iff in H as [Hc Hf]. apply negb_true_iff in Hc.
  simpl. rewrite (IH Hf). unfold is_slash in Hc. rewrite Hc. reflexivity.
Qed.

Lemma head_upto_slash_dir d f :
  all_chars (fun c => negb (is_slash c)) f = true ->
  head_upto_slash (d +:+ "/" +:+ f) = d +:+ "/".
Proof.
  intros Hf. induction d as [|x d IH].
  - rewrite !append_nil_l. change ("/" +:+ f) with (String "/" f).
    simpl. rewrite (head_upto_slash_none _ Hf). reflexivity.
  - rewrite append_cons. simpl. rewrite IH.
    destruct d; reflexivity.
Qed.

Lemma rstrip_slash_dir d :
  endswith_slash d = false -> rstrip_slash (d +:+ "/") = d.
Proof.
  induction d as [|x d IH]; intros H; [reflexivity|].
  rewrite append_cons. simpl.
  destruct d as [|y d].
  - simpl in H. rewrite append_nil_l. simpl. rewrite H. reflexivity.
  - rewrite IH by exact H. reflexivity.
Qed.

Lemma not_all_slashes d :
  d <> "" -> endswith_slash d = false ->
  all_chars (fun c => char_eqb c "/") (d +:+ "/") = false.
Proof.
  induction d as [|x d IH]; intros Hne H; [congruence|].
  rewrite append_cons. simpl.
  destruct d as [|y d].
  - simpl in H. rewrite H. reflexivity.
  - rewrite IH by (discriminate || exact H). apply andb_false_r.
Qed.

(** X29: an include path that is not absolute is taken from the directory
    of the including file: in a file [d/f] the path [g] stands for [d/g],
    and in a file named without directory it stands for itself. *)
Theorem relative_include_is_beside_the_file (d f g : string)
  (Hd : endswith_slash d = false)
  (Hf : all_chars (fun c => negb (is_slash c)) f = true)
  (Hg : isabs g = false) :
  path_join (dirname (d +:+ "/" +:+ f)) g = d +:+ "/" +:+ g
  /\ path_join (dirname f) g = g.
Proof.
  unfold isabs in Hg. split.
  - unfold dirname. rewrite (head_upto_slash_dir d f Hf).
    destruct d as [|x d].
    + rewrite !append_nil_l. unfold path_join. rewrite Hg. reflexivity.
    + rewrite not_all_slashes by (discriminate || exact Hd).
      change (str_eqb (String x d +:+ "/") "") with false.
      change (negb false && negb false) with true. cbv iota.
      rewrite (rstrip_slash_dir _ Hd).
      unfold path_join. rewrite Hg.
      change (str_eqb (String x d) "") with false.
      rewrite Hd. reflexivity.
  - unfold dirname. rewrite (head_upto_slash_none f Hf).
    unfold path_join. rewrite Hg. reflexivity.
Qed.

Lemma relative_include_is_beside_the_file_witness :
  path_join (dirname "/p/sub/b.asm") "../a.asm" = "/p/sub/../a.asm"
  /\ path_join (dirname "b.asm") "inc/a.asm" = "inc/a.asm".
Proof.
  split.
  - exact (proj1 (relative_include_is_beside_the_file "/p/sub" "b.asm" "../a.asm"
                    eq_refl eq_refl eq_refl)).
  - exact (proj2 (relative_include_is_beside_the_file "" "b.asm" "inc/a.asm"
                    eq_refl eq_refl eq_refl)).
Defined.

(** ** The listing *)

Lemma length_append a b :
  String.length (a +:+ b) = (String.length a + String.length b)%nat.
Proof.
  induction a as [|c a IH]; [reflexivity|].
  rewrite append_cons. simpl. rewrite IH. reflexivity.
Qed.

Lemma length_repeat_char c n : String.length (repeat_char c n) = n.
Proof. induction n as [|n IH]; simpl; congruence. Qed.

Lemma length_ljust w s :
  (String.length s <= w)%nat -> String.length (ljust w s) = w.
Proof.
  intros H. unfold ljust. rewrite length_append, length_repeat_char. lia.
Qed.

Lemma length_upper s : String.length (upper s) = String.length s.
Proof.
  induction s as [|c s IH]; [reflexivity|].
  rewrite upper_cons. simpl. rewrite IH. reflexivity.
Qed.

Lemma hex_digits_pos_length fuel : forall (k : nat) p acc,
  Zpos p < 16 ^ Z.of_nat k ->
  (String.length (hex_digits_pos p acc fuel) <= k + String.length acc)%nat.
Proof.
  induction fuel as [|fuel IH]; intros k p acc Hp; [simpl; lia|].
  assert (1 <= k)%nat as Hk.
  { destruct k; [simpl in Hp; lia|lia]. }
  cbn [hex_digits_pos].
  destruct (Zpos p / 16) as [|p'|p'] eqn:Hq; [simpl; lia| |simpl; lia].
  destruct k as [|k]; [lia|].
  specialize (IH k p' (String (hex_digit (Zpos p mod 16)) acc)).
  simpl String.length in IH.
  assert (Zpos p' < 16 ^ Z.of_nat k) as Hp'.
  { rewrite <- Hq. apply Z.div_lt_upper_bound; [lia|].
    rewrite Nat2Z.inj_succ, Z.pow_succ_r in Hp by lia. lia. }
  specialize (IH Hp'). lia.
Qed.

Lemma format_0X_length (w : nat) n :
  (1 <= w)%nat -> 0 <= n < 16 ^ Z.of_nat w ->
  String.length (format_0X w n) = w.
Proof.
  intros Hw Hn. destruct n as [|p|p]; [| |lia].
  - unfold format_0X. rewrite length_append, length_repeat_char. simpl. lia.
  - unfold format_0X, hex_upper.
    pose proof (hex_digits_pos_length (Pos.to_nat (Pos.size p)) w p ""
                  ltac:(lia)) as Hlen.
    simpl String.length in Hlen.
    rewrite length_append, length_repeat_char, length_upper. lia.
Qed.

Lemma format_04X_length a :
  0 <= a < 65536 -> String.length (format_0X 4 a) = 4%nat.
Proof. intros Ha. apply format_0X_length; [lia|]. simpl. lia. Qed.

Lemma format_02X_length b :
  0 <= b < 256 -> String.length (format_0X 2 b) = 2%nat.
Proof. intros Hb. apply format_0X_length; [lia|]. simpl. lia. Qed.

Lemma join_hex_length data :
  Forall byte_range data ->
  String.length (join_with " " (List.map (format_0X 2) data))
  = (3 * List.length data - 1)%nat.
Proof.
  induction 1 as [|b data Hb Hdata IH]; [reflexivity|].
  destruct data as [|b' data].
  - simpl. rewrite (format_02X_length _ Hb). reflexivity.
  - change (join_with " " (List.map (format_0X 2) (b :: b' :: data)))
      with (format_0X 2 b +:+ " "
            +:+ join_with " " (List.map (format_0X 2) (b' :: data))).
    rewrite !length_append, IH, (format_02X_length _ Hb). simpl. lia.
Qed.

Lemma sorted_items_length symbols :
  List.length (sorted_items symbols) = size symbols.
Proof.
  unfold sorted_items. rewrite <- (length_map_to_list symbols).
  induction (map_to_list symbols) as [|x l IH]; [reflexivity|].
  simpl. rewrite <- IH. clear.
  induction (foldr insert_sorted [] l) as [|y r IH]; [reflexivity|].
  simpl. destruct (String.leb (fst x) (fst y)); simpl; congruence.
Qed.

(** X30: the shape of the listing.  A row for an address from 0 to
    0xFFFF with at most four bytes has a fixed part of 22 characters
    before the source text, the same width as the heading has before the
    word Source, so the source column is aligned; a longer row of [n]
    bytes has a fixed part of [3 n + 9] characters.  The listing has five
    fixed lines, one line per listing record and, when there are symbols,
    one line per symbol and two more; with no record and no symbol the
    file is the five fixed lines, each ended by a newline. *)
Theorem listing_is_aligned :
  (forall addr data sl,
     0 <= addr < 65536 -> Forall byte_range data ->
     exists fixed,
       listing_row (addr, data, sl) = fixed +:+ raw sl
       /\ String.length fixed
          = (if (List.length data <=? 4)%nat then 22
             else 3 * List.length data + 9)%nat) /\
  (exists fixed,
     listing_head = fixed +:+ "Source" /\ String.length fixed = 22%nat) /\
  (forall listing symbols src_path,
     List.length (listing_lines listing symbols src_path)
     = (5 + List.length listing
        + (if decide (symbols = ∅) then 0 else size symbols + 2))%nat) /\
  (forall src_path,
     write_listing [] ∅ src_path
     = "; TMEPT Assembler listing" +:+ nl +:+ "; Source: " +:+ src_path +:+ nl
       +:+ nl +:+ listing_head +:+ nl +:+ repeat_char "-" 72 +:+ nl).
Proof.
  split; [|split; [|split]].
  - intros addr data sl Ha Hd. unfold listing_row.
    exists ("  " +:+ format_0X 4 addr +:+ "  "
            +:+ ljust 12 (join_with " " (List.map (format_0X 2) data)) +:+ "  ").
    split; [rewrite !append_assoc; reflexivity|].
    rewrite !length_append, (format_04X_length _ Ha).
    pose proof (join_hex_length data Hd) as Hj.
    destruct (List.length data <=? 4)%nat eqn:Hn.
    + apply Nat.leb_le in Hn. rewrite length_ljust by lia. reflexivity.
    + apply Nat.leb_gt in Hn. unfold ljust.
      rewrite length_append, length_repeat_char, Hj. simpl. lia.
  - exists "  Addr  Bytes         ". split; reflexivity.
  - intros listing symbols src_path. unfold listing_lines.
    rewrite !length_app, !length_map. simpl.
    destruct (decide (symbols = ∅)); simpl; [lia|].
    rewrite length_app, length_map, sorted_items_length. simpl. lia.
  - intros src_path. unfold write_listing, listing_lines.
    rewrite decide_True by reflexivity.
    cbn [app List.map join_with]. rewrite !append_assoc. reflexivity.
Qed.

Lemma listing_is_aligned_witness :
  listing_row (0x0010, [0x3E; 0x00], ret_line) = "  0010  3E 00         "
  /\ exists fixed,
       listing_row (0x0010, [0x3E; 0x00], ret_line) = fixed +:+ raw ret_line
       /\ String.length fixed = 22%nat.
Proof.
  split; [vm_compute; reflexivity|].
  apply (proj1 listing_is_aligned 0x0010 [0x3E; 0x00] ret_line).
  - lia.
  - repeat constructor; unfold byte_range; lia.
Defined.
